(** * dbdiagram-parser: the DBAL lexer and parser, embedded and verified

    The development follows the two TypeScript classes of the repository,
    [Lexer] (src/Lexer.ts) and [Parser] (src/Parser.ts), together with the
    token and AST interfaces.  Both classes are objects with a cursor that
    is mutated by their methods; here every method is a computation in a
    state-and-exception monad over a record holding the object's fields.

    JavaScript strings are sequences of UTF-16 code units, so a string is a
    list of code units and a character a single unit.  [while] loops are
    fixpoints on a counter that is initialised, at the loop's entry, with
    the number of items left after the cursor; the theorems of the last
    part show that the counter never runs out. *)

From Stdlib Require Import String Ascii NArith Bool Arith Lia List.
Import ListNotations.

(* ================================================================== *)
(** ** JavaScript strings *)

Definition char := N.
Definition jsstring := list char.

(** A string literal of the source, as code units. *)
Definition str (s : string) : jsstring :=
  map N_of_ascii (list_ascii_of_string s).

(** [a === b] on strings. *)
Fixpoint str_eqb (a b : jsstring) : bool :=
  match a, b with
  | [], [] => true
  | x :: a', y :: b' => N.eqb x y && str_eqb a' b'
  | _, _ => false
  end.

(** [haystack.includes(needle)]; used to inspect error messages. *)
Fixpoint starts_with (needle haystack : jsstring) : bool :=
  match needle, haystack with
  | [], _ => true
  | x :: n', y :: h' => N.eqb x y && starts_with n' h'
  | _ :: _, [] => false
  end.

Fixpoint includes (haystack needle : jsstring) : bool :=
  starts_with needle haystack ||
  match haystack with
  | [] => false
  | _ :: h' => includes h' needle
  end.

(** String conversion of a possibly [undefined] string, as performed by
    template literals and by [+=]. *)
Definition to_str (v : option jsstring) : jsstring :=
  match v with
  | Some s => s
  | None => str "undefined"
  end.

(** A character read from a string by index is a string of length one, or
    [undefined] when the index is out of range. *)
Definition char_str (c : option char) : jsstring :=
  to_str (option_map (fun u => [u]) c).

(* ================================================================== *)
(** ** Outcomes and the state-and-exception monad *)

Inductive Res (A : Type) : Type :=
| Ok (a : A)
| Throw (msg : jsstring)   (* [throw new Error(msg)] *)
| OutOfFuel.               (* a loop counter of the model ran out *)

Arguments Ok {A} a.
Arguments Throw {A} msg.
Arguments OutOfFuel {A}.

Definition M (St A : Type) : Type := St -> Res (A * St).

Definition ret {St A} (a : A) : M St A := fun s => Ok (a, s).

Definition throw {St A} (msg : jsstring) : M St A := fun _ => Throw msg.

Definition out_of_fuel {St A} : M St A := fun _ => OutOfFuel.

Definition bind {St A B} (m : M St A) (f : A -> M St B) : M St B :=
  fun s =>
    match m s with
    | Ok (a, s') => f a s'
    | Throw msg => Throw msg
    | OutOfFuel => OutOfFuel
    end.

Declare Scope js_scope.
Delimit Scope js_scope with js.
Notation "x <- c ;; k" := (bind c (fun x => k))
  (at level 61, c at next level, right associativity) : js_scope.
Notation "c ;; k" := (bind c (fun _ => k))
  (at level 61, right associativity) : js_scope.
Notation "' pat <- c ;; k" := (bind c (fun x => match x with pat => k end))
  (at level 61, pat pattern, c at next level, right associativity) : js_scope.
Local Open Scope js_scope.

(** The value of a computation, forgetting the final state. *)
Definition result {St A} (r : Res (A * St)) : Res A :=
  match r with
  | Ok (a, _) => Ok a
  | Throw msg => Throw msg
  | OutOfFuel => OutOfFuel
  end.

(* ================================================================== *)
(** ** Tokens (interfaces/Token.ts) *)

Inductive TokenType : Type :=
| KEYWORD | IDENTIFIER | STRING | SYMBOL
| NUMBER | WHITESPACE | COMMENT | ERROR.

(** A [TokenType] is the string that names it. *)
Definition TokenType_str (ty : TokenType) : jsstring :=
  match ty with
  | KEYWORD => str "KEYWORD"
  | IDENTIFIER => str "IDENTIFIER"
  | STRING => str "STRING"
  | SYMBOL => str "SYMBOL"
  | NUMBER => str "NUMBER"
  | WHITESPACE => str "WHITESPACE"
  | COMMENT => str "COMMENT"
  | ERROR => str "ERROR"
  end.

Definition TokenType_eqb (a b : TokenType) : bool :=
  match a, b with
  | KEYWORD, KEYWORD | IDENTIFIER, IDENTIFIER | STRING, STRING
  | SYMBOL, SYMBOL | NUMBER, NUMBER | WHITESPACE, WHITESPACE
  | COMMENT, COMMENT | ERROR, ERROR => true
  | _, _ => false
  end.

Record Token : Type := mkToken { type : TokenType; value : jsstring }.

(* ================================================================== *)
(** ** The lexer (Lexer.ts) *)

Module Lexer.

Record t : Type := mk {
  input : jsstring;
  position : nat;
  tokens : list Token
}.

(** [constructor(input)] *)
Definition new (input : jsstring) : t := mk input 0 [].

(** [/^[a-zA-Z]$/.test(char)]; [undefined] is tested as the string
    "undefined", which the pattern rejects. *)
Definition isLetter (char : option char) : bool :=
  match char with
  | Some c => ((65 <=? c) && (c <=? 90) || (97 <=? c) && (c <=? 122))%N
  | None => false
  end.

(** [/^[0-9]$/.test(char)] *)
Definition isDigit (char : option char) : bool :=
  match char with
  | Some c => ((48 <=? c) && (c <=? 57))%N
  | None => false
  end.

(** [/\s/.test(char)]: the WhiteSpace and LineTerminator code points of
    ECMAScript. *)
Definition isWhitespace (char : option char) : bool :=
  match char with
  | Some c =>
      ((9 <=? c) && (c <=? 13) || (c =? 32) || (c =? 160) || (c =? 5760)
       || (8192 <=? c) && (c <=? 8202) || (c =? 8232) || (c =? 8233)
       || (c =? 8239) || (c =? 8287) || (c =? 12288) || (c =? 65279))%N
  | None => false
  end.

(** The characters that the source compares with [===]: the full stop,
    the single quote and the double quote. *)
Definition full_stop : char := 46%N.
Definition single_quote : char := 39%N.
Definition double_quote : char := 34%N.

(** [char === s] for a string [s] of the one character [c]. *)
Definition char_is (char : option char) (c : N) : bool :=
  match char with
  | Some u => N.eqb u c
  | None => false
  end.

Definition isIdentifierChar (char : option char) : bool :=
  isLetter char || isDigit char || char_is char full_stop.

Definition advance : M t unit :=
  fun l => Ok (tt, mk (input l) (S (position l)) (tokens l)).

Definition peek : M t (option char) :=
  fun l => Ok (nth_error (input l) (position l), l).

(** [this.tokens.push(token)] *)
Definition push (token : Token) : M t unit :=
  fun l => Ok (tt, mk (input l) (position l) (tokens l ++ [token])).

(** Number of characters from the cursor to the end of the input: the
    bound on the iterations of every loop below. *)
Definition remaining : M t nat :=
  fun l => Ok (length (input l) - position l, l).

Fixpoint tokenizeWhitespace_loop (fuel : nat) (value : jsstring)
  : M t jsstring :=
  c <- peek ;;
  if isWhitespace c then
    match fuel with
    | O => out_of_fuel
    | S fuel' =>
        c <- peek ;;
        let value := value ++ char_str c in
        advance ;;
        tokenizeWhitespace_loop fuel' value
    end
  else ret value.

Definition tokenizeWhitespace : M t unit :=
  fuel <- remaining ;;
  value <- tokenizeWhitespace_loop fuel [] ;;
  push (mkToken WHITESPACE value).

Fixpoint tokenizeIdentifierOrKeyword_loop (fuel : nat)
  (identifier : jsstring) : M t jsstring :=
  c <- peek ;;
  if isIdentifierChar c then
    match fuel with
    | O => out_of_fuel
    | S fuel' =>
        c <- peek ;;
        let identifier := identifier ++ char_str c in
        advance ;;
        tokenizeIdentifierOrKeyword_loop fuel' identifier
    end
  else ret identifier.

Definition keywords : list jsstring :=
  map str ["Table"; "Note"; "ref"; "not"; "null"; "unique"; "default";
           "bool"; "string"; "int"; "float"; "bool"]%string.

Definition tokenizeIdentifierOrKeyword : M t unit :=
  fuel <- remaining ;;
  identifier <- tokenizeIdentifierOrKeyword_loop fuel [] ;;
  if existsb (str_eqb identifier) keywords then
    push (mkToken KEYWORD identifier)
  else
    push (mkToken IDENTIFIER identifier).

Definition opt_char_eqb (a b : option char) : bool :=
  match a, b with
  | Some x, Some y => N.eqb x y
  | None, None => true
  | _, _ => false
  end.

Fixpoint tokenizeString_loop (fuel : nat) (quoteType : option char)
  (string : jsstring) : M t jsstring :=
  fun l =>
    (c <- peek ;;
     if negb (opt_char_eqb c quoteType)
        && (position l <? length (input l)) then
       match fuel with
       | O => out_of_fuel
       | S fuel' =>
           c <- peek ;;
           let string := string ++ char_str c in
           advance ;;
           tokenizeString_loop fuel' quoteType string
       end
     else ret string) l.

Definition tokenizeString : M t unit :=
  quoteType <- peek ;;
  advance ;;
  fuel <- remaining ;;
  string <- tokenizeString_loop fuel quoteType [] ;;
  advance ;;
  push (mkToken STRING string).

(** One iteration of the loop of [tokenize]. *)
Definition tokenize_step : M t unit :=
  char <- peek ;;
  if isWhitespace char then tokenizeWhitespace
  else if isLetter char then tokenizeIdentifierOrKeyword
  else if char_is char single_quote || char_is char double_quote then
    tokenizeString
  else if includes (str "{}[]:,<>") (char_str char) then
    push (mkToken SYMBOL (char_str char)) ;;
    advance
  else throw (str "Unexpected character: " ++ char_str char).

Fixpoint tokenize_loop (fuel : nat) : M t (list Token) :=
  fun l =>
    if position l <? length (input l) then
      match fuel with
      | O => OutOfFuel
      | S fuel' => (tokenize_step ;; tokenize_loop fuel') l
      end
    else Ok (tokens l, l).

Definition tokenize : M t (list Token) :=
  fuel <- remaining ;;
  tokenize_loop fuel.

Definition lex : M t (list Token) := tokenize.

End Lexer.

(** [new Lexer(input).lex()] *)
Definition lex_text (input : jsstring) : Res (list Token) :=
  result (Lexer.lex (Lexer.new input)).

(* ================================================================== *)
(** ** The syntax tree (interfaces/AST.ts)

    The constant [type] tags ("Table", "Column") of the nodes carry no
    information and are left out. *)

Module ColumnNode.
Record t : Type := mk {
  name : jsstring;
  dataType : jsstring;
  constraints : list jsstring;
  note : option jsstring
}.
End ColumnNode.

Module TableNode.
Record t : Type := mk {
  name : jsstring;
  columns : list ColumnNode.t;
  note : option jsstring
}.
End TableNode.

Record AST : Type := mkAST { tables : list TableNode.t }.

(* ================================================================== *)
(** ** The parser (Parser.ts) *)

(** [tok?.type === ty], [tok?.value === s] and the truthiness of [tok]. *)
Definition type_is (tok : option Token) (ty : TokenType) : bool :=
  match tok with
  | Some t => TokenType_eqb (type t) ty
  | None => false
  end.

Definition value_is (tok : option Token) (s : string) : bool :=
  match tok with
  | Some t => str_eqb (value t) (str s)
  | None => false
  end.

Definition defined {A} (v : option A) : bool :=
  match v with
  | Some _ => true
  | None => false
  end.

(** Truthiness of an optional string argument: [undefined] and the empty
    string are falsy. *)
Definition truthy (v : option jsstring) : bool :=
  match v with
  | Some (_ :: _) => true
  | _ => false
  end.

Module Parser.

Record t : Type := mk {
  tokens : list Token;
  position : nat;
  ast : AST
}.

(** [constructor(tokens)] *)
Definition new (tokens : list Token) : t := mk tokens 0 (mkAST []).

Definition peek : M t (option Token) :=
  fun p => Ok (nth_error (tokens p) (position p), p).

(** [return this.tokens[this.position++]] *)
Definition advance : M t (option Token) :=
  fun p => Ok (nth_error (tokens p) (position p),
               mk (tokens p) (S (position p)) (ast p)).

(** [this.position < this.tokens.length] *)
Definition more : M t bool :=
  fun p => Ok (position p <? length (tokens p), p).

(** Number of tokens from the cursor to the end: the bound on the
    iterations of every loop below. *)
Definition remaining : M t nat :=
  fun p => Ok (length (tokens p) - position p, p).

Fixpoint skipWhitespace_loop (fuel : nat) : M t unit :=
  m <- more ;;
  tok <- peek ;;
  if m && type_is tok WHITESPACE then
    match fuel with
    | O => out_of_fuel
    | S fuel' => advance ;; skipWhitespace_loop fuel'
    end
  else ret tt.

Definition skipWhitespace : M t unit :=
  fuel <- remaining ;;
  skipWhitespace_loop fuel.

(** The message of the error thrown by [expect]. *)
Definition expect_msg (type_ : TokenType) (value_ : option jsstring)
  (token : option Token) : jsstring :=
  str "Expected " ++ TokenType_str type_ ++ str " '" ++ to_str value_
  ++ str "', but got "
  ++ to_str (option_map (fun tk => TokenType_str (type tk)) token)
  ++ str " '" ++ to_str (option_map value token) ++ str "'".

Definition expect (type_ : TokenType) (value_ : option jsstring)
  : M t Token :=
  skipWhitespace ;;
  token <- advance ;;
  match token with
  | None => throw (expect_msg type_ value_ token)
  | Some tk =>
      if negb (TokenType_eqb (type tk) type_)
         || (truthy value_ && negb (str_eqb (value tk) (to_str value_)))
      then throw (expect_msg type_ value_ token)
      else ret tk
  end.

(** The message of the "Unexpected token" errors. *)
Definition unexpected_msg (token : option Token) : jsstring :=
  str "Unexpected token "
  ++ to_str (option_map (fun tk => TokenType_str (type tk)) token)
  ++ str " '" ++ to_str (option_map value token) ++ str "'".

(** [constraints] is a mutable array shared with the caller; the loop
    returns its final contents. *)
Fixpoint parseConstraints_loop (fuel : nat) (constraints : list jsstring)
  : M t (list jsstring) :=
  tok <- peek ;;
  if defined tok && negb (value_is tok "]") then
    match fuel with
    | O => out_of_fuel
    | S fuel' =>
        entry <- advance ;;
        match entry with
        | None =>
            throw (str "Cannot read properties of undefined (reading 'value')")
        | Some tk =>
            let constraints := constraints ++ [value tk] in
            tok <- peek ;;
            (if value_is tok "," then advance ;; ret tt else ret tt) ;;
            parseConstraints_loop fuel' constraints
        end
    end
  else ret constraints.

Definition parseConstraints (constraints : list jsstring)
  : M t (list jsstring) :=
  expect SYMBOL (Some (str "[")) ;;
  fuel <- remaining ;;
  constraints <- parseConstraints_loop fuel constraints ;;
  expect SYMBOL (Some (str "]")) ;;
  ret constraints.

Definition parseNote : M t jsstring :=
  skipWhitespace ;;
  expect KEYWORD (Some (str "Note")) ;;
  expect SYMBOL (Some (str ":")) ;;
  noteToken <- expect STRING None ;;
  ret (value noteToken).

Definition parseColumn : M t ColumnNode.t :=
  skipWhitespace ;;
  nameToken <- expect IDENTIFIER None ;;
  dataTypeToken <- expect KEYWORD None ;;
  let constraints := [] in
  tok <- peek ;;
  constraints <- (if value_is tok "[" then parseConstraints constraints
                  else ret constraints) ;;
  tok <- peek ;;
  note <- (if type_is tok KEYWORD && value_is tok "note" then
             advance ;;
             expect SYMBOL (Some (str ":")) ;;
             noteToken <- expect STRING None ;;
             ret (Some (value noteToken))
           else ret None) ;;
  ret (ColumnNode.mk (value nameToken) (value dataTypeToken)
                     constraints note).

(** The local variables of [parseTable] that its loop updates. *)
Definition locals : Type :=
  (list ColumnNode.t * option jsstring * list jsstring)%type.

Fixpoint parseTable_loop (fuel : nat) (columns : list ColumnNode.t)
  (note : option jsstring) (constraints : list jsstring) : M t locals :=
  tok <- peek ;;
  if defined tok && negb (value_is tok "}") then
    match fuel with
    | O => out_of_fuel
    | S fuel' =>
        skipWhitespace ;;
        tok <- peek ;;
        if type_is tok IDENTIFIER then
          column <- parseColumn ;;
          parseTable_loop fuel' (columns ++ [column]) note constraints
        else if type_is tok KEYWORD && value_is tok "Note" then
          note <- parseNote ;;
          parseTable_loop fuel' columns (Some note) constraints
        else if type_is tok SYMBOL && value_is tok "[" then
          constraints <- parseConstraints constraints ;;
          parseTable_loop fuel' columns note constraints
        else if value_is tok "}" then
          ret (columns, note, constraints)     (* break *)
        else throw (unexpected_msg tok)
    end
  else ret (columns, note, constraints).

Definition parseTable : M t TableNode.t :=
  skipWhitespace ;;
  expect KEYWORD (Some (str "Table")) ;;
  nameToken <- expect IDENTIFIER None ;;
  skipWhitespace ;;
  let constraints := [] in
  tok <- peek ;;
  constraints <- (if value_is tok "[" then parseConstraints constraints
                  else ret constraints) ;;
  expect SYMBOL (Some (str "{")) ;;
  fuel <- remaining ;;
  '(columns, note, _) <- parseTable_loop fuel [] None constraints ;;
  expect SYMBOL (Some (str "}")) ;;
  ret (TableNode.mk (value nameToken) columns note).

(** [this.ast.tables.push(table)] *)
Definition push_table (table : TableNode.t) : M t unit :=
  fun p => Ok (tt, mk (tokens p) (position p)
                      (mkAST (tables (ast p) ++ [table]))).

Definition get_ast : M t AST := fun p => Ok (ast p, p).

Fixpoint parse_loop (fuel : nat) : M t AST :=
  m <- more ;;
  if m then
    match fuel with
    | O => out_of_fuel
    | S fuel' =>
        skipWhitespace ;;
        tok <- peek ;;
        if type_is tok KEYWORD && value_is tok "Table" then
          table <- parseTable ;;
          push_table table ;;
          parse_loop fuel'
        else if negb (defined tok) then
          get_ast                              (* break *)
        else throw (unexpected_msg tok)
    end
  else get_ast.

Definition parse : M t AST :=
  fuel <- remaining ;;
  parse_loop fuel.

End Parser.

(** [new Parser(tokens).parse()] *)
Definition parse_tokens (tokens : list Token) : Res AST :=
  result (Parser.parse (Parser.new tokens)).

(** The pipeline of index.ts: [new Parser(new Lexer(input).lex()).parse()]. *)
Definition parse_text (input : jsstring) : Res AST :=
  match lex_text input with
  | Ok tokens => parse_tokens tokens
  | Throw msg => Throw msg
  | OutOfFuel => OutOfFuel
  end.


(* ================================================================== *)
(** * Vocabulary of the statements

    The predicates and functions in which the properties below are
    stated: the states that the loop of the lexer goes through, the
    tokens that the parser still has to read, the shape of a table
    declaration as a sequence of tokens, and the relations used to
    compare two runs of the parser. *)

Module LexerSpec.
Import Lexer.

(** The five kinds of token that the lexer has a branch for. *)
Definition produced (ty : TokenType) : Prop :=
  ty = KEYWORD \/ ty = IDENTIFIER \/ ty = STRING \/ ty = SYMBOL
  \/ ty = WHITESPACE.

(** A character on which [tokenize] has no branch. *)
Definition unrecognized (c : char) : Prop :=
  isWhitespace (Some c) = false /\ isLetter (Some c) = false
  /\ c <> single_quote /\ c <> double_quote
  /\ ~ In c (str "{}[]:,<>").

(** [reaches l l']: the loop of [tokenize], started in state [l], is at
    the top of an iteration in state [l']. *)
Inductive reaches : t -> t -> Prop :=
| reaches_here l : reaches l l
| reaches_next l l' l'' :
    position l < length (input l) ->
    tokenize_step l = Ok (tt, l') ->
    reaches l' l'' ->
    reaches l l''.

(** A scanning loop stays within the input, keeps the tokens, and moves
    the cursor when its first test succeeds. *)
Definition scan_ok (loop : nat -> jsstring -> M t jsstring)
  (test : option char -> bool) : Prop :=
  forall fuel value l,
    length (input l) - position l <= fuel ->
    exists value' l',
      loop fuel value l = Ok (value', l')
      /\ input l' = input l /\ tokens l' = tokens l
      /\ position l <= position l'
      /\ (test (nth_error (input l) (position l)) = true ->
          position l < position l').

(** The longest prefix of characters that pass a test: what a scanning
    loop of the lexer collects. *)
Fixpoint take_while (test : char -> bool) (xs : jsstring) : jsstring :=
  match xs with
  | c :: xs' => if test c then c :: take_while test xs' else []
  | [] => []
  end.

Definition is_space (c : char) : bool := isWhitespace (Some c).
Definition is_ident (c : char) : bool := isIdentifierChar (Some c).
Definition is_quote (c : char) : bool :=
  N.eqb c single_quote || N.eqb c double_quote.
Definition is_symbol (c : char) : bool := existsb (N.eqb c) (str "{}[]:,<>").

(** The token for a scanned word: a keyword if the word is in the list. *)
Definition word_token (identifier : jsstring) : Token :=
  if existsb (str_eqb identifier) keywords
  then mkToken KEYWORD identifier
  else mkToken IDENTIFIER identifier.

(** The first token of the characters [rest], with the distance that the
    cursor moves; [None] when the first character is unrecognized.  A
    string literal moves the cursor over both quotes, also when the
    closing quote is missing. *)
Definition next_token (rest : jsstring) : option (Token * nat) :=
  match rest with
  | [] => None
  | c :: rest' =>
      if is_space c then
        let run := take_while is_space rest in
        Some (mkToken WHITESPACE run, length run)
      else if isLetter (Some c) then
        let run := take_while is_ident rest in
        Some (word_token run, length run)
      else if is_quote c then
        let body := take_while (fun u => negb (N.eqb u c)) rest' in
        Some (mkToken STRING body, length body + 2)
      else if is_symbol c then Some (mkToken SYMBOL [c], 1)
      else None
  end.

(** A word: a letter followed by letters, digits and full stops. *)
Definition word (v : jsstring) : Prop :=
  match v with
  | c :: v' => isLetter (Some c) = true /\ Forall (fun u => is_ident u = true) v'
  | [] => False
  end.

(** What the text of a token of each kind looks like. *)
Definition well_formed (tok : Token) : Prop :=
  match type tok with
  | WHITESPACE =>
      value tok <> [] /\ Forall (fun u => is_space u = true) (value tok)
  | KEYWORD => In (value tok) keywords /\ word (value tok)
  | IDENTIFIER => ~ In (value tok) keywords /\ word (value tok)
  | SYMBOL => exists c, value tok = [c] /\ In c (str "{}[]:,<>")
  | STRING => True
  | _ => False
  end.

(** Two tokens that a longest-match lexer would have made one of: two
    runs of whitespace, or two words. *)
Definition is_word_kind (ty : TokenType) : bool :=
  match ty with
  | KEYWORD | IDENTIFIER => true
  | _ => false
  end.

Definition glued (a b : Token) : Prop :=
  (type a = WHITESPACE /\ type b = WHITESPACE)
  \/ (is_word_kind (type a) = true /\ is_word_kind (type b) = true).

Definition no_glued (toks : list Token) : Prop :=
  forall pre a b post, toks = pre ++ a :: b :: post -> ~ glued a b.

End LexerSpec.

Module ParserSpec.
Import Parser.

(** The tokens from the cursor on: all that the parser can still see. *)
Definition rest (p : t) : list Token := skipn (position p) (tokens p).

(** The state [p] with the cursor moved [k] tokens forward. *)
Definition skip (k : nat) (p : t) : t :=
  mk (tokens p) (k + position p) (ast p).

Definition is_ws (tok : Token) : Prop := type tok = WHITESPACE.

(** A token sequence that is empty or starts with a token that
    [skipWhitespace] stops at. *)
Definition starts_significant (r : list Token) : Prop :=
  match r with
  | [] => True
  | tok :: _ => type tok <> WHITESPACE
  end.

(** What [expect] accepts: the kind matches and, when a non-empty
    literal is given, the text equals it. *)
Definition expect_accepts (type_ : TokenType) (value_ : option jsstring)
  (tok : Token) : Prop :=
  type tok = type_
  /\ forall literal, value_ = Some literal -> literal <> [] ->
                     value tok = literal.

Definition lbracket : Token := mkToken SYMBOL (str "[").
Definition rbracket : Token := mkToken SYMBOL (str "]").
Definition lbrace : Token := mkToken SYMBOL (str "{").
Definition rbrace : Token := mkToken SYMBOL (str "}").
Definition colon : Token := mkToken SYMBOL (str ":").

(** The entries that [parseConstraints] stores for the tokens between the
    brackets: every token's text, whatever its kind, except a comma that
    directly follows a stored token. *)
Fixpoint constraint_entries (body : list Token) : list jsstring :=
  match body with
  | [] => []
  | tk :: body' =>
      value tk ::
      match body' with
      | sep :: body'' =>
          if str_eqb (value sep) (str ",") then constraint_entries body''
          else constraint_entries body'
      | [] => []
      end
  end.

Definition not_closing (tok : Token) : Prop := value tok <> str "]".

Definition kw (text : string) : Token := mkToken KEYWORD (str text).

(** What may follow a column for [parseColumn] to stop there: neither a
    token with the text of the opening bracket nor the keyword token
    of an inline note. *)
Definition no_inline_note (follow : list Token) : Prop :=
  type_is (hd_error follow) KEYWORD && value_is (hd_error follow) "note"
  = false.

Definition column_ends (follow : list Token) : Prop :=
  value_is (hd_error follow) "[" = false /\ no_inline_note follow.

(** Whitespace inside a table body; the loop of [parseTable] compares the
    text of every token it starts at, whitespace included, with the
    closing brace. *)
Definition gap (tok : Token) : Prop :=
  type tok = WHITESPACE /\ value tok <> str "}".

Inductive member : Type :=
| MNote (ws1 ws2 ws3 : list Token) (text : jsstring)
| MColumn (ws1 : list Token) (name : jsstring) (ws2 : list Token)
          (dataType : jsstring)
| MColumnList (ws1 : list Token) (name : jsstring) (ws2 : list Token)
              (dataType : jsstring) (body : list Token)
| MList (ws1 : list Token) (body : list Token).

Definition member_tokens (m : member) : list Token :=
  match m with
  | MNote ws1 ws2 ws3 text =>
      ws1 ++ kw "Note" :: ws2 ++ colon :: ws3 ++ [mkToken STRING text]
  | MColumn ws1 name ws2 dataType =>
      ws1 ++ mkToken IDENTIFIER name :: ws2 ++ [mkToken KEYWORD dataType]
  | MColumnList ws1 name ws2 dataType body =>
      ws1 ++ mkToken IDENTIFIER name :: ws2
      ++ mkToken KEYWORD dataType :: lbracket :: body ++ [rbracket]
  | MList ws1 body => ws1 ++ lbracket :: body ++ [rbracket]
  end.

(** Side conditions on a member followed by the tokens [follow]. *)
Definition member_ok (m : member) (follow : list Token) : Prop :=
  match m with
  | MNote ws1 ws2 ws3 _ =>
      Forall gap ws1 /\ Forall is_ws ws2 /\ Forall is_ws ws3
  | MColumn ws1 name ws2 _ =>
      Forall gap ws1 /\ name <> str "}" /\ Forall is_ws ws2
      /\ column_ends follow
  | MColumnList ws1 name ws2 _ body =>
      Forall gap ws1 /\ name <> str "}" /\ Forall is_ws ws2
      /\ Forall not_closing body /\ no_inline_note follow
  | MList ws1 body => Forall gap ws1 /\ Forall not_closing body
  end.

Definition body_tokens (ms : list member) : list Token :=
  flat_map member_tokens ms.

Fixpoint body_ok (ms : list member) (closing : list Token) : Prop :=
  match ms with
  | [] => True
  | m :: ms' =>
      member_ok m (body_tokens ms' ++ closing) /\ body_ok ms' closing
  end.

Definition member_columns (m : member) : list ColumnNode.t :=
  match m with
  | MColumn _ name _ dataType => [ColumnNode.mk name dataType [] None]
  | MColumnList _ name _ dataType body =>
      [ColumnNode.mk name dataType (constraint_entries body) None]
  | _ => []
  end.

Definition body_columns (ms : list member) : list ColumnNode.t :=
  flat_map member_columns ms.

(** The texts of the [Note] members, in source order. *)
Definition member_notes (m : member) : list jsstring :=
  match m with
  | MNote _ _ _ text => [text]
  | _ => []
  end.

Definition body_notes (ms : list member) : list jsstring :=
  flat_map member_notes ms.

(** The note of a table: the last of the notes seen, if any. *)
Definition last_note (note : option jsstring) (notes : list jsstring)
  : option jsstring :=
  fold_left (fun _ text => Some text) notes note.

(** [parseTable] from the opening brace on, given the name token and
    the constraints collected from the header. *)
Definition table_body (nameToken : Token) (constraints : list jsstring)
  : M t TableNode.t :=
  expect SYMBOL (Some (str "{")) ;;
  fuel <- remaining ;;
  '(columns, note, _) <- parseTable_loop fuel [] None constraints ;;
  expect SYMBOL (Some (str "}")) ;;
  ret (TableNode.mk (value nameToken) columns note).

(** The tokens of a table declaration: keyword, name, optional header
    list, and the members between braces, with whitespace in between. *)
Definition header_tokens (header : option (list Token)) : list Token :=
  match header with
  | Some body => lbracket :: body ++ [rbracket]
  | None => []
  end.

Definition header_ok (header : option (list Token)) : Prop :=
  match header with
  | Some body => Forall not_closing body
  | None => True
  end.

Definition table_tokens (ws0 ws1 : list Token) (name : jsstring)
  (ws2 : list Token) (header : option (list Token)) (ws3 : list Token)
  (ms : list member) (ws4 : list Token) : list Token :=
  ws0 ++ kw "Table" :: ws1 ++ mkToken IDENTIFIER name :: ws2
  ++ header_tokens header ++ ws3 ++ lbrace :: body_tokens ms
  ++ ws4 ++ [rbrace].

(** Two parser states that see the same remaining tokens and hold the
    same tree. *)
Definition sim (p q : t) : Prop := rest p = rest q /\ ast p = ast q.

Definition agree {A B} (R : A -> B -> Prop)
  (r1 : Res (A * t)) (r2 : Res (B * t)) : Prop :=
  match r1, r2 with
  | Ok (a, p'), Ok (b, q') => R a b /\ sim p' q'
  | Throw msg1, Throw msg2 => msg1 = msg2
  | OutOfFuel, OutOfFuel => True
  | _, _ => False
  end.

Definition related {A B} (R : A -> B -> Prop) (m1 : M t A) (m2 : M t B)
  : Prop :=
  forall p q, sim p q -> agree R (m1 p) (m2 q).

(** Constraint lists that are equal whenever the lists they were
    collected into were equal. *)
Definition same_if (P : Prop) (a b : list jsstring) : Prop := P -> a = b.

(** The locals of [parseTable] that reach the returned node. *)
Definition same_table (x y : locals) : Prop :=
  fst (fst x) = fst (fst y) /\ snd (fst x) = snd (fst y).

(** [good p strict r]: the outcome [r] of a computation started in [p]
    is a value or an error, never an exhausted counter; the tokens are
    kept and the cursor has not moved back ([strict]: has moved on). *)
Definition good {A} (p : t) (strict : bool) (r : Res (A * t)) : Prop :=
  match r with
  | Ok (_, p') =>
      tokens p' = tokens p
      /\ (if strict then position p < position p'
          else position p <= position p')
  | Throw _ => True
  | OutOfFuel => False
  end.

(** A table declaration, as the pieces of [table_tokens]. *)
Record declaration : Type := mkDeclaration {
  before_keyword : list Token;
  before_name : list Token;
  table_name : jsstring;
  after_name : list Token;
  header : option (list Token);
  before_brace : list Token;
  members : list member;
  before_close : list Token
}.

Definition declaration_tokens (d : declaration) : list Token :=
  table_tokens (before_keyword d) (before_name d) (table_name d)
    (after_name d) (header d) (before_brace d) (members d) (before_close d).

Definition declaration_ok (d : declaration) : Prop :=
  Forall is_ws (before_keyword d) /\ Forall is_ws (before_name d)
  /\ Forall is_ws (after_name d) /\ Forall is_ws (before_brace d)
  /\ header_ok (header d)
  /\ (forall r, body_ok (members d) (before_close d ++ rbrace :: r))
  /\ Forall gap (before_close d).

(** The Table node that [parseTable] builds for a declaration. *)
Definition declaration_node (d : declaration) : TableNode.t :=
  TableNode.mk (table_name d) (body_columns (members d))
    (last_note None (body_notes (members d))).

(** A schema: declarations, then whitespace up to the end of the input. *)
Definition schema_tokens (ds : list declaration) (trailing : list Token)
  : list Token :=
  flat_map declaration_tokens ds ++ trailing.

(** [parseTable] from the loop on, started with the given locals. *)
Definition table_close (nameToken : Token) (fuel : nat)
  (columns : list ColumnNode.t) (note : option jsstring)
  (constraints : list jsstring) : M t TableNode.t :=
  '(columns, note, _) <- parseTable_loop fuel columns note constraints ;;
  expect SYMBOL (Some (str "}")) ;;
  ret (TableNode.mk (value nameToken) columns note).

(** The tokens of a declaration up to and including its members: what
    precedes the place where the closing brace is expected. *)
Definition open_tokens (d : declaration) : list Token :=
  before_keyword d ++ kw "Table" :: before_name d
  ++ mkToken IDENTIFIER (table_name d) :: after_name d
  ++ header_tokens (header d) ++ before_brace d
  ++ lbrace :: body_tokens (members d).

(** Side conditions on an open declaration followed by [closing]. *)
Definition open_ok (d : declaration) (closing : list Token) : Prop :=
  Forall is_ws (before_keyword d) /\ Forall is_ws (before_name d)
  /\ Forall is_ws (after_name d) /\ Forall is_ws (before_brace d)
  /\ header_ok (header d)
  /\ body_ok (members d) closing.


(** Token sequences without a KEYWORD token of text "note", the only
    token that opens the inline note of a column. *)
Definition no_note_keyword (toks : list Token) : Prop :=
  Forall (fun tok => type_is (Some tok) KEYWORD && value_is (Some tok) "note"
                     = false) toks.

(** Tables whose columns all are without a note. *)
Definition columns_without_note (columns : list ColumnNode.t) : Prop :=
  Forall (fun column => ColumnNode.note column = None) columns.

Definition tables_without_column_notes (tbls : list TableNode.t) : Prop :=
  Forall (fun table => columns_without_note (TableNode.columns table)) tbls.

(** The errors that the parser throws on purpose: those of [expect] and
    the "Unexpected token" errors of [parseTable] and [parse]. *)
Definition starts_with (prefix s : jsstring) : Prop :=
  firstn (length prefix) s = prefix.

Definition parser_error (msg : jsstring) : Prop :=
  starts_with (str "Expected ") msg
  \/ starts_with (str "Unexpected token ") msg.

(** [throws P r]: if the outcome [r] is an error, its message is in [P]. *)
Definition throws {A} (P : jsstring -> Prop) (r : Res A) : Prop :=
  match r with
  | Throw msg => P msg
  | _ => True
  end.

(** The declaration [Table <name> { id int }] after the whitespace
    [before], as the lexer splits it. *)
Definition space : Token := mkToken WHITESPACE (str " ").

Definition sample_table (before : list Token) (name : string) : declaration :=
  mkDeclaration before [space] (str name) [space] None []
    [MColumn [space] (str "id") [space] (str "int")] [space].

End ParserSpec.

(* ================================================================== *)
(** * Properties *)

(** ** Strings and token types *)

Lemma str_eqb_eq (a b : jsstring) : str_eqb a b = true <-> a = b.
Proof.
  revert b; induction a as [|x a IH]; intros [|y b]; simpl;
    try (split; [discriminate | discriminate]); try tauto.
  rewrite andb_true_iff, N.eqb_eq, IH.
  split; [intros [-> ->]; reflexivity | intros H; inversion H; auto].
Qed.

Lemma str_eqb_refl (a : jsstring) : str_eqb a a = true.
Proof. apply str_eqb_eq; reflexivity. Qed.

Lemma str_eqb_neq (a b : jsstring) : str_eqb a b = false <-> a <> b.
Proof.
  rewrite <- str_eqb_eq. destruct (str_eqb a b); split; congruence.
Qed.

Lemma TokenType_eqb_eq (a b : TokenType) : TokenType_eqb a b = true <-> a = b.
Proof. destruct a, b; simpl; split; congruence. Qed.

Lemma TokenType_eqb_refl (a : TokenType) : TokenType_eqb a a = true.
Proof. destruct a; reflexivity. Qed.

(** ** The lexer *)

Module LexerFacts.
Import Lexer LexerSpec.

Ltac unfold_m :=
  unfold bind, ret, throw, out_of_fuel, peek, advance, push, remaining;
  simpl.

Ltac scan_tac test :=
  intros fuel; induction fuel as [|fuel IH]; intros value l Hf; simpl;
  unfold_m;
  destruct (test (nth_error (input l) (position l))) eqn:E;
  try (exists value, l; repeat split; auto; discriminate);
  assert (Hlt : position l < length (input l))
    by (apply nth_error_Some; intros Hn; rewrite Hn in E; discriminate);
  [ lia
  | destruct (IH (value ++ char_str (nth_error (input l) (position l)))
                 (mk (input l) (S (position l)) (tokens l)))
      as (v' & l' & H1 & H2 & H3 & H4 & _); [simpl; lia|];
    exists v', l'; simpl in *; repeat split; auto; lia ].

Lemma tokenizeWhitespace_loop_ok :
  scan_ok tokenizeWhitespace_loop isWhitespace.
Proof. scan_tac isWhitespace. Qed.

Lemma tokenizeIdentifierOrKeyword_loop_ok :
  scan_ok tokenizeIdentifierOrKeyword_loop isIdentifierChar.
Proof. scan_tac isIdentifierChar. Qed.

Lemma skipn_nth_error {A} {x : A} (xs : list A) n :
  nth_error xs n = Some x -> skipn n xs = x :: skipn (S n) xs.
Proof.
  revert n; induction xs as [|y xs IH]; intros [|n] H; simpl in *;
    try discriminate.
  - congruence.
  - apply IH in H. rewrite H. reflexivity.
Qed.

Lemma tokenizeString_loop_ok fuel : forall quoteType string l,
  length (input l) - position l <= fuel ->
  exists string' l',
    tokenizeString_loop fuel quoteType string l = Ok (string', l')
    /\ input l' = input l /\ tokens l' = tokens l
    /\ position l <= position l'.
Proof.
  induction fuel as [|fuel IH]; intros q s l Hf; simpl; unfold_m;
    destruct (negb (opt_char_eqb (nth_error (input l) (position l)) q)
              && (position l <? length (input l))) eqn:E;
    try solve [exists s, l; repeat split; auto].
  - apply andb_true_iff in E as [_ E]. apply Nat.ltb_lt in E. lia.
  - apply andb_true_iff in E as [_ E]. apply Nat.ltb_lt in E.
    destruct (IH q (s ++ char_str (nth_error (input l) (position l)))
                 (mk (input l) (S (position l)) (tokens l)))
      as (v' & l' & H1 & H2 & H3 & H4); [simpl; lia|].
    exists v', l'; simpl in *; repeat split; auto; lia.
Qed.

(** Without a closing quote the loop of [tokenizeString] collects the
    rest of the input and stops at its end. *)
Lemma tokenizeString_loop_unterminated fuel : forall q string l,
  length (input l) - position l <= fuel ->
  position l <= length (input l) ->
  ~ In q (skipn (position l) (input l)) ->
  tokenizeString_loop fuel (Some q) string l
  = Ok (string ++ skipn (position l) (input l),
        mk (input l) (length (input l)) (tokens l)).
Proof.
  induction fuel as [|fuel IH]; intros q s [inp pos toks] Hf Hle Hq;
    simpl in *; unfold_m;
    destruct (nth_error inp pos) as [c|] eqn:En.
  - assert (pos < length inp) by (apply nth_error_Some; congruence). lia.
  - apply nth_error_None in En. assert (pos = length inp) by lia; subst.
    rewrite skipn_all, app_nil_r, Nat.ltb_irrefl, andb_false_r.
    reflexivity.
  - assert (Hlt : pos < length inp) by (apply nth_error_Some; congruence).
    rewrite (skipn_nth_error _ _ En) in Hq |- *.
    assert (Hc : (c =? q)%N = false)
      by (apply N.eqb_neq; intros ->; apply Hq; left; reflexivity).
    simpl. rewrite Hc. apply Nat.ltb_lt in Hlt as Hb. rewrite Hb. simpl.
    rewrite En. change (char_str (Some c)) with [c].
    rewrite (IH q (s ++ [c]) (mk inp (S pos) toks));
      cbn [position input tokens]; try lia.
    + rewrite <- app_assoc. reflexivity.
    + intros Hin. apply Hq. right. exact Hin.
  - apply nth_error_None in En. assert (pos = length inp) by lia; subst.
    rewrite skipn_all, app_nil_r, Nat.ltb_irrefl, andb_false_r.
    reflexivity.
Qed.

(** One iteration of the main loop either throws or appends exactly one
    token, of one of the five produced kinds, and moves the cursor. *)
Lemma tokenize_step_cases l :
  position l < length (input l) ->
  (exists l' tok,
      tokenize_step l = Ok (tt, l')
      /\ input l' = input l /\ position l < position l'
      /\ tokens l' = tokens l ++ [tok] /\ produced (type tok))
  \/ (exists msg, tokenize_step l = Throw msg).
Proof.
  intros Hlt. unfold tokenize_step, bind, peek. cbv beta iota.
  set (c := nth_error (input l) (position l)).
  destruct (isWhitespace c) eqn:Ews; [|destruct (isLetter c) eqn:Elt;
    [|destruct (char_is c single_quote || char_is c double_quote) eqn:Eq;
      [|destruct (includes (str "{}[]:,<>") (char_str c)) eqn:Esy]]].
  - left. unfold tokenizeWhitespace. unfold_m.
    destruct (tokenizeWhitespace_loop_ok (length (input l) - position l)
                [] l (le_n _)) as (v & l' & -> & Hi & Ht & _ & Hp).
    assert (Hpos : position l < position l') by (apply Hp; exact Ews).
    exists (mk (input l') (position l') (tokens l' ++ [mkToken WHITESPACE v])),
      (mkToken WHITESPACE v).
    simpl. rewrite Ht. repeat split; auto. unfold produced; tauto.
  - left. unfold tokenizeIdentifierOrKeyword, bind, remaining.
    destruct (tokenizeIdentifierOrKeyword_loop_ok
                (length (input l) - position l) [] l (le_n _))
      as (v & l' & -> & Hi & Ht & _ & Hp).
    assert (Hpos : position l < position l').
    { apply Hp. fold c. unfold isIdentifierChar. rewrite Elt. reflexivity. }
    destruct (existsb (str_eqb v) keywords); unfold push.
    + exists (mk (input l') (position l') (tokens l' ++ [mkToken KEYWORD v])),
        (mkToken KEYWORD v).
      simpl. rewrite Ht. repeat split; auto. unfold produced; tauto.
    + exists (mk (input l') (position l')
                 (tokens l' ++ [mkToken IDENTIFIER v])),
        (mkToken IDENTIFIER v).
      simpl. rewrite Ht. repeat split; auto. unfold produced; tauto.
  - left. unfold tokenizeString, bind, peek, advance, remaining, push.
    cbn [input position tokens]. fold c.
    destruct (tokenizeString_loop_ok
                (length (input l) - S (position l)) c []
                (mk (input l) (S (position l)) (tokens l)) (le_n _))
      as (v & l' & -> & Hi & Ht & Hp).
    exists (mk (input l') (S (position l')) (tokens l' ++ [mkToken STRING v])),
      (mkToken STRING v).
    simpl in *. rewrite Ht. repeat split; auto; try lia.
    unfold produced; tauto.
  - left. unfold_m.
    exists (mk (input l) (S (position l))
               (tokens l ++ [mkToken SYMBOL (char_str c)])),
      (mkToken SYMBOL (char_str c)).
    simpl. repeat split; auto. unfold produced; tauto.
  - right. eexists. reflexivity.
Qed.

(** The counter of the main loop is large enough: the outcome does not
    depend on it once it covers the rest of the input. *)
Lemma tokenize_loop_fuel f1 : forall f2 l,
  length (input l) - position l <= f1 ->
  length (input l) - position l <= f2 ->
  tokenize_loop f1 l = tokenize_loop f2 l.
Proof.
  induction f1 as [|f1 IH]; intros f2 l H1 H2;
    destruct f2 as [|f2]; simpl;
    destruct (position l <? length (input l)) eqn:E; auto;
    apply Nat.ltb_lt in E; try lia.
  unfold bind.
  destruct (tokenize_step_cases l E)
    as [(l' & tok & -> & Hi & Hp & _)|(msg & ->)]; auto.
  apply IH; rewrite Hi; lia.
Qed.

Lemma tokenize_reaches l l' : reaches l l' -> tokenize l = tokenize l'.
Proof.
  induction 1 as [|l l' l'' Hlt Hstep _ IH]; auto.
  rewrite <- IH. unfold tokenize, bind, remaining.
  destruct (length (input l) - position l) as [|f] eqn:Ef; [lia|].
  simpl. apply Nat.ltb_lt in Hlt as Hb. rewrite Hb. unfold bind.
  rewrite Hstep.
  destruct (tokenize_step_cases l Hlt)
    as [(l1 & tok & H1 & Hi & Hp & _)|(msg & H1)];
    rewrite Hstep in H1; inversion H1; subst l1.
  apply tokenize_loop_fuel; rewrite Hi; lia.
Qed.

Lemma reaches_input l l' : reaches l l' -> input l' = input l.
Proof.
  induction 1 as [|l l' l'' Hlt Hstep _ IH]; auto.
  destruct (tokenize_step_cases l Hlt)
    as [(l1 & tok & H1 & Hi & _)|(msg & H1)];
    rewrite Hstep in H1; inversion H1; subst l1. congruence.
Qed.

(** The main loop ends, and returns tokens of the produced kinds only. *)
Lemma tokenize_loop_produced fuel : forall l,
  length (input l) - position l <= fuel ->
  Forall (fun tok => produced (type tok)) (tokens l) ->
  match tokenize_loop fuel l with
  | Ok (toks, _) => Forall (fun tok => produced (type tok)) toks
  | Throw _ => True
  | OutOfFuel => False
  end.
Proof.
  induction fuel as [|fuel IH]; intros l Hf Hall; simpl;
    destruct (position l <? length (input l)) eqn:E; auto;
    apply Nat.ltb_lt in E; try lia.
  unfold bind.
  destruct (tokenize_step_cases l E)
    as [(l' & tok & -> & Hi & Hp & Ht & Hty)|(msg & ->)]; auto.
  apply IH; [rewrite Hi; lia|].
  rewrite Ht. apply Forall_app. split; auto.
Qed.

Lemma includes_char (h : jsstring) (c : char) :
  includes h [c] = true <-> In c h.
Proof.
  induction h as [|y h IH]; simpl.
  - split; [discriminate | tauto].
  - rewrite andb_true_r, orb_true_iff, N.eqb_eq, IH.
    split; intros [H|H]; auto.
Qed.

Lemma tokenize_step_unrecognized l c :
  nth_error (input l) (position l) = Some c ->
  unrecognized c ->
  tokenize_step l = Throw (str "Unexpected character: " ++ [c]).
Proof.
  intros Hc (Hws & Hlt & Hq1 & Hq2 & Hsy).
  unfold tokenize_step, bind, peek. rewrite Hc, Hws, Hlt.
  assert (E1 : char_is (Some c) single_quote = false)
    by (apply N.eqb_neq; exact Hq1).
  assert (E2 : char_is (Some c) double_quote = false)
    by (apply N.eqb_neq; exact Hq2).
  rewrite E1, E2. simpl orb. cbv iota.
  change (char_str (Some c)) with [c].
  destruct (includes (str "{}[]:,<>") [c]) eqn:E; [|reflexivity].
  apply includes_char in E. contradiction.
Qed.

Lemma tokenize_step_unterminated l q :
  nth_error (input l) (position l) = Some q ->
  q = single_quote \/ q = double_quote ->
  ~ In q (skipn (S (position l)) (input l)) ->
  tokenize_step l
  = Ok (tt, mk (input l) (S (length (input l)))
               (tokens l
                ++ [mkToken STRING (skipn (S (position l)) (input l))])).
Proof.
  intros Hq Hquote Hno.
  assert (Hlt : position l < length (input l))
    by (apply nth_error_Some; congruence).
  unfold tokenize_step, bind, peek. rewrite Hq.
  assert (E : isWhitespace (Some q) = false /\ isLetter (Some q) = false
              /\ char_is (Some q) single_quote
                 || char_is (Some q) double_quote = true)
    by (destruct Hquote; subst q; repeat split; reflexivity).
  destruct E as (-> & -> & ->).
  unfold tokenizeString, bind, peek, advance, remaining, push.
  cbn [input position tokens]. rewrite Hq.
  rewrite (tokenizeString_loop_unterminated
             (length (input l) - S (position l)) q []
             (mk (input l) (S (position l)) (tokens l)));
    cbn [input position tokens]; auto; lia.
Qed.

(** An unrecognized character at the top of the loop makes [lex] throw. *)
Lemma lex_text_unrecognized text l c :
  reaches (new text) l ->
  nth_error text (position l) = Some c ->
  unrecognized c ->
  lex_text text = Throw (str "Unexpected character: " ++ [c]).
Proof.
  intros Hreach Hc Hun.
  assert (Hi : input l = text) by (apply (reaches_input _ _ Hreach)).
  assert (Hlt : position l < length (input l))
    by (rewrite Hi; apply nth_error_Some; congruence).
  unfold lex_text, lex. rewrite (tokenize_reaches _ _ Hreach).
  unfold tokenize, bind, remaining.
  destruct (length (input l) - position l) as [|fuel] eqn:Ef; [lia|].
  cbn [tokenize_loop]. apply Nat.ltb_lt in Hlt. rewrite Hlt.
  unfold bind. rewrite (tokenize_step_unrecognized l c); auto.
  rewrite Hi. exact Hc.
Qed.

(** Every digit is an unrecognized character. *)
Lemma digit_unrecognized c : isDigit (Some c) = true -> unrecognized c.
Proof.
  unfold isDigit, unrecognized, isWhitespace, isLetter.
  rewrite andb_true_iff, !N.leb_le. intros [H1 H2].
  repeat split;
    try (intros ->; vm_compute in H1, H2; intuition congruence).
  - repeat (apply orb_false_iff; split);
      try (apply andb_false_iff; rewrite !N.leb_gt; lia);
      apply N.eqb_neq; lia.
  - repeat (apply orb_false_iff; split);
      apply andb_false_iff; rewrite !N.leb_gt; lia.
  - simpl. intros H.
    repeat (destruct H as [H|H]; [subst c; vm_compute in H1, H2;
                                  intuition congruence|]).
    exact H.
Qed.

(** *** The loops of the lexer as list functions *)

Lemma state_eta l : mk (input l) (position l) (tokens l) = l.
Proof. destruct l; reflexivity. Qed.

Lemma tokenizeWhitespace_loop_exact fuel : forall value l,
  length (input l) - position l <= fuel ->
  tokenizeWhitespace_loop fuel value l
  = Ok (value ++ take_while is_space (skipn (position l) (input l)),
        mk (input l)
           (position l
            + length (take_while is_space (skipn (position l) (input l))))
           (tokens l)).
Proof.
  induction fuel as [|fuel IH]; intros value l Hf;
    cbn [tokenizeWhitespace_loop]; unfold bind at 1; unfold peek at 1;
    cbv beta iota;
    destruct (nth_error (input l) (position l)) as [c|] eqn:En.
  - assert (position l < length (input l))
      by (apply nth_error_Some; congruence). lia.
  - apply nth_error_None in En. rewrite (skipn_all2 _ En). simpl.
    rewrite app_nil_r, Nat.add_0_r, state_eta. reflexivity.
  - assert (position l < length (input l))
      by (apply nth_error_Some; congruence).
    rewrite (skipn_nth_error _ _ En). cbn [take_while].
    change (is_space c) with (isWhitespace (Some c)).
    destruct (isWhitespace (Some c)) eqn:E.
    + unfold bind, peek, advance. rewrite En.
      rewrite IH; cbn [input position tokens]; [|lia].
      change (char_str (Some c)) with [c]. rewrite <- app_assoc.
      cbn [app length]. rewrite Nat.add_succ_r. reflexivity.
    + simpl. rewrite app_nil_r, Nat.add_0_r, state_eta. reflexivity.
  - apply nth_error_None in En. rewrite (skipn_all2 _ En). simpl.
    rewrite app_nil_r, Nat.add_0_r, state_eta. reflexivity.
Qed.

Lemma tokenizeIdentifierOrKeyword_loop_exact fuel : forall value l,
  length (input l) - position l <= fuel ->
  tokenizeIdentifierOrKeyword_loop fuel value l
  = Ok (value ++ take_while is_ident (skipn (position l) (input l)),
        mk (input l)
           (position l
            + length (take_while is_ident (skipn (position l) (input l))))
           (tokens l)).
Proof.
  induction fuel as [|fuel IH]; intros value l Hf;
    cbn [tokenizeIdentifierOrKeyword_loop]; unfold bind at 1;
    unfold peek at 1; cbv beta iota;
    destruct (nth_error (input l) (position l)) as [c|] eqn:En.
  - assert (position l < length (input l))
      by (apply nth_error_Some; congruence). lia.
  - apply nth_error_None in En. rewrite (skipn_all2 _ En). simpl.
    rewrite app_nil_r, Nat.add_0_r, state_eta. reflexivity.
  - assert (position l < length (input l))
      by (apply nth_error_Some; congruence).
    rewrite (skipn_nth_error _ _ En). cbn [take_while].
    change (is_ident c) with (isIdentifierChar (Some c)).
    destruct (isIdentifierChar (Some c)) eqn:E.
    + unfold bind, peek, advance. rewrite En.
      rewrite IH; cbn [input position tokens]; [|lia].
      change (char_str (Some c)) with [c]. rewrite <- app_assoc.
      cbn [app length]. rewrite Nat.add_succ_r. reflexivity.
    + simpl. rewrite app_nil_r, Nat.add_0_r, state_eta. reflexivity.
  - apply nth_error_None in En. rewrite (skipn_all2 _ En). simpl.
    rewrite app_nil_r, Nat.add_0_r, state_eta. reflexivity.
Qed.

Lemma tokenizeString_loop_exact fuel : forall q string l,
  length (input l) - position l <= fuel ->
  tokenizeString_loop fuel (Some q) string l
  = Ok (string
        ++ take_while (fun u => negb (N.eqb u q))
             (skipn (position l) (input l)),
        mk (input l)
           (position l
            + length (take_while (fun u => negb (N.eqb u q))
                        (skipn (position l) (input l))))
           (tokens l)).
Proof.
  induction fuel as [|fuel IH]; intros q s l Hf;
    cbn [tokenizeString_loop]; unfold bind at 1; unfold peek at 1;
    cbv beta iota;
    destruct (nth_error (input l) (position l)) as [c|] eqn:En.
  - assert (position l < length (input l))
      by (apply nth_error_Some; congruence). lia.
  - apply nth_error_None in En. rewrite (skipn_all2 _ En).
    assert (E : (position l <? length (input l)) = false)
      by (apply Nat.ltb_ge; exact En).
    rewrite E, andb_false_r. simpl.
    rewrite app_nil_r, Nat.add_0_r, state_eta. reflexivity.
  - assert (Hlt : position l < length (input l))
      by (apply nth_error_Some; congruence).
    rewrite (skipn_nth_error _ _ En). cbn [take_while opt_char_eqb].
    apply Nat.ltb_lt in Hlt as Hb. rewrite Hb, andb_true_r.
    destruct (negb (c =? q)%N) eqn:E.
    + unfold bind, peek, advance. rewrite En.
      rewrite IH; cbn [input position tokens]; [|lia].
      change (char_str (Some c)) with [c]. rewrite <- app_assoc.
      cbn [app length]. rewrite Nat.add_succ_r. reflexivity.
    + simpl. rewrite app_nil_r, Nat.add_0_r, state_eta. reflexivity.
  - apply nth_error_None in En. rewrite (skipn_all2 _ En).
    assert (E : (position l <? length (input l)) = false)
      by (apply Nat.ltb_ge; exact En).
    rewrite E, andb_false_r. simpl.
    rewrite app_nil_r, Nat.add_0_r, state_eta. reflexivity.
Qed.

Lemma includes_is_symbol c : includes (str "{}[]:,<>") [c] = is_symbol c.
Proof.
  unfold is_symbol. generalize (str "{}[]:,<>").
  induction j as [|y h IH]; simpl; auto.
  rewrite andb_true_r, IH. reflexivity.
Qed.

(** One iteration of the loop of [tokenize] appends the next token of the
    remaining characters, or throws at an unrecognized character. *)
Lemma tokenize_step_next l c :
  nth_error (input l) (position l) = Some c ->
  tokenize_step l
  = match next_token (skipn (position l) (input l)) with
    | Some (tok, n) =>
        Ok (tt, mk (input l) (position l + n) (tokens l ++ [tok]))
    | None => Throw (str "Unexpected character: " ++ [c])
    end.
Proof.
  intros En. rewrite (skipn_nth_error _ _ En).
  unfold tokenize_step, next_token. unfold bind at 1. unfold peek at 1.
  rewrite En. cbv beta iota.
  change (is_space c) with (isWhitespace (Some c)).
  destruct (isWhitespace (Some c)) eqn:Ews.
  { unfold tokenizeWhitespace, bind, remaining, push.
    rewrite tokenizeWhitespace_loop_exact; auto.
    rewrite (skipn_nth_error _ _ En). reflexivity. }
  destruct (isLetter (Some c)) eqn:Elt.
  { unfold tokenizeIdentifierOrKeyword, bind, remaining.
    rewrite tokenizeIdentifierOrKeyword_loop_exact; auto.
    rewrite (skipn_nth_error _ _ En). cbn [app].
    unfold word_token.
    destruct (existsb _ keywords); reflexivity. }
  change (char_is (Some c) single_quote || char_is (Some c) double_quote)
    with (is_quote c).
  destruct (is_quote c) eqn:Eq.
  { unfold tokenizeString, bind, peek, advance, remaining, push.
    cbn [input position tokens]. rewrite En.
    rewrite tokenizeString_loop_exact; cbn [input position tokens]; auto.
    cbn [app]. repeat f_equal. lia. }
  change (char_str (Some c)) with [c]. rewrite includes_is_symbol.
  destruct (is_symbol c) eqn:Esy; [|reflexivity].
  unfold bind, push, advance. cbn [input position tokens].
  rewrite Nat.add_1_r. reflexivity.
Qed.

Lemma take_while_all test xs :
  Forall (fun u => test u = true) (take_while test xs).
Proof.
  induction xs as [|c xs IH]; simpl; [constructor|].
  destruct (test c) eqn:E; constructor; auto.
Qed.

Lemma take_while_prefix test xs :
  firstn (length (take_while test xs)) xs = take_while test xs.
Proof.
  induction xs as [|c xs IH]; simpl; auto.
  destruct (test c); simpl; [rewrite IH|]; reflexivity.
Qed.

Lemma take_while_length test xs : length (take_while test xs) <= length xs.
Proof.
  induction xs as [|c xs IH]; simpl; auto.
  destruct (test c); simpl; lia.
Qed.

(** A scanning loop stops at the end or at a character that fails its
    test. *)
Lemma take_while_stop test xs u :
  hd_error (skipn (length (take_while test xs)) xs) = Some u ->
  test u = false.
Proof.
  induction xs as [|c xs IH]; simpl; [discriminate|].
  destruct (test c) eqn:E; simpl; auto. intros H. congruence.
Qed.

Lemma take_while_until test body stop post :
  Forall (fun u => test u = true) body -> test stop = false ->
  take_while test (body ++ stop :: post) = body.
Proof.
  intros Hb Hs. induction Hb as [|c body Hc _ IH]; simpl.
  - rewrite Hs. reflexivity.
  - rewrite Hc, IH. reflexivity.
Qed.

Lemma firstn_plus {A} (xs : list A) p n :
  firstn (p + n) xs = firstn p xs ++ firstn n (skipn p xs).
Proof.
  revert xs; induction p as [|p IH]; intros [|x xs]; simpl; auto.
  - destruct n; reflexivity.
  - rewrite IH. reflexivity.
Qed.

Lemma letter_is_ident c : isLetter (Some c) = true -> is_ident c = true.
Proof. unfold is_ident, isIdentifierChar. intros ->. reflexivity. Qed.

(** The next token is well formed and moves the cursor. *)
Lemma next_token_well_formed rest tok n :
  next_token rest = Some (tok, n) -> well_formed tok /\ 1 <= n.
Proof.
  destruct rest as [|c rest]; [discriminate|]. unfold next_token.
  destruct (is_space c) eqn:Ews.
  { intros H; inversion H; subst. cbn [take_while]. rewrite Ews.
    split; [|simpl; lia]. unfold well_formed. cbn [type value]. split.
    - discriminate.
    - pose proof (take_while_all is_space (c :: rest)) as Hall.
      cbn [take_while] in Hall. rewrite Ews in Hall. exact Hall. }
  destruct (isLetter (Some c)) eqn:Elt.
  { intros H; inversion H; subst. cbn [take_while].
    rewrite (letter_is_ident c Elt). split; [|simpl; lia].
    assert (Hw : word (c :: take_while is_ident rest))
      by (split; [exact Elt | apply take_while_all]).
    unfold word_token.
    destruct (existsb (str_eqb (c :: take_while is_ident rest)) keywords)
      eqn:Ek; unfold well_formed; cbn [type value]; split; auto.
    - apply existsb_exists in Ek as [k [Hin Hk]].
      apply str_eqb_eq in Hk. rewrite Hk. exact Hin.
    - intros Hin.
      assert (existsb (str_eqb (c :: take_while is_ident rest)) keywords
              = true)
        by (apply existsb_exists; eexists; split;
            [exact Hin | apply str_eqb_refl]).
      congruence. }
  destruct (is_quote c) eqn:Eq.
  { intros H; inversion H; subst. split; [exact I | lia]. }
  destruct (is_symbol c) eqn:Esy; [|discriminate].
  intros H; inversion H; subst. split; [|lia].
  unfold well_formed. cbn [type value]. exists c. split; auto.
  unfold is_symbol in Esy. apply existsb_exists in Esy as [k [Hin Hk]].
  apply N.eqb_eq in Hk. subst k. exact Hin.
Qed.

Lemma next_token_none c rest :
  next_token (c :: rest) = None -> unrecognized c.
Proof.
  unfold next_token.
  destruct (is_space c) eqn:Ews; [discriminate|].
  destruct (isLetter (Some c)) eqn:Elt; [discriminate|].
  destruct (is_quote c) eqn:Eq; [discriminate|].
  destruct (is_symbol c) eqn:Esy; [discriminate|]. intros _.
  unfold is_quote in Eq. apply orb_false_iff in Eq as [E1 E2].
  apply N.eqb_neq in E1, E2.
  repeat split; auto.
  intros Hin.
  assert (is_symbol c = true)
    by (apply existsb_exists; exists c; split;
        [exact Hin | apply N.eqb_refl]).
  congruence.
Qed.

(** An invariant of the iterations holds at the end of the loop of
    [tokenize]; the loop ends with the cursor at or past the end and
    returns the tokens of the final state. *)
Lemma tokenize_loop_invariant (I : t -> Prop) :
  (forall l l', position l < length (input l) -> I l ->
                tokenize_step l = Ok (tt, l') -> I l') ->
  forall fuel l toks l',
    I l -> tokenize_loop fuel l = Ok (toks, l') ->
    I l' /\ toks = tokens l' /\ length (input l') <= position l'.
Proof.
  intros Hstep. induction fuel as [|fuel IH]; intros l toks l' HI;
    cbn [tokenize_loop];
    destruct (position l <? length (input l)) eqn:E;
    try discriminate;
    try (apply Nat.ltb_ge in E; intros H; inversion H; subst; auto).
  apply Nat.ltb_lt in E. unfold bind.
  destruct (tokenize_step l) as [[[] l1]| |] eqn:Es; try discriminate.
  apply IH. apply (Hstep l l1); auto.
Qed.

Lemma lex_text_invariant (I : t -> Prop) text toks :
  (forall l l', position l < length (input l) -> I l ->
                tokenize_step l = Ok (tt, l') -> I l') ->
  I (new text) ->
  lex_text text = Ok toks ->
  exists l', I l' /\ toks = tokens l' /\ length (input l') <= position l'.
Proof.
  intros Hstep H0 Hlex. unfold lex_text, lex, tokenize, bind, remaining in Hlex.
  destruct (tokenize_loop (length (input (new text)) - position (new text))
              (new text)) as [[toks' l']| |] eqn:E; try discriminate.
  simpl in Hlex. inversion Hlex; subst toks'.
  exists l'. apply (tokenize_loop_invariant I Hstep _ _ _ _ H0 E).
Qed.

(** A step that succeeds is the step of [next_token]. *)
Lemma tokenize_step_ok l l' :
  position l < length (input l) ->
  tokenize_step l = Ok (tt, l') ->
  exists c rest tok n,
    skipn (position l) (input l) = c :: rest
    /\ next_token (c :: rest) = Some (tok, n)
    /\ l' = mk (input l) (position l + n) (tokens l ++ [tok]).
Proof.
  intros Hlt Hs.
  destruct (nth_error (input l) (position l)) as [c|] eqn:En;
    [|apply nth_error_None in En; lia].
  rewrite (tokenize_step_next l c En) in Hs.
  pose proof (skipn_nth_error _ _ En) as Hsk.
  exists c, (skipn (S (position l)) (input l)).
  rewrite Hsk in Hs.
  destruct (next_token (c :: skipn (S (position l)) (input l)))
    as [[tok n]|]; [|discriminate].
  exists tok, n. inversion Hs. auto.
Qed.

(** The loop of [tokenize] returns tokens, or throws at an unrecognized
    character of the input. *)
Lemma tokenize_loop_outcome fuel : forall l,
  length (input l) - position l <= fuel ->
  (exists toks l', tokenize_loop fuel l = Ok (toks, l'))
  \/ (exists c, In c (input l) /\ unrecognized c
                /\ tokenize_loop fuel l
                   = Throw (str "Unexpected character: " ++ [c])).
Proof.
  induction fuel as [|fuel IH]; intros l Hf; cbn [tokenize_loop];
    destruct (position l <? length (input l)) eqn:E;
    try (left; eexists; eexists; reflexivity);
    apply Nat.ltb_lt in E; [lia|].
  destruct (nth_error (input l) (position l)) as [c|] eqn:En;
    [|apply nth_error_None in En; lia].
  unfold bind. rewrite (tokenize_step_next l c En).
  rewrite (skipn_nth_error _ _ En).
  destruct (next_token (c :: skipn (S (position l)) (input l)))
    as [[tok n]|] eqn:Enext.
  - apply next_token_well_formed in Enext as [_ Hn].
    destruct (IH (mk (input l) (position l + n) (tokens l ++ [tok])))
      as [Hok|(c' & Hin & Hun & Hthrow)]; cbn [input position]; [lia| |].
    + left. exact Hok.
    + right. exists c'. auto.
  - right. exists c. repeat split; try (eapply next_token_none; eauto);
      try reflexivity.
    eapply nth_error_In; eauto.
Qed.

(** What the first character says about the next token, and what the
    next token says about the character after it. *)
Lemma next_token_boundary c rest tok n :
  next_token (c :: rest) = Some (tok, n) ->
  (type tok = WHITESPACE ->
   is_space c = true
   /\ forall u, hd_error (skipn n (c :: rest)) = Some u ->
                is_space u = false)
  /\ (is_word_kind (type tok) = true ->
      is_ident c = true
      /\ forall u, hd_error (skipn n (c :: rest)) = Some u ->
                   is_ident u = false).
Proof.
  unfold next_token.
  destruct (is_space c) eqn:Ews.
  { intros [= <- <-]. cbn [type]. split; [|discriminate].
    intros _. split; auto. intros u.
    exact (take_while_stop is_space (c :: rest) u). }
  destruct (isLetter (Some c)) eqn:Elt.
  { intros [= <- <-].
    set (w := word_token (take_while is_ident (c :: rest))).
    assert (Hty : is_word_kind (type w) = true)
      by (unfold w, word_token; destruct (existsb _ keywords); reflexivity).
    split.
    - intros Hws. change (type w = WHITESPACE) in Hws.
      rewrite Hws in Hty. discriminate.
    - intros _. split; [apply letter_is_ident; exact Elt|].
      intros u. exact (take_while_stop is_ident (c :: rest) u). }
  destruct (is_quote c); [intros H; inversion H; subst; cbn [type];
                          split; discriminate|].
  destruct (is_symbol c); [|discriminate].
  intros H; inversion H; subst; cbn [type]. split; discriminate.
Qed.

Lemma no_glued_nil : no_glued [].
Proof. intros [|x pre] a b post H; discriminate. Qed.

Lemma no_glued_snoc toks tok :
  no_glued toks ->
  (forall pre a, toks = pre ++ [a] -> ~ glued a tok) ->
  no_glued (toks ++ [tok]).
Proof.
  intros Hng Hlast pre a b post Heq.
  induction post as [|w ps _] using rev_ind.
  - assert (Hl : toks ++ [tok] = (pre ++ [a]) ++ [b])
      by (rewrite Heq, <- app_assoc; reflexivity).
    apply app_inj_tail in Hl as [Htoks <-]. apply (Hlast pre a Htoks).
  - assert (Hl : toks ++ [tok] = (pre ++ a :: b :: ps) ++ [w])
      by (rewrite Heq, <- app_assoc; reflexivity).
    apply app_inj_tail in Hl as [Htoks _]. apply (Hng pre a b ps Htoks).
Qed.

(** [lex] ends on every input, with tokens or with an error. *)
Lemma lex_text_terminates text : lex_text text <> OutOfFuel.
Proof.
  assert (H := tokenize_loop_produced (length text) (new text)
                 ltac:(simpl; lia) ltac:(constructor)).
  unfold lex_text, lex, tokenize, bind, remaining.
  change (length (input (new text)) - position (new text))
    with (length text - 0).
  rewrite Nat.sub_0_r.
  destruct (tokenize_loop (length text) (new text)) as [[toks l']| |];
    simpl; [discriminate | discriminate | contradiction].
Qed.

(** Every token that [lex] returns is well formed. *)
Lemma lex_text_well_formed text toks :
  lex_text text = Ok toks -> Forall well_formed toks.
Proof.
  intros Hlex.
  destruct (lex_text_invariant (fun l => Forall well_formed (tokens l))
              text toks) as (l' & HI & -> & _);
    [ | constructor | exact Hlex | exact HI ].
  intros l l1 Hlt HI Hs.
  destruct (tokenize_step_ok l l1 Hlt Hs) as (c & rest & tok & n & _ & Hn & ->).
  cbn [tokens]. apply Forall_app. split; auto.
  constructor; [|constructor]. apply (next_token_well_formed _ _ _ Hn).
Qed.

Lemma take_while_id test xs :
  Forall (fun u => test u = true) xs -> take_while test xs = xs.
Proof.
  induction 1 as [|c xs Hc _ IH]; [reflexivity|].
  cbn [take_while]. rewrite Hc, IH. reflexivity.
Qed.

(** A text of whitespace only is one WHITESPACE token. *)
Lemma lex_text_blank c text :
  Forall (fun u => is_space u = true) (c :: text) ->
  lex_text (c :: text) = Ok [mkToken WHITESPACE (c :: text)].
Proof.
  intros Hall. pose proof (take_while_id is_space (c :: text) Hall) as Htw.
  inversion Hall as [|? ? Hc _]; subst.
  unfold lex_text, lex, tokenize, bind at 1, remaining.
  cbn [input position new length Nat.sub]. cbn [tokenize_loop].
  cbn [input position new length Nat.ltb Nat.leb]. unfold bind at 1.
  rewrite (tokenize_step_next (new (c :: text)) c eq_refl).
  cbn [input position new skipn]. unfold next_token.
  rewrite Hc. cbv zeta. rewrite Htw.
  cbn [Nat.add tokens app].
  destruct (length text) eqn:El; cbn [tokenize_loop input position];
    cbn [length]; rewrite El, Nat.ltb_irrefl; reflexivity.
Qed.

End LexerFacts.

(** ** The parser *)

Module ParserFacts.
Import Parser ParserSpec.

Arguments rest : simpl never.
Arguments skip : simpl never.
#[local] Arguments str : simpl never.
Arguments peek : simpl never.
Arguments advance : simpl never.
Arguments more : simpl never.
Arguments remaining : simpl never.

Lemma skip_0 p : skip 0 p = p.
Proof. destruct p; reflexivity. Qed.

Lemma skip_skip a b p : skip a (skip b p) = skip (a + b) p.
Proof. unfold skip; simpl. f_equal. lia. Qed.

Lemma rest_skip k p : rest (skip k p) = skipn k (rest p).
Proof. unfold rest, skip; simpl. symmetry. apply skipn_skipn. Qed.

Lemma skipn_app_length {A} (a b : list A) : skipn (length a) (a ++ b) = b.
Proof. induction a; simpl; auto. Qed.

Lemma rest_skip_app p a b :
  rest p = a ++ b -> rest (skip (length a) p) = b.
Proof. intros H. rewrite rest_skip, H. apply skipn_app_length. Qed.

Lemma rest_new toks : rest (new toks) = toks.
Proof. reflexivity. Qed.

Lemma peek_rest p : peek p = Ok (hd_error (rest p), p).
Proof. unfold peek, rest. rewrite hd_error_skipn. reflexivity. Qed.

Lemma advance_rest p : advance p = Ok (hd_error (rest p), skip 1 p).
Proof. unfold advance, rest. rewrite hd_error_skipn. reflexivity. Qed.

Lemma remaining_rest p : remaining p = Ok (length (rest p), p).
Proof. unfold remaining, rest. rewrite length_skipn. reflexivity. Qed.

Lemma more_rest p : more p = Ok (defined (hd_error (rest p)), p).
Proof.
  unfold more. f_equal. f_equal.
  pose proof (length_skipn (position p) (tokens p)) as H. fold (rest p) in H.
  destruct (rest p); simpl in *.
  - apply Nat.ltb_ge. lia.
  - apply Nat.ltb_lt. lia.
Qed.

Ltac step_m :=
  repeat first
    [ rewrite peek_rest | rewrite advance_rest | rewrite remaining_rest
    | rewrite more_rest | progress (unfold bind, ret; cbv beta iota) ].

Lemma skipWhitespace_loop_spec ws : forall fuel p r,
  rest p = ws ++ r ->
  Forall is_ws ws ->
  starts_significant r ->
  length ws <= fuel ->
  skipWhitespace_loop fuel p = Ok (tt, skip (length ws) p).
Proof.
  induction ws as [|w ws IH]; intros fuel p r Hr Hws Hsig Hf.
  - simpl in Hr. rewrite skip_0.
    assert (E : defined (hd_error (rest p))
                && type_is (hd_error (rest p)) WHITESPACE = false).
    { rewrite Hr. destruct r as [|tok r]; simpl in *; auto.
      destruct (TokenType_eqb (type tok) WHITESPACE) eqn:E; auto.
      apply TokenType_eqb_eq in E. contradiction. }
    destruct fuel; cbn [skipWhitespace_loop]; step_m; rewrite E;
      reflexivity.
  - inversion Hws as [|? ? Hw Hws']; subst.
    destruct fuel as [|fuel]; [simpl in Hf; lia|].
    cbn [skipWhitespace_loop]. step_m. rewrite Hr. cbn. rewrite Hw.
    cbn. step_m. rewrite (IH fuel (skip 1 p) r); auto.
    + rewrite skip_skip, Nat.add_1_r. reflexivity.
    + change 1 with (length [w]). apply rest_skip_app. exact Hr.
    + simpl in Hf. lia.
Qed.

Lemma skipWhitespace_spec p ws r :
  rest p = ws ++ r ->
  Forall is_ws ws ->
  starts_significant r ->
  skipWhitespace p = Ok (tt, skip (length ws) p).
Proof.
  intros Hr Hws Hsig. unfold skipWhitespace. step_m.
  apply skipWhitespace_loop_spec with (r := r); auto.
  rewrite Hr, length_app. lia.
Qed.

Lemma expect_test type_ value_ tok :
  negb (TokenType_eqb (type tok) type_)
  || (truthy value_ && negb (str_eqb (value tok) (to_str value_))) = false
  <-> expect_accepts type_ value_ tok.
Proof.
  unfold expect_accepts.
  rewrite orb_false_iff, negb_false_iff, TokenType_eqb_eq.
  split; intros [Hty Hv]; split; auto.
  - intros literal -> Hne. destruct literal as [|c literal]; [congruence|].
    simpl in Hv. apply negb_false_iff in Hv. apply str_eqb_eq in Hv. auto.
  - destruct value_ as [[|c literal]|]; simpl; auto.
    apply negb_false_iff, str_eqb_eq, Hv; congruence.
Qed.

Lemma expect_ok p ws tok r type_ value_ :
  rest p = ws ++ tok :: r ->
  Forall is_ws ws ->
  type tok <> WHITESPACE ->
  expect_accepts type_ value_ tok ->
  expect type_ value_ p = Ok (tok, skip (S (length ws)) p).
Proof.
  intros Hr Hws Hsig Hacc. unfold expect. step_m.
  rewrite (skipWhitespace_spec p ws (tok :: r)); auto.
  step_m. rewrite (rest_skip_app p ws (tok :: r) Hr). cbn.
  apply expect_test in Hacc. rewrite Hacc.
  rewrite skip_skip. reflexivity.
Qed.

Lemma expect_reject p ws tok r type_ value_ :
  rest p = ws ++ tok :: r ->
  Forall is_ws ws ->
  type tok <> WHITESPACE ->
  ~ expect_accepts type_ value_ tok ->
  expect type_ value_ p = Throw (expect_msg type_ value_ (Some tok)).
Proof.
  intros Hr Hws Hsig Hacc. unfold expect. step_m.
  rewrite (skipWhitespace_spec p ws (tok :: r)); auto.
  step_m. rewrite (rest_skip_app p ws (tok :: r) Hr). cbn.
  rewrite <- expect_test in Hacc.
  destruct (negb (TokenType_eqb (type tok) type_)
            || (truthy value_ && negb (str_eqb (value tok) (to_str value_))));
    [reflexivity | congruence].
Qed.

Lemma expect_end p ws type_ value_ :
  rest p = ws ->
  Forall is_ws ws ->
  expect type_ value_ p = Throw (expect_msg type_ value_ None).
Proof.
  intros Hr Hws. unfold expect. step_m.
  rewrite (skipWhitespace_spec p ws []); auto;
    [|rewrite app_nil_r; auto|exact I].
  step_m. rewrite rest_skip, Hr, skipn_all. reflexivity.
Qed.

Lemma expect_accepts_exact type_ literal :
  expect_accepts type_ (Some literal) (mkToken type_ literal).
Proof. split; simpl; auto. intros l H _. congruence. Qed.

Lemma expect_accepts_any type_ tok :
  type tok = type_ -> expect_accepts type_ None tok.
Proof. split; auto. discriminate. Qed.

Lemma skip_eq a b p : a = b -> skip a p = skip b p.
Proof. intros ->; reflexivity. Qed.

Lemma rest_skip_eq p k pre l :
  rest p = pre ++ l -> k = length pre -> rest (skip k p) = l.
Proof. intros H ->. apply rest_skip_app. exact H. Qed.

(** Solves [rest (skip k p) = l] from [Hr : rest p = ...], given the
    tokens [pre] that the [k] steps went over. *)
Ltac rest_tac Hr pre :=
  apply rest_skip_eq with pre;
  [ rewrite Hr; repeat first [rewrite <- app_assoc | progress cbn [app]];
    reflexivity
  | repeat first [rewrite length_app | progress cbn [length]]; lia ].

(** Evaluates the comparisons of two string literals in the goal. *)
Ltac str_eval :=
  repeat match goal with
  | |- context [str_eqb (str ?a) (str ?b)] =>
      let v := eval vm_compute in (str_eqb (str a) (str b)) in
      change (str_eqb (str a) (str b)) with v
  end.

Ltac skip_tac :=
  rewrite ?skip_skip;
  match goal with
  | |- Ok (_, skip ?a ?p) = Ok (_, skip ?b ?p) =>
      replace a with b
        by (repeat first [rewrite length_app | progress cbn [length]]; lia);
      reflexivity
  end.

Lemma parseConstraints_loop_spec n : forall body fuel constraints p close r,
  length body <= n ->
  rest p = body ++ close :: r ->
  Forall not_closing body ->
  value close = str "]" ->
  length body <= fuel ->
  parseConstraints_loop fuel constraints p
  = Ok (constraints ++ constraint_entries body, skip (length body) p).
Proof.
  induction n as [|n IH]; intros body fuel cs p close r Hn Hr Hbody Hclose Hf.
  - destruct body; [|simpl in Hn; lia]. simpl in Hr.
    rewrite skip_0, app_nil_r.
    destruct fuel; cbn [parseConstraints_loop]; step_m; rewrite Hr; cbn;
      rewrite Hclose; reflexivity.
  - destruct body as [|tk body].
    { simpl in Hr. rewrite skip_0, app_nil_r.
      destruct fuel; cbn [parseConstraints_loop]; step_m; rewrite Hr; cbn;
        rewrite Hclose; reflexivity. }
    inversion Hbody as [|? ? Htk Hbody']; subst.
    destruct fuel as [|fuel]; [simpl in Hf; lia|].
    cbn [parseConstraints_loop]. step_m. rewrite Hr. cbn.
    apply str_eqb_neq in Htk. rewrite Htk. cbn. step_m. rewrite Hr. cbn.
    step_m.
    assert (Hr1 : rest (skip 1 p) = body ++ close :: r)
      by (rest_tac Hr [tk]).
    rewrite Hr1.
    destruct body as [|sep body]; cbn.
    + rewrite Hclose. str_eval. cbn.
      rewrite (IH [] fuel (cs ++ [value tk]) (skip 1 p) close r);
        simpl; auto; try lia.
      rewrite skip_0, app_nil_r. reflexivity.
    + destruct (str_eqb (value sep) (str ",")) eqn:Esep; cbn; step_m.
      * inversion Hbody'; subst.
        rewrite (IH body fuel (cs ++ [value tk]) (skip 1 (skip 1 p)) close r);
          simpl in *; auto; try lia.
        -- rewrite <- app_assoc. skip_tac.
        -- rest_tac Hr1 [sep].
      * rewrite (IH (sep :: body) fuel (cs ++ [value tk]) (skip 1 p) close r);
          simpl in *; auto; try lia.
        rewrite ?Esep, <- app_assoc. skip_tac.
Qed.

Lemma parseConstraints_spec p ws body r constraints :
  rest p = ws ++ lbracket :: body ++ rbracket :: r ->
  Forall is_ws ws ->
  Forall not_closing body ->
  parseConstraints constraints p
  = Ok (constraints ++ constraint_entries body,
        skip (length ws + length body + 2) p).
Proof.
  intros Hr Hws Hbody. unfold parseConstraints. step_m.
  rewrite (expect_ok p ws lbracket (body ++ rbracket :: r));
    auto using expect_accepts_exact; [|discriminate].
  assert (Hr1 : rest (skip (S (length ws)) p) = body ++ rbracket :: r)
    by (rest_tac Hr (ws ++ [lbracket])).
  step_m.
  rewrite (parseConstraints_loop_spec (length body) body _ constraints
             _ rbracket r); auto;
    [|rewrite Hr1, length_app; lia].
  step_m.
  rewrite (expect_ok _ [] rbracket r);
    auto using expect_accepts_exact; [|rest_tac Hr1 body|discriminate].
  cbn. unfold ret. skip_tac.
Qed.

Lemma parseNote_spec p ws1 ws2 ws3 text r :
  rest p = ws1 ++ kw "Note" :: ws2 ++ colon :: ws3
           ++ mkToken STRING text :: r ->
  Forall is_ws ws1 -> Forall is_ws ws2 -> Forall is_ws ws3 ->
  parseNote p
  = Ok (text, skip (length ws1 + length ws2 + length ws3 + 3) p).
Proof.
  intros Hr H1 H2 H3. unfold parseNote. step_m.
  rewrite (skipWhitespace_spec p ws1 _ Hr H1); [|discriminate].
  assert (Hr1 : rest (skip (length ws1) p)
                = [] ++ kw "Note" :: ws2 ++ colon :: ws3
                  ++ mkToken STRING text :: r)
    by (rest_tac Hr ws1).
  step_m.
  rewrite (expect_ok _ _ _ _ KEYWORD (Some (str "Note")) Hr1);
    auto using expect_accepts_exact; [|discriminate].
  cbn [length].
  assert (Hr2 : rest (skip 1 (skip (length ws1) p))
                = ws2 ++ colon :: ws3 ++ mkToken STRING text :: r)
    by (rest_tac Hr1 [kw "Note"]).
  step_m.
  rewrite (expect_ok _ _ _ _ SYMBOL (Some (str ":")) Hr2);
    auto using expect_accepts_exact; [|discriminate].
  assert (Hr3 : rest (skip (S (length ws2))
                        (skip 1 (skip (length ws1) p)))
                = ws3 ++ mkToken STRING text :: r)
    by (rest_tac Hr2 (ws2 ++ [colon])).
  step_m.
  rewrite (expect_ok _ _ _ _ STRING None Hr3);
    auto using expect_accepts_any; [|discriminate].
  step_m. cbn. skip_tac.
Qed.

Lemma parseColumn_plain p ws1 name ws2 dataType r :
  rest p = ws1 ++ mkToken IDENTIFIER name :: ws2
           ++ mkToken KEYWORD dataType :: r ->
  Forall is_ws ws1 -> Forall is_ws ws2 ->
  column_ends r ->
  parseColumn p
  = Ok (ColumnNode.mk name dataType [] None,
        skip (length ws1 + length ws2 + 2) p).
Proof.
  intros Hr H1 H2 [Hb Hn]. unfold parseColumn. step_m.
  rewrite (skipWhitespace_spec p ws1 _ Hr H1); [|discriminate].
  assert (Hr1 : rest (skip (length ws1) p)
                = [] ++ mkToken IDENTIFIER name :: ws2
                  ++ mkToken KEYWORD dataType :: r)
    by (rest_tac Hr ws1).
  step_m.
  rewrite (expect_ok _ _ _ _ IDENTIFIER None Hr1);
    auto using expect_accepts_any; [|discriminate].
  cbn [length].
  assert (Hr2 : rest (skip 1 (skip (length ws1) p))
                = ws2 ++ mkToken KEYWORD dataType :: r)
    by (rest_tac Hr1 [mkToken IDENTIFIER name]).
  step_m.
  rewrite (expect_ok _ _ _ _ KEYWORD None Hr2);
    auto using expect_accepts_any; [|discriminate].
  assert (Hr3 : rest (skip (S (length ws2))
                        (skip 1 (skip (length ws1) p))) = r)
    by (rest_tac Hr2 (ws2 ++ [mkToken KEYWORD dataType])).
  step_m. rewrite Hr3, Hb. step_m. rewrite Hr3.
  unfold no_inline_note in Hn. rewrite Hn. step_m. cbn. skip_tac.
Qed.

Lemma parseColumn_list p ws1 name ws2 dataType body r :
  rest p = ws1 ++ mkToken IDENTIFIER name :: ws2
           ++ mkToken KEYWORD dataType :: lbracket :: body
           ++ rbracket :: r ->
  Forall is_ws ws1 -> Forall is_ws ws2 ->
  Forall not_closing body ->
  no_inline_note r ->
  parseColumn p
  = Ok (ColumnNode.mk name dataType (constraint_entries body) None,
        skip (length ws1 + length ws2 + length body + 4) p).
Proof.
  intros Hr H1 H2 Hbody Hn. unfold parseColumn. step_m.
  rewrite (skipWhitespace_spec p ws1 _ Hr H1); [|discriminate].
  assert (Hr1 : rest (skip (length ws1) p)
                = [] ++ mkToken IDENTIFIER name :: ws2
                  ++ mkToken KEYWORD dataType :: lbracket :: body
                  ++ rbracket :: r)
    by (rest_tac Hr ws1).
  step_m.
  rewrite (expect_ok _ _ _ _ IDENTIFIER None Hr1);
    auto using expect_accepts_any; [|discriminate].
  cbn [length].
  assert (Hr2 : rest (skip 1 (skip (length ws1) p))
                = ws2 ++ mkToken KEYWORD dataType :: lbracket :: body
                  ++ rbracket :: r)
    by (rest_tac Hr1 [mkToken IDENTIFIER name]).
  step_m.
  rewrite (expect_ok _ _ _ _ KEYWORD None Hr2);
    auto using expect_accepts_any; [|discriminate].
  assert (Hr3 : rest (skip (S (length ws2))
                        (skip 1 (skip (length ws1) p)))
                = [] ++ lbracket :: body ++ rbracket :: r)
    by (rest_tac Hr2 (ws2 ++ [mkToken KEYWORD dataType])).
  step_m. rewrite Hr3. cbn [app hd_error value_is lbracket value].
  rewrite str_eqb_refl.
  rewrite (parseConstraints_spec _ [] body r [] Hr3); auto.
  assert (Hr4 : rest (skip (length (@nil Token) + length body + 2)
                        (skip (S (length ws2))
                           (skip 1 (skip (length ws1) p)))) = r)
    by (rest_tac Hr3 (lbracket :: body ++ [rbracket])).
  step_m. rewrite Hr4.
  unfold no_inline_note in Hn. rewrite Hn. step_m. cbn. skip_tac.
Qed.

(** *** The members of a table body that [parseTable] goes through *)

Lemma gap_is_ws ws : Forall gap ws -> Forall is_ws ws.
Proof. apply Forall_impl. intros tok [H _]. exact H. Qed.

Lemma loop_enters ws1 tok l :
  Forall gap ws1 -> (ws1 = [] -> value tok <> str "}") ->
  defined (hd_error (ws1 ++ tok :: l))
  && negb (value_is (hd_error (ws1 ++ tok :: l)) "}") = true.
Proof.
  intros Hws Htok. destruct ws1 as [|w ws1]; cbn.
  - specialize (Htok eq_refl).
    apply str_eqb_neq in Htok. rewrite Htok. reflexivity.
  - inversion Hws as [|? ? [_ Hw] _]; subst.
    apply str_eqb_neq in Hw. rewrite Hw. reflexivity.
Qed.

(** One iteration of the loop of [parseTable], up to the choice of the
    branch, which is made on the first token [tok] after the
    whitespace. *)
Lemma parseTable_loop_enter fuel columns note constraints p ws1 tok l :
  rest p = ws1 ++ tok :: l ->
  Forall gap ws1 -> (ws1 = [] -> value tok <> str "}") ->
  type tok <> WHITESPACE ->
  parseTable_loop (S fuel) columns note constraints p
  = (if type_is (Some tok) IDENTIFIER then
       column <- parseColumn ;;
       parseTable_loop fuel (columns ++ [column]) note constraints
     else if type_is (Some tok) KEYWORD && value_is (Some tok) "Note" then
       note <- parseNote ;;
       parseTable_loop fuel columns (Some note) constraints
     else if type_is (Some tok) SYMBOL && value_is (Some tok) "[" then
       constraints <- parseConstraints constraints ;;
       parseTable_loop fuel columns note constraints
     else if value_is (Some tok) "}" then ret (columns, note, constraints)
     else throw (unexpected_msg (Some tok))) (skip (length ws1) p)
    /\ rest (skip (length ws1) p) = [] ++ tok :: l.
Proof.
  intros Hr Hws Htok Hty. split; [|rest_tac Hr ws1].
  cbn [parseTable_loop]. step_m. rewrite Hr, loop_enters; auto.
  rewrite (skipWhitespace_spec p ws1 _ Hr); auto using gap_is_ws.
  step_m. rewrite (rest_skip_app p ws1 _ Hr). reflexivity.
Qed.

Lemma value_kw_Note : value (kw "Note") <> str "}".
Proof. discriminate. Qed.

Lemma value_lbracket : value lbracket <> str "}".
Proof. discriminate. Qed.

(** The loop of [parseTable] over a sequence of members, up to the
    closing brace. *)
Lemma parseTable_loop_spec ms : forall fuel columns note constraints p ws4 r,
  rest p = body_tokens ms ++ ws4 ++ rbrace :: r ->
  body_ok ms (ws4 ++ rbrace :: r) ->
  Forall gap ws4 ->
  length ms < fuel ->
  exists constraints',
    parseTable_loop fuel columns note constraints p
    = Ok ((columns ++ body_columns ms,
           last_note note (body_notes ms), constraints'),
          skip (length (body_tokens ms) + length ws4) p).
Proof.
  induction ms as [|m ms IH];
    intros fuel cols note cs p ws4 r Hr Hok Hws4 Hf;
    (destruct fuel as [|fuel]; [lia|]).
  - cbn in Hr. exists cs. cbn [body_tokens body_columns body_notes flat_map
                               last_note fold_left length].
    rewrite app_nil_r.
    destruct ws4 as [|w ws4].
    + cbn [parseTable_loop]. step_m. rewrite Hr. cbn. str_eval. cbn.
      rewrite skip_0. reflexivity.
    + destruct (parseTable_loop_enter fuel cols note cs p (w :: ws4)
                  rbrace r Hr Hws4) as [-> _];
        [discriminate|discriminate|].
      cbn. str_eval. reflexivity.
  - cbn [body_tokens flat_map] in Hr. fold (body_tokens ms) in Hr.
    rewrite <- app_assoc in Hr.
    destruct Hok as [Hm Hok]. simpl in Hf.
    set (follow := body_tokens ms ++ ws4 ++ rbrace :: r) in *.
    destruct m as [ws1 ws2 ws3 text|ws1 name ws2 dataType
                  |ws1 name ws2 dataType body|ws1 body];
      cbn [member_tokens member_ok] in Hr, Hm;
      repeat (rewrite <- app_assoc in Hr; cbn [app] in Hr).
    + destruct Hm as (H1 & H2 & H3).
      destruct (parseTable_loop_enter fuel cols note cs p ws1 _ _ Hr H1)
        as [-> Hr1]; [intros _; apply value_kw_Note|discriminate|].
      cbn [type_is value_is kw type value TokenType_eqb andb].
      str_eval. cbv iota. step_m.
      rewrite (parseNote_spec _ [] ws2 ws3 text follow Hr1); auto.
      destruct (IH fuel cols (Some text) cs
                  (skip (length (@nil Token) + length ws2 + length ws3 + 3)
                     (skip (length ws1) p)) ws4 r) as [cs' ->]; auto;
        [rest_tac Hr1 (kw "Note" :: ws2 ++ colon :: ws3
                       ++ [mkToken STRING text])|lia|].
      exists cs'. cbn [body_tokens body_columns body_notes flat_map
                       member_tokens member_columns member_notes app
                       last_note fold_left].
      unfold body_tokens. skip_tac.
    + destruct Hm as (H1 & Hname & H2 & Hend).
      destruct (parseTable_loop_enter fuel cols note cs p ws1 _ _ Hr H1)
        as [-> Hr1]; [intros _; exact Hname|discriminate|].
      cbn [type_is type TokenType_eqb]. cbv iota. step_m.
      rewrite (parseColumn_plain _ [] name ws2 dataType follow Hr1); auto.
      destruct (IH fuel (cols ++ [ColumnNode.mk name dataType [] None])
                  note cs
                  (skip (length (@nil Token) + length ws2 + 2)
                     (skip (length ws1) p)) ws4 r) as [cs' ->]; auto;
        [rest_tac Hr1 (mkToken IDENTIFIER name :: ws2
                       ++ [mkToken KEYWORD dataType])|lia|].
      exists cs'. cbn [body_tokens body_columns body_notes flat_map
                       member_tokens member_columns member_notes app].
      rewrite <- app_assoc. unfold body_tokens. skip_tac.
    + destruct Hm as (H1 & Hname & H2 & Hbody & Hend).
      destruct (parseTable_loop_enter fuel cols note cs p ws1 _ _ Hr H1)
        as [-> Hr1]; [intros _; exact Hname|discriminate|].
      cbn [type_is type TokenType_eqb]. cbv iota. step_m.
      rewrite (parseColumn_list _ [] name ws2 dataType body follow Hr1);
        auto.
      destruct (IH fuel (cols ++ [ColumnNode.mk name dataType
                                    (constraint_entries body) None])
                  note cs
                  (skip (length (@nil Token) + length ws2 + length body + 4)
                     (skip (length ws1) p)) ws4 r) as [cs' ->]; auto;
        [rest_tac Hr1 (mkToken IDENTIFIER name :: ws2
                       ++ mkToken KEYWORD dataType :: lbracket :: body
                       ++ [rbracket])|lia|].
      exists cs'. cbn [body_tokens body_columns body_notes flat_map
                       member_tokens member_columns member_notes app].
      rewrite <- app_assoc. unfold body_tokens. skip_tac.
    + destruct Hm as (H1 & Hbody).
      destruct (parseTable_loop_enter fuel cols note cs p ws1 _ _ Hr H1)
        as [-> Hr1]; [intros _; apply value_lbracket|discriminate|].
      cbn [type_is value_is lbracket type value TokenType_eqb andb].
      str_eval. cbv iota. step_m.
      rewrite (parseConstraints_spec _ [] body follow cs Hr1); auto.
      destruct (IH fuel cols note (cs ++ constraint_entries body)
                  (skip (length (@nil Token) + length body + 2)
                     (skip (length ws1) p)) ws4 r) as [cs' ->]; auto;
        [rest_tac Hr1 (lbracket :: body ++ [rbracket])|lia|].
      exists cs'. cbn [body_tokens body_columns body_notes flat_map
                       member_tokens member_columns member_notes app].
      unfold body_tokens. skip_tac.
Qed.

Lemma parseTable_eq :
  parseTable
  = (skipWhitespace ;;
     expect KEYWORD (Some (str "Table")) ;;
     nameToken <- expect IDENTIFIER None ;;
     skipWhitespace ;;
     tok <- peek ;;
     constraints <- (if value_is tok "[" then parseConstraints []
                     else ret []) ;;
     table_body nameToken constraints).
Proof. reflexivity. Qed.

Lemma member_tokens_length m : 1 <= length (member_tokens m).
Proof.
  destruct m; cbn [member_tokens]; rewrite length_app; cbn [length]; lia.
Qed.

Lemma body_tokens_length ms : length ms <= length (body_tokens ms).
Proof.
  induction ms as [|m ms IH]; cbn [body_tokens flat_map length]; auto.
  fold (body_tokens ms). rewrite length_app.
  pose proof (member_tokens_length m). lia.
Qed.

Lemma table_body_spec p nameToken constraints ws3 ms ws4 r :
  rest p = ws3 ++ lbrace :: body_tokens ms ++ ws4 ++ rbrace :: r ->
  Forall is_ws ws3 ->
  body_ok ms (ws4 ++ rbrace :: r) ->
  Forall gap ws4 ->
  table_body nameToken constraints p
  = Ok (TableNode.mk (value nameToken) (body_columns ms)
                     (last_note None (body_notes ms)),
        skip (length ws3 + length (body_tokens ms) + length ws4 + 2) p).
Proof.
  intros Hr H3 Hok H4. unfold table_body. step_m.
  rewrite (expect_ok _ _ _ _ SYMBOL (Some (str "{")) Hr);
    auto using expect_accepts_exact; [|discriminate].
  assert (Hr1 : rest (skip (S (length ws3)) p)
                = body_tokens ms ++ ws4 ++ rbrace :: r)
    by (rest_tac Hr (ws3 ++ [lbrace])).
  step_m.
  destruct (parseTable_loop_spec ms (length (rest (skip (S (length ws3)) p)))
              [] None constraints _ ws4 r Hr1 Hok H4) as [cs' ->].
  { rewrite Hr1, length_app, length_app. cbn [length].
    pose proof (body_tokens_length ms). lia. }
  assert (Hr2 : rest (skip (length (body_tokens ms) + length ws4)
                        (skip (S (length ws3)) p)) = [] ++ rbrace :: r)
    by (rest_tac Hr1 (body_tokens ms ++ ws4)).
  step_m.
  rewrite (expect_ok _ _ _ _ SYMBOL (Some (str "}")) Hr2);
    auto using expect_accepts_exact; [|discriminate].
  step_m. cbn [app]. skip_tac.
Qed.

Lemma parseTable_spec p ws0 ws1 name ws2 header ws3 ms ws4 r :
  rest p = table_tokens ws0 ws1 name ws2 header ws3 ms ws4 ++ r ->
  Forall is_ws ws0 -> Forall is_ws ws1 -> Forall is_ws ws2 ->
  Forall is_ws ws3 ->
  header_ok header ->
  body_ok ms (ws4 ++ rbrace :: r) ->
  Forall gap ws4 ->
  parseTable p
  = Ok (TableNode.mk name (body_columns ms)
                     (last_note None (body_notes ms)),
        skip (length (table_tokens ws0 ws1 name ws2 header ws3 ms ws4)) p).
Proof.
  intros Hr H0 H1 H2 H3 Hh Hok H4. unfold table_tokens in *.
  repeat (rewrite <- app_assoc in Hr; cbn [app] in Hr).
  rewrite parseTable_eq. step_m.
  rewrite (skipWhitespace_spec p ws0 _ Hr H0); [|discriminate].
  assert (Hr1 : rest (skip (length ws0) p)
                = [] ++ kw "Table" :: ws1 ++ mkToken IDENTIFIER name :: ws2
                  ++ header_tokens header ++ ws3 ++ lbrace
                  :: body_tokens ms ++ ws4 ++ rbrace :: r)
    by (rest_tac Hr ws0).
  step_m.
  rewrite (expect_ok _ _ _ _ KEYWORD (Some (str "Table")) Hr1);
    auto using expect_accepts_exact; [|discriminate].
  cbn [length].
  assert (Hr2 : rest (skip 1 (skip (length ws0) p))
                = ws1 ++ mkToken IDENTIFIER name :: ws2
                  ++ header_tokens header ++ ws3 ++ lbrace
                  :: body_tokens ms ++ ws4 ++ rbrace :: r)
    by (rest_tac Hr1 [kw "Table"]).
  step_m.
  rewrite (expect_ok _ _ _ _ IDENTIFIER None Hr2);
    auto using expect_accepts_any; [|discriminate].
  set (p3 := skip (S (length ws1)) (skip 1 (skip (length ws0) p))).
  assert (Hr3 : rest p3
                = ws2 ++ header_tokens header ++ ws3 ++ lbrace
                  :: body_tokens ms ++ ws4 ++ rbrace :: r)
    by (rest_tac Hr2 (ws1 ++ [mkToken IDENTIFIER name])).
  step_m.
  destruct header as [hbody|]; cbn [header_tokens header_ok] in *.
  - repeat (rewrite <- app_assoc in Hr3; cbn [app] in Hr3).
    rewrite (skipWhitespace_spec p3 ws2 _ Hr3 H2); [|discriminate].
    assert (Hr4 : rest (skip (length ws2) p3)
                  = [] ++ lbracket :: hbody ++ rbracket :: ws3 ++ lbrace
                    :: body_tokens ms ++ ws4 ++ rbrace :: r)
      by (rest_tac Hr3 ws2).
    step_m. rewrite Hr4. cbn [app hd_error value_is lbracket value].
    rewrite str_eqb_refl.
    rewrite (parseConstraints_spec _ [] hbody _ [] Hr4); auto.
    rewrite (table_body_spec _ _ _ ws3 ms ws4 r); auto;
      [|rest_tac Hr4 (lbracket :: hbody ++ [rbracket])].
    subst p3. cbn [value]. skip_tac.
  - cbn [app] in Hr3. rewrite app_assoc in Hr3.
    rewrite (skipWhitespace_spec p3 (ws2 ++ ws3) _ Hr3);
      [|apply Forall_app; auto|discriminate].
    assert (Hr4 : rest (skip (length (ws2 ++ ws3)) p3)
                  = [] ++ lbrace :: body_tokens ms ++ ws4 ++ rbrace :: r)
      by (rest_tac Hr3 (ws2 ++ ws3)).
    step_m. rewrite Hr4. cbn [app hd_error value_is lbrace value].
    str_eval. cbv iota. step_m.
    rewrite (table_body_spec _ _ _ [] ms ws4 r Hr4); auto.
    subst p3. cbn [value]. skip_tac.
Qed.

(** *** The parser only depends on the tokens after the cursor *)

Lemma related_ret {A B} (R : A -> B -> Prop) a b :
  R a b -> related R (ret a) (ret b).
Proof. intros H p q Hs. split; assumption. Qed.

Lemma related_throw {A B} (R : A -> B -> Prop) msg :
  related R (throw msg) (throw msg).
Proof. intros p q Hs. reflexivity. Qed.

Lemma related_out_of_fuel {A B} (R : A -> B -> Prop) :
  related R out_of_fuel out_of_fuel.
Proof. intros p q Hs. exact I. Qed.

Lemma related_bind {A B C D} (R1 : A -> B -> Prop) (R2 : C -> D -> Prop)
  m1 m2 f1 f2 :
  related R1 m1 m2 ->
  (forall a b, R1 a b -> related R2 (f1 a) (f2 b)) ->
  related R2 (bind m1 f1) (bind m2 f2).
Proof.
  intros Hm Hf p q Hs. unfold bind. specialize (Hm p q Hs).
  destruct (m1 p) as [[a p']| |], (m2 q) as [[b q']| |];
    simpl in Hm; try contradiction; auto.
  destruct Hm as [Hab Hs']. apply Hf; assumption.
Qed.

Lemma related_weaken {A B} (R R' : A -> B -> Prop) m1 m2 :
  related R m1 m2 -> (forall a b, R a b -> R' a b) -> related R' m1 m2.
Proof.
  intros Hm HR p q Hs. specialize (Hm p q Hs).
  destruct (m1 p) as [[a p']| |], (m2 q) as [[b q']| |];
    simpl in *; try contradiction; auto.
  destruct Hm as [Hab Hs']. split; auto.
Qed.

Lemma sim_skip k p q : sim p q -> sim (skip k p) (skip k q).
Proof.
  intros [Hr Ha]. split; [|exact Ha]. rewrite !rest_skip, Hr. reflexivity.
Qed.

Lemma related_peek : related eq peek peek.
Proof.
  intros p q Hs. rewrite !peek_rest. pose proof Hs as [Hr Ha].
  rewrite Hr. split; [reflexivity | exact Hs].
Qed.

Lemma related_advance : related eq advance advance.
Proof.
  intros p q Hs. rewrite !advance_rest. pose proof Hs as [Hr Ha].
  rewrite Hr. split; [reflexivity | apply sim_skip; exact Hs].
Qed.

Lemma related_more : related eq more more.
Proof.
  intros p q Hs. rewrite !more_rest. pose proof Hs as [Hr Ha].
  rewrite Hr. split; [reflexivity | exact Hs].
Qed.

Lemma related_remaining : related eq remaining remaining.
Proof.
  intros p q Hs. rewrite !remaining_rest. pose proof Hs as [Hr Ha].
  rewrite Hr. split; [reflexivity | exact Hs].
Qed.

Lemma related_get_ast : related eq get_ast get_ast.
Proof.
  intros p q Hs. unfold get_ast. pose proof Hs as [Hr Ha].
  rewrite Ha. split; [reflexivity | exact Hs].
Qed.

Lemma related_push_table table : related eq (push_table table)
                                           (push_table table).
Proof.
  intros p q [Hr Ha]. unfold push_table. split; [reflexivity|].
  split; [exact Hr | simpl; rewrite Ha; reflexivity].
Qed.

Create HintDb rel.
#[local] Hint Resolve related_peek related_advance related_more
  related_remaining related_get_ast related_push_table : rel.

(** Goes through two copies of the same code in lockstep. *)
Ltac rel_step :=
  first
    [ apply related_ret; auto
    | apply related_throw
    | apply related_out_of_fuel
    | solve [eauto with rel]
    | eapply related_bind; [solve [eauto with rel]|];
      let a := fresh "a" in let b := fresh "b" in let H := fresh "H" in
      intros a b H; try subst b
    | eapply related_bind with (R1 := eq); [solve [rel]|];
      let a := fresh "a" in let b := fresh "b" in let H := fresh "H" in
      intros a b H; try subst b
    | match goal with
      | |- related _ (if ?c then _ else _) _ => destruct c
      | |- related _ (match ?x with _ => _ end) _ => destruct x
      end ]
with rel := repeat rel_step.

Lemma related_skipWhitespace_loop fuel :
  related eq (skipWhitespace_loop fuel) (skipWhitespace_loop fuel).
Proof. induction fuel; cbn [skipWhitespace_loop]; rel. Qed.
#[local] Hint Resolve related_skipWhitespace_loop : rel.

Lemma related_skipWhitespace : related eq skipWhitespace skipWhitespace.
Proof. unfold skipWhitespace. rel. Qed.
#[local] Hint Resolve related_skipWhitespace : rel.

Lemma related_expect type_ value_ :
  related eq (expect type_ value_) (expect type_ value_).
Proof. unfold expect. rel. Qed.
#[local] Hint Resolve related_expect : rel.

Lemma related_parseConstraints_loop fuel : forall cs1 cs2,
  related (same_if (cs1 = cs2))
    (parseConstraints_loop fuel cs1) (parseConstraints_loop fuel cs2).
Proof.
  induction fuel as [|fuel IH]; intros cs1 cs2;
    cbn [parseConstraints_loop]; rel; try (intros ->; reflexivity).
  eapply related_weaken; [apply IH|].
  intros x y Hxy Heq. apply Hxy. rewrite Heq. reflexivity.
Qed.

Lemma related_parseConstraints cs1 cs2 :
  related (same_if (cs1 = cs2)) (parseConstraints cs1) (parseConstraints cs2).
Proof.
  unfold parseConstraints. rel.
  eapply related_bind; [apply related_parseConstraints_loop|].
  intros x y Hxy. rel.
Qed.

Lemma related_parseConstraints_eq cs :
  related eq (parseConstraints cs) (parseConstraints cs).
Proof.
  eapply related_weaken; [apply related_parseConstraints|].
  intros x y Hxy. apply Hxy. reflexivity.
Qed.
#[local] Hint Resolve related_parseConstraints_eq : rel.

Lemma related_parseNote : related eq parseNote parseNote.
Proof. unfold parseNote. rel. Qed.
#[local] Hint Resolve related_parseNote : rel.

Lemma related_parseColumn : related eq parseColumn parseColumn.
Proof.
  unfold parseColumn. rel.
Qed.
#[local] Hint Resolve related_parseColumn : rel.

Lemma related_parseTable_loop fuel : forall columns note cs1 cs2,
  related same_table (parseTable_loop fuel columns note cs1)
                     (parseTable_loop fuel columns note cs2).
Proof.
  induction fuel as [|fuel IH]; intros columns note cs1 cs2;
    cbn [parseTable_loop]; rel; try (split; reflexivity).
  eapply related_bind; [apply related_parseConstraints|].
  intros x y _. apply IH.
Qed.

Lemma related_table_body nameToken cs1 cs2 :
  related eq (table_body nameToken cs1) (table_body nameToken cs2).
Proof.
  unfold table_body. rel.
  eapply related_bind; [apply related_parseTable_loop|].
  intros [[columns note] x] [[columns' note'] y] [Hc Hn].
  simpl in Hc, Hn. subst. rel.
Qed.

Lemma related_parseTable : related eq parseTable parseTable.
Proof.
  unfold parseTable. rel;
    (eapply related_bind; [apply related_parseTable_loop|];
     intros [[columns note] x] [[columns' note'] y] [Hc Hn];
     simpl in Hc, Hn; subst; rel).
Qed.
#[local] Hint Resolve related_parseTable : rel.

Lemma related_parse_loop fuel :
  related eq (parse_loop fuel) (parse_loop fuel).
Proof. induction fuel; cbn [parse_loop]; rel. Qed.

(** *** The parser terminates *)

Lemma good_weaken {A} p strict (r : Res (A * t)) :
  good p true r -> good p strict r.
Proof.
  destruct r as [[a p']| |], strict; simpl; auto. intros [H1 H2].
  split; auto; lia.
Qed.

Lemma good_ret {A} p (a : A) : good p false (ret a p).
Proof. simpl; auto. Qed.

Lemma good_throw {A} p strict msg : good (A:=A) p strict (throw msg p).
Proof. exact I. Qed.

Lemma good_bind_steady {A B} (m : M t A) (f : A -> M t B) p strict :
  good p false (m p) ->
  (forall a p', tokens p' = tokens p -> position p <= position p' ->
                good p' strict (f a p')) ->
  good p strict (bind m f p).
Proof.
  unfold bind. destruct (m p) as [[a p']| |]; simpl; auto.
  intros [Ht Hp] Hf. specialize (Hf a p' Ht Hp).
  destruct (f a p') as [[b p'']| |]; simpl in *; auto.
  destruct Hf as [Ht' Hp']. split; [congruence|].
  destruct strict; lia.
Qed.

Lemma good_bind_moving {A B} (m : M t A) (f : A -> M t B) p strict :
  good p true (m p) ->
  (forall a p', tokens p' = tokens p -> position p < position p' ->
                good p' false (f a p')) ->
  good p strict (bind m f p).
Proof.
  unfold bind. destruct (m p) as [[a p']| |]; simpl; auto.
  intros [Ht Hp] Hf. specialize (Hf a p' Ht Hp).
  destruct (f a p') as [[b p'']| |]; simpl in *; auto.
  destruct Hf as [Ht' Hp']. split; [congruence|].
  destruct strict; lia.
Qed.

Lemma good_peek p : good p false (peek p).
Proof. simpl; auto. Qed.

Lemma good_more p : good p false (more p).
Proof. simpl; auto. Qed.

Lemma good_remaining p : good p false (remaining p).
Proof. simpl; auto. Qed.

Lemma good_get_ast p : good p false (get_ast p).
Proof. simpl; auto. Qed.

Lemma good_push_table table p : good p false (push_table table p).
Proof. simpl; auto. Qed.

Lemma good_advance p : good p true (advance p).
Proof. simpl; auto. Qed.

Lemma good_remaining_bind {A} (f : nat -> M t A) p strict :
  good p strict (f (length (tokens p) - position p) p) ->
  good p strict (bind remaining f p).
Proof. auto. Qed.

Lemma peek_defined p tok :
  peek p = Ok (tok, p) -> defined tok = true ->
  position p < length (tokens p).
Proof.
  unfold peek. intros H Hd. inversion H as [H1]. subst tok.
  apply nth_error_Some. destruct (nth_error (tokens p) (position p));
    [discriminate | discriminate].
Qed.

Create HintDb good.
#[local] Hint Resolve good_peek good_more good_remaining good_get_ast
  good_push_table good_advance : good.

(** Goes through a computation, keeping what is known of the cursor. *)
Ltac good_step :=
  first
    [ apply good_ret
    | apply good_throw
    | solve [eauto with good]
    | solve [apply good_weaken; eauto with good]
    | apply good_bind_moving; [solve [eauto with good]|];
      let a := fresh "a" in let p' := fresh "p" in
      let Ht := fresh "Ht" in let Hp := fresh "Hp" in
      intros a p' Ht Hp; cbv beta
    | apply good_bind_steady;
      [solve [eauto with good | apply good_weaken; eauto with good]|];
      let a := fresh "a" in let p' := fresh "p" in
      let Ht := fresh "Ht" in let Hp := fresh "Hp" in
      intros a p' Ht Hp; cbv beta
    | apply good_bind_steady; [solve [go_good]|];
      let a := fresh "a" in let p' := fresh "p" in
      let Ht := fresh "Ht" in let Hp := fresh "Hp" in
      intros a p' Ht Hp; cbv beta
    | match goal with
      | |- good _ _ ((if ?c then _ else _) _) => destruct c
      | |- good _ _ ((match ?x with _ => _ end) _) => destruct x
      end ]
with go_good := repeat good_step.

Lemma skipWhitespace_loop_good fuel : forall p,
  length (tokens p) - position p <= fuel ->
  good p false (skipWhitespace_loop fuel p).
Proof.
  induction fuel as [|fuel IH]; intros p Hf; cbn [skipWhitespace_loop];
    unfold bind at 1; unfold more at 1; cbv beta iota;
    unfold bind at 1; unfold peek at 1; cbv beta iota;
    destruct (position p <? length (tokens p)) eqn:E; cbn [andb];
    try apply good_ret;
    apply Nat.ltb_lt in E;
    (destruct (type_is (nth_error (tokens p) (position p)) WHITESPACE);
     [|apply good_ret]); [lia|].
  apply good_bind_moving; [apply good_advance|].
  intros a p' Ht Hp. apply IH. rewrite Ht. lia.
Qed.

Lemma skipWhitespace_good p : good p false (skipWhitespace p).
Proof.
  unfold skipWhitespace. apply good_remaining_bind.
  apply skipWhitespace_loop_good. lia.
Qed.
#[local] Hint Resolve skipWhitespace_good : good.

Lemma expect_good type_ value_ p : good p true (expect type_ value_ p).
Proof.
  unfold expect. apply good_bind_steady; [apply skipWhitespace_good|].
  intros _ p1 Ht1 Hp1. apply good_bind_moving; [apply good_advance|].
  intros tok p2 Ht2 Hp2. go_good.
Qed.
#[local] Hint Resolve expect_good : good.

Lemma parseConstraints_loop_good fuel : forall constraints p,
  length (tokens p) - position p <= fuel ->
  good p false (parseConstraints_loop fuel constraints p).
Proof.
  induction fuel as [|fuel IH]; intros cs p Hf;
    cbn [parseConstraints_loop];
    unfold bind at 1; destruct (peek p) as [[tok p0]| |] eqn:Epeek;
    try discriminate;
    assert (p0 = p) by (unfold peek in Epeek; congruence); subst p0;
    (destruct (defined tok) eqn:Edef; cbn [andb]; [|apply good_ret]);
    pose proof (peek_defined p tok Epeek Edef) as Hlt;
    (destruct (negb (value_is tok "]")); [|apply good_ret]); [lia|].
  apply good_bind_moving; [apply good_advance|].
  intros entry p1 Ht1 Hp1. destruct entry as [tk|]; [|apply good_throw].
  apply good_bind_steady; [apply good_peek|].
  intros nxt p2 Ht2 Hp2.
  apply good_bind_steady; [go_good|].
  intros _ p3 Ht3 Hp3. apply IH. rewrite Ht3, Ht2, Ht1. lia.
Qed.

Lemma parseConstraints_good constraints p :
  good p true (parseConstraints constraints p).
Proof.
  unfold parseConstraints. apply good_bind_moving; [apply expect_good|].
  intros _ p1 Ht1 Hp1. apply good_remaining_bind.
  apply good_bind_steady; [apply parseConstraints_loop_good; lia|].
  intros cs p2 Ht2 Hp2. go_good.
Qed.
#[local] Hint Resolve parseConstraints_good : good.

Lemma parseNote_good p : good p true (parseNote p).
Proof.
  unfold parseNote. apply good_bind_steady; [apply skipWhitespace_good|].
  intros _ p1 Ht1 Hp1. go_good.
Qed.
#[local] Hint Resolve parseNote_good : good.

Lemma parseColumn_good p : good p true (parseColumn p).
Proof.
  unfold parseColumn. apply good_bind_steady; [apply skipWhitespace_good|].
  intros _ p1 Ht1 Hp1. go_good.
Qed.
#[local] Hint Resolve parseColumn_good : good.

Lemma parseTable_loop_good fuel : forall columns note constraints p,
  length (tokens p) - position p <= fuel ->
  good p false (parseTable_loop fuel columns note constraints p).
Proof.
  induction fuel as [|fuel IH]; intros cols note cs p Hf;
    cbn [parseTable_loop];
    unfold bind at 1; destruct (peek p) as [[tok p0]| |] eqn:Epeek;
    try discriminate;
    assert (p0 = p) by (unfold peek in Epeek; congruence); subst p0;
    (destruct (defined tok) eqn:Edef; cbn [andb]; [|apply good_ret]);
    pose proof (peek_defined p tok Epeek Edef) as Hlt;
    (destruct (negb (value_is tok "}")); [|apply good_ret]); [lia|].
  apply good_bind_steady; [apply skipWhitespace_good|].
  intros _ p1 Ht1 Hp1. apply good_bind_steady; [apply good_peek|].
  intros tok1 p2 Ht2 Hp2.
  repeat match goal with
         | |- good _ _ ((if ?c then _ else _) _) => destruct c
         end;
    try apply good_ret; try apply good_throw;
    (apply good_bind_moving; [solve [eauto with good]|]);
    intros x p3 Ht3 Hp3; apply IH; rewrite Ht3, Ht2, Ht1; lia.
Qed.

Lemma parseTable_good p : good p true (parseTable p).
Proof.
  unfold parseTable. apply good_bind_steady; [apply skipWhitespace_good|].
  intros _ p1 Ht1 Hp1. apply good_bind_moving; [apply expect_good|].
  intros _ p2 Ht2 Hp2. apply good_bind_moving; [apply expect_good|].
  intros nameToken p3 Ht3 Hp3.
  apply good_bind_steady; [apply skipWhitespace_good|].
  intros _ p4 Ht4 Hp4. apply good_bind_steady; [apply good_peek|].
  intros tok p5 Ht5 Hp5. apply good_bind_steady; [go_good|].
  intros cs p6 Ht6 Hp6. apply good_bind_moving; [apply expect_good|].
  intros _ p7 Ht7 Hp7. apply good_remaining_bind.
  apply good_bind_steady; [apply parseTable_loop_good; lia|].
  intros [[columns note] x] p8 Ht8 Hp8. go_good.
Qed.
#[local] Hint Resolve parseTable_good : good.

Lemma parse_loop_good fuel : forall p,
  length (tokens p) - position p <= fuel ->
  good p false (parse_loop fuel p).
Proof.
  induction fuel as [|fuel IH]; intros p Hf; cbn [parse_loop];
    unfold bind at 1; unfold more at 1; cbv beta iota;
    (destruct (position p <? length (tokens p)) eqn:E;
     [|apply good_get_ast]);
    apply Nat.ltb_lt in E; [lia|].
  apply good_bind_steady; [apply skipWhitespace_good|].
  intros _ p1 Ht1 Hp1. apply good_bind_steady; [apply good_peek|].
  intros tok p2 Ht2 Hp2.
  repeat match goal with
         | |- good _ _ ((if ?c then _ else _) _) => destruct c
         end;
    try apply good_get_ast; try apply good_throw.
  apply good_bind_moving; [apply parseTable_good|].
  intros table p3 Ht3 Hp3. apply good_bind_steady; [apply good_push_table|].
  intros _ p4 Ht4 Hp4. apply IH. rewrite Ht4, Ht3, Ht2, Ht1. lia.
Qed.

Lemma parse_good p : good p false (parse p).
Proof.
  unfold parse. apply good_remaining_bind. apply parse_loop_good. lia.
Qed.

(** *** The header list of a table *)

Lemma expect_past_whitespace p ws r type_ value_ :
  rest p = ws ++ r -> Forall is_ws ws -> starts_significant r ->
  expect type_ value_ p = expect type_ value_ (skip (length ws) p).
Proof.
  intros Hr Hws Hsig. unfold expect, bind.
  rewrite (skipWhitespace_spec p ws r Hr Hws Hsig).
  rewrite (skipWhitespace_spec (skip (length ws) p) [] r);
    auto using rest_skip_app.
Qed.

Lemma table_body_past_whitespace p ws r nameToken constraints :
  rest p = ws ++ r -> Forall is_ws ws -> starts_significant r ->
  table_body nameToken constraints p
  = table_body nameToken constraints (skip (length ws) p).
Proof.
  intros Hr Hws Hsig. unfold table_body, bind.
  rewrite (expect_past_whitespace p ws r _ _ Hr Hws Hsig). reflexivity.
Qed.

(** [parseTable] up to the opening brace, for a name followed by a
    bracketed list. *)
Lemma parseTable_header_list p ws0 ws1 name ws2 hbody r :
  rest p = ws0 ++ kw "Table" :: ws1 ++ mkToken IDENTIFIER name :: ws2
           ++ lbracket :: hbody ++ rbracket :: r ->
  Forall is_ws ws0 -> Forall is_ws ws1 -> Forall is_ws ws2 ->
  Forall not_closing hbody ->
  parseTable p
  = table_body (mkToken IDENTIFIER name) (constraint_entries hbody)
      (skip (length ws0 + length ws1 + length ws2 + length hbody + 4) p)
  /\ rest (skip (length ws0 + length ws1 + length ws2 + length hbody + 4) p)
     = r.
Proof.
  intros Hr H0 H1 H2 Hh.
  split;
    [|rest_tac Hr (ws0 ++ kw "Table" :: ws1 ++ mkToken IDENTIFIER name :: ws2
                   ++ lbracket :: hbody ++ [rbracket])].
  rewrite parseTable_eq. step_m.
  rewrite (skipWhitespace_spec p ws0 _ Hr H0); [|discriminate].
  assert (Hr1 : rest (skip (length ws0) p)
                = [] ++ kw "Table" :: ws1 ++ mkToken IDENTIFIER name :: ws2
                  ++ lbracket :: hbody ++ rbracket :: r)
    by (rest_tac Hr ws0).
  step_m.
  rewrite (expect_ok _ _ _ _ KEYWORD (Some (str "Table")) Hr1);
    auto using expect_accepts_exact; [|discriminate].
  cbn [length].
  assert (Hr2 : rest (skip 1 (skip (length ws0) p))
                = ws1 ++ mkToken IDENTIFIER name :: ws2
                  ++ lbracket :: hbody ++ rbracket :: r)
    by (rest_tac Hr1 [kw "Table"]).
  step_m.
  rewrite (expect_ok _ _ _ _ IDENTIFIER None Hr2);
    auto using expect_accepts_any; [|discriminate].
  set (p3 := skip (S (length ws1)) (skip 1 (skip (length ws0) p))).
  assert (Hr3 : rest p3 = ws2 ++ lbracket :: hbody ++ rbracket :: r)
    by (rest_tac Hr2 (ws1 ++ [mkToken IDENTIFIER name])).
  step_m.
  rewrite (skipWhitespace_spec p3 ws2 _ Hr3 H2); [|discriminate].
  assert (Hr4 : rest (skip (length ws2) p3)
                = [] ++ lbracket :: hbody ++ rbracket :: r)
    by (rest_tac Hr3 ws2).
  step_m. rewrite Hr4. cbn [app hd_error value_is lbracket value].
  rewrite str_eqb_refl.
  rewrite (parseConstraints_spec _ [] hbody _ [] Hr4); auto.
  subst p3. cbn [app]. rewrite !skip_skip. f_equal. apply skip_eq.
  cbn [length]. lia.
Qed.

(** [parseTable] up to the opening brace, for a name not followed by a
    bracketed list. *)
Lemma parseTable_header_plain p ws0 ws1 name ws2 r :
  rest p = ws0 ++ kw "Table" :: ws1 ++ mkToken IDENTIFIER name :: ws2
           ++ r ->
  Forall is_ws ws0 -> Forall is_ws ws1 -> Forall is_ws ws2 ->
  starts_significant r ->
  value_is (hd_error r) "[" = false ->
  parseTable p
  = table_body (mkToken IDENTIFIER name) []
      (skip (length ws0 + length ws1 + length ws2 + 2) p)
  /\ rest (skip (length ws0 + length ws1 + length ws2 + 2) p) = r.
Proof.
  intros Hr H0 H1 H2 Hsig Hb.
  split;
    [|rest_tac Hr (ws0 ++ kw "Table" :: ws1 ++ mkToken IDENTIFIER name
                   :: ws2)].
  rewrite parseTable_eq. step_m.
  rewrite (skipWhitespace_spec p ws0 _ Hr H0); [|discriminate].
  assert (Hr1 : rest (skip (length ws0) p)
                = [] ++ kw "Table" :: ws1 ++ mkToken IDENTIFIER name :: ws2
                  ++ r)
    by (rest_tac Hr ws0).
  step_m.
  rewrite (expect_ok _ _ _ _ KEYWORD (Some (str "Table")) Hr1);
    auto using expect_accepts_exact; [|discriminate].
  cbn [length].
  assert (Hr2 : rest (skip 1 (skip (length ws0) p))
                = ws1 ++ mkToken IDENTIFIER name :: ws2 ++ r)
    by (rest_tac Hr1 [kw "Table"]).
  step_m.
  rewrite (expect_ok _ _ _ _ IDENTIFIER None Hr2);
    auto using expect_accepts_any; [|discriminate].
  set (p3 := skip (S (length ws1)) (skip 1 (skip (length ws0) p))).
  assert (Hr3 : rest p3 = ws2 ++ r)
    by (rest_tac Hr2 (ws1 ++ [mkToken IDENTIFIER name])).
  step_m.
  rewrite (skipWhitespace_spec p3 ws2 _ Hr3 H2 Hsig).
  step_m. rewrite (rest_skip_app p3 ws2 r Hr3), Hb. step_m.
  subst p3. rewrite !skip_skip. f_equal. apply skip_eq. lia.
Qed.

Lemma sim_same_rest p q : rest p = rest q -> ast p = ast q -> sim p q.
Proof. split; assumption. Qed.

Lemma ast_skip k p : ast (skip k p) = ast p.
Proof. reflexivity. Qed.

(** The header list changes neither the outcome of [parseTable] nor the
    tokens left after it. *)
Lemma parseTable_header_discarded ws0 ws1 name ws2 hbody ws3 body :
  Forall is_ws ws0 -> Forall is_ws ws1 -> Forall is_ws ws2 ->
  Forall is_ws ws3 -> Forall not_closing hbody ->
  agree eq
    (parseTable (new (ws0 ++ kw "Table" :: ws1 ++ mkToken IDENTIFIER name
                      :: ws2 ++ lbracket :: hbody ++ rbracket :: ws3
                      ++ lbrace :: body)))
    (parseTable (new (ws0 ++ kw "Table" :: ws1 ++ mkToken IDENTIFIER name
                      :: ws2 ++ ws3 ++ lbrace :: body))).
Proof.
  intros H0 H1 H2 H3 Hh.
  match goal with
  | |- agree eq (parseTable (new ?W)) (parseTable (new ?V)) =>
      set (tw := W); set (tv := V)
  end.
  destruct (parseTable_header_list (new tw) ws0 ws1 name ws2 hbody
              (ws3 ++ lbrace :: body) (rest_new tw) H0 H1 H2 Hh)
    as [-> Hr1].
  rewrite (table_body_past_whitespace _ ws3 (lbrace :: body) _ _ Hr1 H3);
    [|discriminate].
  destruct (parseTable_header_plain (new tv) ws0 ws1 name (ws2 ++ ws3)
              (lbrace :: body)) as [-> Hr2];
    [ rewrite rest_new; subst tv; rewrite <- app_assoc; reflexivity
    | assumption | assumption
    | apply Forall_app; auto | discriminate | reflexivity | ].
  apply related_table_body. apply sim_same_rest.
  - rewrite Hr2. apply rest_skip_app. exact Hr1.
  - reflexivity.
Qed.

Lemma last_note_snoc note notes text :
  last_note note (notes ++ [text]) = Some text.
Proof. unfold last_note. rewrite fold_left_app. reflexivity. Qed.

(** *** Schemas *)

Lemma declaration_tokens_length d : 1 <= length (declaration_tokens d).
Proof.
  unfold declaration_tokens, table_tokens. rewrite length_app.
  cbn [length]. lia.
Qed.

Lemma schema_tokens_length ds :
  length ds <= length (flat_map declaration_tokens ds).
Proof.
  induction ds as [|d ds IH]; cbn [flat_map length]; auto.
  rewrite length_app. pose proof (declaration_tokens_length d). lia.
Qed.

Lemma rest_same_cursor p q :
  tokens q = tokens p -> position q = position p -> rest q = rest p.
Proof. unfold rest. intros -> ->. reflexivity. Qed.

(** The loop of [parse] over a schema appends one Table node for each
    declaration, in source order. *)
Lemma parse_loop_schema ds : forall fuel p trailing,
  rest p = schema_tokens ds trailing ->
  Forall declaration_ok ds ->
  Forall is_ws trailing ->
  length ds + length trailing <= fuel ->
  result (parse_loop fuel p)
  = Ok (mkAST (tables (ast p) ++ map declaration_node ds)).
Proof.
  induction ds as [|d ds IH]; intros fuel p trailing Hr Hok Hws Hf.
  - unfold schema_tokens in Hr. cbn [flat_map app map] in Hr |- *.
    rewrite app_nil_r.
    destruct trailing as [|w ws].
    + destruct fuel; cbn [parse_loop]; step_m; rewrite Hr; cbn;
        destruct (ast p); reflexivity.
    + destruct fuel as [|fuel]; [simpl in Hf; lia|].
      cbn [parse_loop]. step_m. rewrite Hr. cbn [hd_error defined].
      cbv iota. step_m.
      rewrite (skipWhitespace_spec p (w :: ws) []);
        [|rewrite app_nil_r; exact Hr|exact Hws|exact I].
      step_m. rewrite rest_skip, Hr, skipn_all. cbn.
      rewrite ast_skip. destruct (ast p); reflexivity.
  - inversion Hok as [|? ? Hd Hok']; subst.
    destruct Hd as (H0 & H1 & H2 & H3 & Hh & Hbody & H4).
    unfold schema_tokens in Hr. cbn [flat_map] in Hr.
    rewrite <- app_assoc in Hr.
    fold (schema_tokens ds trailing) in Hr.
    set (follow := schema_tokens ds trailing) in *.
    assert (Hr0 : rest p
                  = before_keyword d
                    ++ table_tokens [] (before_name d) (table_name d)
                         (after_name d) (header d) (before_brace d)
                         (members d) (before_close d) ++ follow).
    { rewrite Hr. unfold declaration_tokens, table_tokens.
      rewrite <- app_assoc. reflexivity. }
    destruct fuel as [|fuel]; [simpl in Hf; lia|].
    cbn [parse_loop]. step_m.
    assert (Hdef : defined (hd_error (rest p)) = true).
    { rewrite Hr0. unfold table_tokens.
      destruct (before_keyword d); reflexivity. }
    rewrite Hdef. step_m.
    rewrite (skipWhitespace_spec p (before_keyword d) _ Hr0 H0);
      [|unfold table_tokens; discriminate].
    assert (Hr1 : rest (skip (length (before_keyword d)) p)
                  = table_tokens [] (before_name d) (table_name d)
                      (after_name d) (header d) (before_brace d)
                      (members d) (before_close d) ++ follow)
      by (apply rest_skip_app; exact Hr0).
    assert (Hhd : hd_error (rest (skip (length (before_keyword d)) p))
                  = Some (kw "Table")) by (rewrite Hr1; reflexivity).
    step_m. rewrite Hhd.
    cbn [type_is value_is kw type value TokenType_eqb andb].
    str_eval. cbv iota. step_m.
    rewrite (parseTable_spec _ [] (before_name d) (table_name d)
               (after_name d) (header d) (before_brace d) (members d)
               (before_close d) follow Hr1); auto.
    unfold push_table at 1. cbv beta iota.
    match goal with
    | |- result (parse_loop fuel ?q) = _ =>
        rewrite (IH fuel q trailing); auto
    end.
    + cbn [ast tables map]. rewrite <- app_assoc. reflexivity.
    + match goal with
      | |- rest ?q = _ =>
          rewrite (rest_same_cursor
                     (skip (length (table_tokens [] (before_name d)
                                      (table_name d) (after_name d)
                                      (header d) (before_brace d)
                                      (members d) (before_close d)))
                        (skip (length (before_keyword d)) p)) q);
            [|reflexivity|reflexivity]
      end.
      apply rest_skip_app. exact Hr1.
    + simpl in Hf. lia.
Qed.

(** [parse] on a schema returns the Table nodes of its declarations, one
    for each, in source order. *)
Lemma parse_schema ds trailing :
  Forall declaration_ok ds ->
  Forall is_ws trailing ->
  parse_tokens (schema_tokens ds trailing)
  = Ok (mkAST (map declaration_node ds)).
Proof.
  intros Hok Hws. unfold parse_tokens, parse. step_m.
  rewrite (parse_loop_schema ds _ (new (schema_tokens ds trailing)) trailing);
    auto.
  rewrite rest_new. unfold schema_tokens. rewrite length_app.
  pose proof (schema_tokens_length ds). lia.
Qed.

(** *** A table up to the place of its closing brace *)

Ltac skip_arg_tac :=
  rewrite ?skip_skip;
  match goal with
  | |- _ (skip ?a ?p) = _ (skip ?b ?p) =>
      replace a with b
        by (unfold body_tokens;
            repeat first [rewrite length_app | progress cbn [length]]; lia);
      reflexivity
  end.

(** The loop of [parseTable] over a sequence of members, whatever comes
    after them. *)
Lemma parseTable_loop_members ms : forall fuel columns note constraints p
                                          closing,
  rest p = body_tokens ms ++ closing ->
  body_ok ms closing ->
  exists constraints',
    parseTable_loop (length ms + fuel) columns note constraints p
    = parseTable_loop fuel (columns ++ body_columns ms)
        (last_note note (body_notes ms)) constraints'
        (skip (length (body_tokens ms)) p).
Proof.
  induction ms as [|m ms IH]; intros fuel cols note cs p closing Hr Hok.
  - exists cs. cbn [body_tokens body_columns body_notes flat_map last_note
                    fold_left length Nat.add].
    rewrite app_nil_r, skip_0. reflexivity.
  - cbn [body_tokens flat_map] in Hr. fold (body_tokens ms) in Hr.
    rewrite <- app_assoc in Hr.
    destruct Hok as [Hm Hok]. cbn [length Nat.add].
    set (follow := body_tokens ms ++ closing) in *.
    destruct m as [ws1 ws2 ws3 text|ws1 name ws2 dataType
                  |ws1 name ws2 dataType body|ws1 body];
      cbn [member_tokens member_ok] in Hr, Hm;
      repeat (rewrite <- app_assoc in Hr; cbn [app] in Hr).
    + destruct Hm as (H1 & H2 & H3).
      destruct (parseTable_loop_enter (length ms + fuel) cols note cs p
                  ws1 _ _ Hr H1)
        as [-> Hr1]; [intros _; apply value_kw_Note|discriminate|].
      cbn [type_is value_is kw type value TokenType_eqb andb].
      str_eval. cbv iota. step_m.
      rewrite (parseNote_spec _ [] ws2 ws3 text follow Hr1); auto.
      destruct (IH fuel cols (Some text) cs
                  (skip (length (@nil Token) + length ws2 + length ws3 + 3)
                     (skip (length ws1) p)) closing) as [cs' ->]; auto;
        [rest_tac Hr1 (kw "Note" :: ws2 ++ colon :: ws3
                       ++ [mkToken STRING text])|].
      exists cs'. cbn [body_tokens body_columns body_notes flat_map
                       member_tokens member_columns member_notes app
                       last_note fold_left].
      skip_arg_tac.
    + destruct Hm as (H1 & Hname & H2 & Hend).
      destruct (parseTable_loop_enter (length ms + fuel) cols note cs p
                  ws1 _ _ Hr H1)
        as [-> Hr1]; [intros _; exact Hname|discriminate|].
      cbn [type_is type TokenType_eqb]. cbv iota. step_m.
      rewrite (parseColumn_plain _ [] name ws2 dataType follow Hr1); auto.
      destruct (IH fuel (cols ++ [ColumnNode.mk name dataType [] None])
                  note cs
                  (skip (length (@nil Token) + length ws2 + 2)
                     (skip (length ws1) p)) closing) as [cs' ->]; auto;
        [rest_tac Hr1 (mkToken IDENTIFIER name :: ws2
                       ++ [mkToken KEYWORD dataType])|].
      exists cs'. cbn [body_tokens body_columns body_notes flat_map
                       member_tokens member_columns member_notes app].
      rewrite <- app_assoc. skip_arg_tac.
    + destruct Hm as (H1 & Hname & H2 & Hbody & Hend).
      destruct (parseTable_loop_enter (length ms + fuel) cols note cs p
                  ws1 _ _ Hr H1)
        as [-> Hr1]; [intros _; exact Hname|discriminate|].
      cbn [type_is type TokenType_eqb]. cbv iota. step_m.
      rewrite (parseColumn_list _ [] name ws2 dataType body follow Hr1);
        auto.
      destruct (IH fuel (cols ++ [ColumnNode.mk name dataType
                                    (constraint_entries body) None])
                  note cs
                  (skip (length (@nil Token) + length ws2 + length body + 4)
                     (skip (length ws1) p)) closing) as [cs' ->]; auto;
        [rest_tac Hr1 (mkToken IDENTIFIER name :: ws2
                       ++ mkToken KEYWORD dataType :: lbracket :: body
                       ++ [rbracket])|].
      exists cs'. cbn [body_tokens body_columns body_notes flat_map
                       member_tokens member_columns member_notes app].
      rewrite <- app_assoc. skip_arg_tac.
    + destruct Hm as (H1 & Hbody).
      destruct (parseTable_loop_enter (length ms + fuel) cols note cs p
                  ws1 _ _ Hr H1)
        as [-> Hr1]; [intros _; apply value_lbracket|discriminate|].
      cbn [type_is value_is lbracket type value TokenType_eqb andb].
      str_eval. cbv iota. step_m.
      rewrite (parseConstraints_spec _ [] body follow cs Hr1); auto.
      destruct (IH fuel cols note (cs ++ constraint_entries body)
                  (skip (length (@nil Token) + length body + 2)
                     (skip (length ws1) p)) closing) as [cs' ->]; auto;
        [rest_tac Hr1 (lbracket :: body ++ [rbracket])|].
      exists cs'. cbn [body_tokens body_columns body_notes flat_map
                       member_tokens member_columns member_notes app].
      skip_arg_tac.
Qed.

Lemma table_body_members p nameToken constraints ws3 ms closing :
  rest p = ws3 ++ lbrace :: body_tokens ms ++ closing ->
  Forall is_ws ws3 ->
  body_ok ms closing ->
  exists fuel constraints' p',
    length closing <= fuel /\ rest p' = closing
    /\ table_body nameToken constraints p
       = table_close nameToken fuel (body_columns ms)
           (last_note None (body_notes ms)) constraints' p'.
Proof.
  intros Hr H3 Hok.
  assert (Hr1 : rest (skip (S (length ws3)) p) = body_tokens ms ++ closing)
    by (rest_tac Hr (ws3 ++ [lbrace])).
  exists (length (body_tokens ms ++ closing) - length ms).
  destruct (parseTable_loop_members ms
              (length (body_tokens ms ++ closing) - length ms) [] None
              constraints _ closing Hr1 Hok) as [cs' Hloop].
  exists cs', (skip (length (body_tokens ms)) (skip (S (length ws3)) p)).
  pose proof (body_tokens_length ms) as Hlen.
  split; [rewrite length_app; lia|].
  split; [apply rest_skip_app; exact Hr1|].
  unfold table_body, table_close. step_m.
  rewrite (expect_ok _ _ _ _ SYMBOL (Some (str "{")) Hr);
    auto using expect_accepts_exact; [|discriminate].
  step_m. rewrite Hr1.
  replace (length (body_tokens ms ++ closing))
    with (length ms + (length (body_tokens ms ++ closing) - length ms))
    at 1 by (rewrite length_app; lia).
  rewrite Hloop. reflexivity.
Qed.

(** [parseTable] on an open declaration: what is left to do at the place
    where the closing brace is expected. *)
Lemma parseTable_open p d closing :
  rest p = open_tokens d ++ closing ->
  open_ok d closing ->
  exists fuel constraints' p',
    length closing <= fuel /\ rest p' = closing
    /\ parseTable p
       = table_close (mkToken IDENTIFIER (table_name d)) fuel
           (body_columns (members d))
           (last_note None (body_notes (members d))) constraints' p'.
Proof.
  intros Hr (H0 & H1 & H2 & H3 & Hh & Hok).
  unfold open_tokens in Hr.
  repeat (rewrite <- app_assoc in Hr; cbn [app] in Hr).
  destruct (header d) as [hbody|]; cbn [header_tokens header_ok] in *.
  - repeat first [rewrite <- app_assoc in Hr | progress cbn [app] in Hr].
    destruct (parseTable_header_list p _ _ _ _ hbody _ Hr H0 H1 H2 Hh)
      as [-> Hr1].
    apply (table_body_members _ _ _ _ _ _ Hr1 H3 Hok).
  - cbn [app] in Hr. rewrite app_assoc in Hr.
    destruct (parseTable_header_plain p _ _ _ (after_name d ++ before_brace d)
                (lbrace :: body_tokens (members d) ++ closing) Hr H0 H1)
      as [-> Hr1];
      [apply Forall_app; auto | discriminate | reflexivity |].
    apply (table_body_members _ _ _ [] _ _ Hr1); auto.
Qed.

(** *** The loop of [parse] over declarations *)

Lemma parse_loop_declarations ds : forall fuel p closing,
  rest p = flat_map declaration_tokens ds ++ closing ->
  Forall declaration_ok ds ->
  exists p',
    rest p' = closing
    /\ tables (ast p') = tables (ast p) ++ map declaration_node ds
    /\ parse_loop (length ds + fuel) p = parse_loop fuel p'.
Proof.
  induction ds as [|d ds IH]; intros fuel p closing Hr Hok.
  - exists p. cbn [flat_map app map length Nat.add] in *.
    rewrite app_nil_r. auto.
  - inversion Hok as [|? ? Hd Hok']; subst.
    destruct Hd as (H0 & H1 & H2 & H3 & Hh & Hbody & H4).
    cbn [flat_map] in Hr. rewrite <- app_assoc in Hr.
    set (follow := flat_map declaration_tokens ds ++ closing) in *.
    assert (Hr0 : rest p
                  = before_keyword d
                    ++ table_tokens [] (before_name d) (table_name d)
                         (after_name d) (header d) (before_brace d)
                         (members d) (before_close d) ++ follow).
    { rewrite Hr. unfold declaration_tokens, table_tokens.
      rewrite <- app_assoc. reflexivity. }
    cbn [length Nat.add parse_loop]. step_m.
    assert (Hdef : defined (hd_error (rest p)) = true).
    { rewrite Hr0. unfold table_tokens.
      destruct (before_keyword d); reflexivity. }
    rewrite Hdef. step_m.
    rewrite (skipWhitespace_spec p (before_keyword d) _ Hr0 H0);
      [|unfold table_tokens; discriminate].
    assert (Hr1 : rest (skip (length (before_keyword d)) p)
                  = table_tokens [] (before_name d) (table_name d)
                      (after_name d) (header d) (before_brace d)
                      (members d) (before_close d) ++ follow)
      by (apply rest_skip_app; exact Hr0).
    assert (Hhd : hd_error (rest (skip (length (before_keyword d)) p))
                  = Some (kw "Table")) by (rewrite Hr1; reflexivity).
    step_m. rewrite Hhd.
    cbn [type_is value_is kw type value TokenType_eqb andb].
    str_eval. cbv iota. step_m.
    rewrite (parseTable_spec _ [] (before_name d) (table_name d)
               (after_name d) (header d) (before_brace d) (members d)
               (before_close d) follow Hr1); auto.
    unfold push_table at 1. cbv beta iota.
    match goal with
    | |- exists p', _ /\ _ /\ parse_loop _ ?q = _ =>
        destruct (IH fuel q closing) as (p' & Hrp & Hast & Hloop); auto
    end.
    + match goal with
      | |- rest ?q = _ =>
          rewrite (rest_same_cursor
                     (skip (length (table_tokens [] (before_name d)
                                      (table_name d) (after_name d)
                                      (header d) (before_brace d)
                                      (members d) (before_close d)))
                        (skip (length (before_keyword d)) p)) q);
            [|reflexivity|reflexivity]
      end.
      apply rest_skip_app. exact Hr1.
    + exists p'. split; [exact Hrp|]. split; [|exact Hloop].
      rewrite Hast. cbn [ast tables map]. rewrite <- app_assoc. reflexivity.
Qed.

Lemma parse_tokens_declarations ds closing :
  Forall declaration_ok ds ->
  closing <> [] ->
  exists fuel p',
    rest p' = closing
    /\ parse_tokens (flat_map declaration_tokens ds ++ closing)
       = result (parse_loop (S fuel) p').
Proof.
  intros Hok Hne.
  set (toks := flat_map declaration_tokens ds ++ closing).
  assert (Hlen : length ds + 1 <= length toks).
  { unfold toks. rewrite length_app. pose proof (schema_tokens_length ds).
    destruct closing; [congruence | simpl; lia]. }
  destruct (parse_loop_declarations ds (length toks - length ds - 1 + 1)
              (new toks) closing (rest_new toks) Hok)
    as (p' & Hrp & _ & Hloop).
  exists (length toks - length ds - 1), p'. split; [exact Hrp|].
  unfold parse_tokens, parse. step_m. rewrite rest_new.
  replace (length toks)
    with (length ds + (length toks - length ds - 1 + 1)) at 1 by lia.
  rewrite Hloop, Nat.add_1_r. reflexivity.
Qed.

(** The loop of [parse] ends with the cursor at or past the end of the
    tokens, and returns the tree of the final state. *)
Lemma parse_loop_final fuel : forall p tree p',
  parse_loop fuel p = Ok (tree, p') ->
  tree = ast p' /\ length (tokens p') <= position p'.
Proof.
  induction fuel as [|fuel IH]; intros p tree p'; cbn [parse_loop];
    unfold bind at 1; unfold more at 1; cbv beta iota;
    destruct (position p <? length (tokens p)) eqn:E;
    try discriminate;
    try (apply Nat.ltb_ge in E; unfold get_ast; intros [= <- <-]; auto).
  unfold bind at 1.
  destruct (skipWhitespace p) as [[[] p1]| |]; try discriminate.
  unfold bind at 1. unfold peek at 1. cbv beta iota.
  destruct (type_is (nth_error (tokens p1) (position p1)) KEYWORD
            && value_is (nth_error (tokens p1) (position p1)) "Table").
  - unfold bind at 1.
    destruct (parseTable p1) as [[table p2]| |]; try discriminate.
    unfold bind at 1. unfold push_table at 1. cbv beta iota. apply IH.
  - destruct (nth_error (tokens p1) (position p1)) as [tok|] eqn:En;
      cbn [defined negb]; [discriminate|].
    unfold get_ast. intros [= <- <-]. split; auto.
    apply nth_error_None. exact En.
Qed.

(** *** Only [parse] itself touches the tree *)

Definition keeps_ast {A} (m : M t A) : Prop :=
  forall p a p', m p = Ok (a, p') -> ast p' = ast p.

Lemma keeps_ast_ret {A} (a : A) : keeps_ast (ret a).
Proof. intros p b p' [= _ <-]. reflexivity. Qed.

Lemma keeps_ast_throw {A} msg : keeps_ast (A:=A) (throw msg).
Proof. intros p b p' H. discriminate. Qed.

Lemma keeps_ast_out_of_fuel {A} : keeps_ast (A:=A) out_of_fuel.
Proof. intros p b p' H. discriminate. Qed.

Lemma keeps_ast_bind {A B} (m : M t A) (f : A -> M t B) :
  keeps_ast m -> (forall a, keeps_ast (f a)) -> keeps_ast (bind m f).
Proof.
  intros Hm Hf p b p'. unfold bind.
  destruct (m p) as [[a p1]| |] eqn:E; try discriminate.
  intros H. rewrite (Hf a p1 b p' H). apply (Hm p a p1 E).
Qed.

Lemma keeps_ast_peek : keeps_ast peek.
Proof. intros p a p' [= _ <-]. reflexivity. Qed.

Lemma keeps_ast_advance : keeps_ast advance.
Proof. intros p a p' [= _ <-]. reflexivity. Qed.

Lemma keeps_ast_more : keeps_ast more.
Proof. intros p a p' [= _ <-]. reflexivity. Qed.

Lemma keeps_ast_remaining : keeps_ast remaining.
Proof. intros p a p' [= _ <-]. reflexivity. Qed.

Create HintDb keeps.
#[local] Hint Resolve keeps_ast_peek keeps_ast_advance keeps_ast_more
  keeps_ast_remaining : keeps.

Ltac keeps_step :=
  first
    [ apply keeps_ast_ret
    | apply keeps_ast_throw
    | apply keeps_ast_out_of_fuel
    | solve [eauto with keeps]
    | apply keeps_ast_bind; [|intros ?]
    | match goal with
      | |- keeps_ast (if ?c then _ else _) => destruct c
      | |- keeps_ast (match ?x with _ => _ end) => destruct x
      end ].

Ltac keeps := repeat keeps_step.

Lemma keeps_ast_skipWhitespace_loop fuel :
  keeps_ast (skipWhitespace_loop fuel).
Proof. induction fuel; cbn [skipWhitespace_loop]; keeps. Qed.
#[local] Hint Resolve keeps_ast_skipWhitespace_loop : keeps.

Lemma keeps_ast_skipWhitespace : keeps_ast skipWhitespace.
Proof. unfold skipWhitespace. keeps. Qed.
#[local] Hint Resolve keeps_ast_skipWhitespace : keeps.

Lemma keeps_ast_expect type_ value_ : keeps_ast (expect type_ value_).
Proof. unfold expect. keeps. Qed.
#[local] Hint Resolve keeps_ast_expect : keeps.

Lemma keeps_ast_parseConstraints_loop fuel : forall constraints,
  keeps_ast (parseConstraints_loop fuel constraints).
Proof.
  induction fuel; intros constraints; cbn [parseConstraints_loop]; keeps.
Qed.
#[local] Hint Resolve keeps_ast_parseConstraints_loop : keeps.

Lemma keeps_ast_parseConstraints constraints :
  keeps_ast (parseConstraints constraints).
Proof. unfold parseConstraints. keeps. Qed.
#[local] Hint Resolve keeps_ast_parseConstraints : keeps.

Lemma keeps_ast_parseNote : keeps_ast parseNote.
Proof. unfold parseNote. keeps. Qed.
#[local] Hint Resolve keeps_ast_parseNote : keeps.

Lemma keeps_ast_parseColumn : keeps_ast parseColumn.
Proof. unfold parseColumn. keeps. Qed.
#[local] Hint Resolve keeps_ast_parseColumn : keeps.

Lemma keeps_ast_parseTable_loop fuel : forall columns note constraints,
  keeps_ast (parseTable_loop fuel columns note constraints).
Proof.
  induction fuel; intros columns note constraints; cbn [parseTable_loop];
    keeps.
Qed.
#[local] Hint Resolve keeps_ast_parseTable_loop : keeps.

Lemma keeps_ast_parseTable : keeps_ast parseTable.
Proof. unfold parseTable. keeps. Qed.

(** *** Columns never get a note from the lexer's tokens *)

Lemma peek_no_note p :
  no_note_keyword (tokens p) ->
  type_is (nth_error (tokens p) (position p)) KEYWORD
  && value_is (nth_error (tokens p) (position p)) "note" = false.
Proof.
  intros Hall. destruct (nth_error (tokens p) (position p)) as [tok|] eqn:En;
    [|reflexivity].
  apply nth_error_In in En. unfold no_note_keyword in Hall.
  rewrite Forall_forall in Hall. apply (Hall tok En).
Qed.

(** Destructs the first computation of a chain, keeping what the
    termination lemmas say of its final state. *)
Ltac open_bind Hgood :=
  unfold bind at 1;
  match goal with
  | |- context [match ?m ?p with _ => _ end] =>
      let H := fresh "Hg" in
      pose proof (Hgood p) as H;
      destruct (m p) as [[? ?]| |]; try discriminate;
      cbn [good] in H; destruct H as [H _]
  end.

Lemma parseColumn_without_note p column p' :
  no_note_keyword (tokens p) ->
  parseColumn p = Ok (column, p') ->
  ColumnNode.note column = None.
Proof.
  intros Hall. unfold parseColumn.
  open_bind skipWhitespace_good.
  open_bind (expect_good IDENTIFIER None).
  open_bind (expect_good KEYWORD None).
  unfold bind at 1. unfold peek at 1. cbv beta iota.
  unfold bind at 1.
  match goal with
  | |- context [if ?c then _ else _] => destruct c
  end.
  - open_bind (parseConstraints_good []).
    unfold bind at 1. unfold peek at 1. cbv beta iota.
    rewrite peek_no_note by congruence.
    unfold bind, ret. intros [= <- _]. reflexivity.
  - unfold ret at 1. cbv beta iota.
    unfold bind at 1. unfold peek at 1. cbv beta iota.
    rewrite peek_no_note by congruence.
    unfold bind, ret. intros [= <- _]. reflexivity.
Qed.

Lemma parseTable_loop_without_note fuel : forall columns note constraints p
                                                 columns' note' constraints' p',
  no_note_keyword (tokens p) ->
  columns_without_note columns ->
  parseTable_loop fuel columns note constraints p
  = Ok ((columns', note', constraints'), p') ->
  columns_without_note columns'.
Proof.
  induction fuel as [|fuel IH];
    intros cols note cs p cols' note' cs' p' Hall Hcols;
    cbn [parseTable_loop]; unfold bind at 1; unfold peek at 1;
    cbv beta iota;
    (destruct (defined (nth_error (tokens p) (position p))
               && negb (value_is (nth_error (tokens p) (position p)) "}"));
     [|unfold ret; intros [= <- _ _ _]; exact Hcols]);
    [discriminate|].
  open_bind skipWhitespace_good.
  unfold bind at 1. unfold peek at 1. cbv beta iota.
  repeat match goal with
         | |- context [if ?c then _ else _] => destruct c
         end;
    try discriminate;
    try (unfold ret; intros [= <- _ _ _]; exact Hcols).
  - unfold bind at 1.
    match goal with
    | |- context [parseColumn ?q] =>
        pose proof (parseColumn_good q) as Hg1;
        pose proof (parseColumn_without_note q) as Hn;
        destruct (parseColumn q) as [[column p2]| |]; try discriminate;
        cbn [good] in Hg1; destruct Hg1 as [Hg1 _]
    end.
    apply IH; [congruence|].
    apply Forall_app. split; [exact Hcols|].
    constructor; [|constructor]. apply (Hn column p2); congruence.
  - open_bind parseNote_good. apply IH; [congruence | exact Hcols].
  - open_bind (parseConstraints_good cs). apply IH; [congruence | exact Hcols].
Qed.

Lemma parseTable_without_note p table p' :
  no_note_keyword (tokens p) ->
  parseTable p = Ok (table, p') ->
  columns_without_note (TableNode.columns table) /\ tokens p' = tokens p.
Proof.
  intros Hall Hp. pose proof (parseTable_good p) as Hgood.
  rewrite Hp in Hgood. destruct Hgood as [Htok _]. split; [|exact Htok].
  revert Hp. unfold parseTable.
  open_bind skipWhitespace_good.
  open_bind (expect_good KEYWORD (Some (str "Table"))).
  open_bind (expect_good IDENTIFIER None).
  open_bind skipWhitespace_good.
  unfold bind at 1. unfold peek at 1. cbv beta iota.
  unfold bind at 1.
  match goal with
  | |- context [(if ?c then ?a else ?b) ?q] =>
      pose proof (parseConstraints_good [] q) as Hg4;
      destruct c;
      [ destruct (parseConstraints [] q) as [[cs q']| |]; try discriminate;
        cbn [good] in Hg4; destruct Hg4 as [Hg4 _]
      | clear Hg4; unfold ret at 1; cbv beta iota ]
  end;
    open_bind (expect_good SYMBOL (Some (str "{")));
    unfold bind at 1; unfold remaining at 1; cbv beta iota;
    unfold bind at 1;
    match goal with
    | |- context [parseTable_loop ?f ?c ?n ?k ?q] =>
        pose proof (parseTable_loop_without_note f c n k q) as Hloop;
        destruct (parseTable_loop f c n k q) as [[[[cols' note'] cs'] q2]| |];
          try discriminate
    end;
    unfold bind at 1;
    match goal with
    | |- context [expect ?a ?b ?q] =>
        destruct (expect a b q) as [[? ?]| |]; try discriminate
    end;
    unfold ret; intros [= <- _]; cbn [TableNode.columns];
    apply (Hloop cols' note' cs' q2); try reflexivity; try constructor;
    congruence.
Qed.

Lemma parse_loop_without_note fuel : forall p tree p',
  no_note_keyword (tokens p) ->
  tables_without_column_notes (tables (ast p)) ->
  parse_loop fuel p = Ok (tree, p') ->
  tables_without_column_notes (tables tree).
Proof.
  induction fuel as [|fuel IH]; intros p tree p' Hall Hast;
    cbn [parse_loop]; unfold bind at 1; unfold more at 1; cbv beta iota;
    (destruct (position p <? length (tokens p));
     [|unfold get_ast; intros [= <- _]; exact Hast]);
    [discriminate|].
  unfold bind at 1. pose proof (skipWhitespace_good p) as Hg.
  destruct (skipWhitespace p) as [[[] p1]| |] eqn:Es; try discriminate.
  cbn [good] in Hg. destruct Hg as [Hg _].
  pose proof (keeps_ast_skipWhitespace p tt p1 Es) as Hast1.
  unfold bind at 1. unfold peek at 1. cbv beta iota.
  repeat match goal with
         | |- context [if ?c then _ else _] => destruct c
         end;
    try discriminate;
    try (unfold get_ast; intros [= <- _]; rewrite Hast1; exact Hast).
  unfold bind at 1.
  destruct (parseTable p1) as [[table p2]| |] eqn:Ep; try discriminate.
  destruct (parseTable_without_note p1 table p2) as [Hcols Htok];
    [congruence | exact Ep |].
  unfold bind at 1. unfold push_table at 1. cbv beta iota.
  apply IH; cbn [tokens ast tables]; [congruence|].
  apply Forall_app. split; [|constructor; [exact Hcols|constructor]].
  rewrite (keeps_ast_parseTable p1 table p2 Ep), Hast1. exact Hast.
Qed.

(** *** Errors inside a table *)

Lemma parseColumn_type_error p ws1 name ws2 tok r :
  rest p = ws1 ++ mkToken IDENTIFIER name :: ws2 ++ tok :: r ->
  Forall is_ws ws1 -> Forall is_ws ws2 ->
  type tok <> WHITESPACE -> type tok <> KEYWORD ->
  parseColumn p = Throw (expect_msg KEYWORD None (Some tok)).
Proof.
  intros Hr H1 H2 Hws Hkw. unfold parseColumn. step_m.
  rewrite (skipWhitespace_spec p ws1 _ Hr H1); [|discriminate].
  assert (Hr1 : rest (skip (length ws1) p)
                = [] ++ mkToken IDENTIFIER name :: ws2 ++ tok :: r)
    by (rest_tac Hr ws1).
  step_m.
  rewrite (expect_ok _ _ _ _ IDENTIFIER None Hr1);
    auto using expect_accepts_any; [|discriminate].
  cbn [length].
  assert (Hr2 : rest (skip 1 (skip (length ws1) p)) = ws2 ++ tok :: r)
    by (rest_tac Hr1 [mkToken IDENTIFIER name]).
  step_m.
  rewrite (expect_reject _ _ _ _ KEYWORD None Hr2); auto.
  intros [Hty _]. contradiction.
Qed.



Lemma parse_blank ws :
  Forall is_ws ws -> parse_tokens ws = Ok (mkAST []).
Proof.
  intros Hws. unfold parse_tokens, parse. step_m.
  rewrite (parse_loop_schema [] _ (new ws) ws); auto.
Qed.

(** The lexer has no keyword [note]: no token that it returns opens the
    inline note of a column. *)
Lemma well_formed_no_note tok :
  LexerSpec.well_formed tok ->
  type_is (Some tok) KEYWORD && value_is (Some tok) "note" = false.
Proof.
  unfold LexerSpec.well_formed, type_is, value_is.
  destruct (type tok); try reflexivity.
  intros [Hin _]. cbn [TokenType_eqb andb].
  unfold Lexer.keywords in Hin. cbn [map In] in Hin.
  repeat (destruct Hin as [<-|Hin]; [vm_compute; reflexivity|]).
  contradiction.
Qed.

(** *** The errors of the parser *)

Lemma throws_bind {A B} (P : jsstring -> Prop) (m : M t A) (k : A -> M t B)
  p :
  throws P (m p) -> (forall a p', throws P (k a p')) ->
  throws P (bind m k p).
Proof.
  intros Hm Hk. unfold bind. destruct (m p) as [[a p']| |]; auto.
Qed.

Ltac throws_step :=
  first [ exact I
        | apply throws_bind; [|intros ? ?]
        | match goal with
          | |- throws _ ((if ?c then _ else _) _) => destruct c
          | |- throws _ ((match ?f with O => _ | S _ => _ end) _) =>
              destruct f
          end ].

Lemma expected_is_parser_error type_ value_ token :
  parser_error (expect_msg type_ value_ token).
Proof. left. reflexivity. Qed.

Lemma unexpected_is_parser_error token :
  parser_error (unexpected_msg token).
Proof. right. reflexivity. Qed.

Lemma skipWhitespace_loop_throws P fuel : forall p,
  throws P (skipWhitespace_loop fuel p).
Proof.
  induction fuel as [|fuel IH]; intros p; cbn [skipWhitespace_loop];
    repeat throws_step; apply IH.
Qed.

Lemma skipWhitespace_throws P p : throws P (skipWhitespace p).
Proof.
  unfold skipWhitespace. repeat throws_step. apply skipWhitespace_loop_throws.
Qed.

Lemma expect_throws type_ value_ p :
  throws parser_error (expect type_ value_ p).
Proof.
  unfold expect. apply throws_bind; [apply skipWhitespace_throws|].
  intros _ p1. apply throws_bind; [exact I|]. intros [tk|] p2;
    [|apply expected_is_parser_error].
  destruct (negb (TokenType_eqb (type tk) type_)
            || (truthy value_ && negb (str_eqb (value tk) (to_str value_))));
    [apply expected_is_parser_error | exact I].
Qed.

(** The token that the loop of [parseConstraints] reads with [advance]
    is the one that it has just seen with [peek]: reading its text never
    fails. *)
Lemma parseConstraints_loop_throws P fuel : forall constraints p,
  throws P (parseConstraints_loop fuel constraints p).
Proof.
  induction fuel as [|fuel IH]; intros cs p; cbn [parseConstraints_loop];
    unfold bind at 1; unfold peek at 1; cbv beta iota;
    destruct (nth_error (tokens p) (position p)) as [tk|] eqn:E;
    cbn [defined andb]; try exact I;
    destruct (negb (value_is (Some tk) "]")); try exact I.
  unfold bind at 1. unfold advance at 1. rewrite E. cbv beta iota.
  repeat throws_step; apply IH.
Qed.

Lemma parseConstraints_throws constraints p :
  throws parser_error (parseConstraints constraints p).
Proof.
  unfold parseConstraints.
  repeat first [ apply expect_throws | apply parseConstraints_loop_throws
               | throws_step ].
Qed.

Lemma parseNote_throws p : throws parser_error (parseNote p).
Proof.
  unfold parseNote.
  repeat first [ apply expect_throws | apply skipWhitespace_throws
               | throws_step ].
Qed.

Lemma parseColumn_throws p : throws parser_error (parseColumn p).
Proof.
  unfold parseColumn.
  repeat first [ apply expect_throws | apply skipWhitespace_throws
               | apply parseConstraints_throws | throws_step ].
Qed.

Lemma parseTable_loop_throws fuel : forall columns note constraints p,
  throws parser_error (parseTable_loop fuel columns note constraints p).
Proof.
  induction fuel as [|fuel IH]; intros cols note cs p;
    cbn [parseTable_loop];
    repeat first [ apply skipWhitespace_throws | apply parseColumn_throws
                 | apply parseNote_throws | apply parseConstraints_throws
                 | apply unexpected_is_parser_error
                 | apply IH | throws_step ].
Qed.

Lemma parseTable_throws p : throws parser_error (parseTable p).
Proof.
  unfold parseTable.
  repeat first [ apply expect_throws | apply skipWhitespace_throws
               | apply parseConstraints_throws
               | apply parseTable_loop_throws
               | match goal with
                 | a : locals |- _ => destruct a as [[? ?] ?]
                 | a : (_ * _ * _)%type |- _ => destruct a as [[? ?] ?]
                 end
               | throws_step ].
Qed.

Lemma parse_loop_throws fuel : forall p,
  throws parser_error (parse_loop fuel p).
Proof.
  induction fuel as [|fuel IH]; intros p; cbn [parse_loop];
    repeat first [ apply skipWhitespace_throws | apply parseTable_throws
                 | apply unexpected_is_parser_error
                 | apply IH | throws_step ].
Qed.

(** [parse] ends on every token sequence, with a tree or with an error. *)
Lemma parse_tokens_terminates toks : parse_tokens toks <> OutOfFuel.
Proof.
  unfold parse_tokens. pose proof (parse_good (new toks)) as H.
  destruct (parse (new toks)) as [[tree p']| |]; simpl in *;
    [discriminate | discriminate | contradiction].
Qed.

Lemma parse_text_terminates text : parse_text text <> OutOfFuel.
Proof.
  unfold parse_text. pose proof (LexerFacts.lex_text_terminates text) as H.
  destruct (lex_text text) as [toks| |];
    [apply parse_tokens_terminates | discriminate | contradiction].
Qed.

End ParserFacts.

(* ================================================================== *)
(** * The claims of the specification *)

Section LexerClaims.
Import Lexer LexerSpec LexerFacts.

(** C3 (as amended).  When the loop of [tokenize] is at a character that
  is not whitespace, not a letter, not a quote and not one of the
  structural characters, the whole tokenization fails with the error
  "Unexpected character: c", which names the character (and nothing
  else); no token sequence is returned. *)
Theorem C3_unrecognized_character_is_fatal (text : jsstring) (l : t) (c : char) :
  reaches (new text) l ->
  nth_error text (position l) = Some c ->
  unrecognized c ->
  lex_text text = Throw (str "Unexpected character: " ++ [c])
  /\ forall toks, lex_text text <> Ok toks.
Proof.
  intros Hreach Hc Hun.
  pose proof (lex_text_unrecognized text l c Hreach Hc Hun) as E.
  split; [exact E|]. intros toks. rewrite E. discriminate.
Qed.

Lemma C3_witness :
  lex_text (str "a @") = Throw (str "Unexpected character: @")
  /\ forall toks, lex_text (str "a @") <> Ok toks.
Proof.
  apply (C3_unrecognized_character_is_fatal (str "a @")
           (mk (str "a @") 2 [mkToken IDENTIFIER (str "a");
                              mkToken WHITESPACE (str " ")])
           64%N).
  - eapply reaches_next; [simpl; lia|reflexivity|].
    eapply reaches_next; [simpl; lia|reflexivity|].
    apply reaches_here.
  - reflexivity.
  - repeat split; try reflexivity; try discriminate.
    simpl. intuition discriminate.
Defined.

(** C3, the claim as stated, refuted: the error message does not identify
    the position of the offending character.  The texts "@" and " @" fail at
    positions 0 and 1 with the same message, so no function of the message
    gives the position. *)
Lemma C3_message_has_no_position :
  ~ exists locate : jsstring -> nat,
      forall (text : jsstring) (l : t) (c : char) (msg : jsstring),
        reaches (new text) l ->
        nth_error text (position l) = Some c ->
        unrecognized c ->
        lex_text text = Throw msg ->
        locate msg = position l.
Proof.
  intros [locate H].
  assert (Hun : unrecognized 64%N).
  { repeat split; try reflexivity; try discriminate.
    simpl. intuition discriminate. }
  pose proof (H (str "@") (new (str "@")) 64%N
                (str "Unexpected character: @")
                (reaches_here _) eq_refl Hun eq_refl) as H0.
  assert (Hr : reaches (new (str " @"))
                 (mk (str " @") 1 [mkToken WHITESPACE (str " ")])).
  { eapply reaches_next; [simpl; lia|reflexivity|apply reaches_here]. }
  pose proof (H (str " @") _ 64%N (str "Unexpected character: @")
                Hr eq_refl Hun eq_refl) as H1.
  simpl in H0, H1. congruence.
Qed.

(** C7.  When the loop of [tokenize] is at a quote character and the same
    quote character does not occur in the rest of the input, tokenization
    ends normally: the tokens so far are followed by one STRING token
    whose text runs from just after the quote to the end of the input. *)
Theorem C7_unterminated_string_accepted (text : jsstring) (l : t) (q : char) :
  reaches (new text) l ->
  nth_error text (position l) = Some q ->
  q = single_quote \/ q = double_quote ->
  ~ In q (skipn (S (position l)) text) ->
  lex_text text
  = Ok (tokens l ++ [mkToken STRING (skipn (S (position l)) text)]).
Proof.
  intros Hreach Hq Hquote Hno.
  assert (Hi : input l = text) by (apply (reaches_input _ _ Hreach)).
  assert (Hlt : position l < length (input l))
    by (rewrite Hi; apply nth_error_Some; congruence).
  unfold lex_text, lex. rewrite (tokenize_reaches _ _ Hreach).
  unfold tokenize, bind, remaining.
  destruct (length (input l) - position l) as [|fuel] eqn:Ef; [lia|].
  cbn [tokenize_loop]. apply Nat.ltb_lt in Hlt. rewrite Hlt.
  unfold bind. rewrite (tokenize_step_unterminated l q); rewrite ?Hi; auto.
  destruct fuel; cbn [tokenize_loop input position tokens];
    (replace (S (length text) <? length text) with false
      by (symmetry; apply Nat.ltb_ge; lia));
    reflexivity.
Qed.

Lemma C7_witness :
  lex_text (str "Note: 'abc")
  = Ok [mkToken KEYWORD (str "Note"); mkToken SYMBOL (str ":");
        mkToken WHITESPACE (str " "); mkToken STRING (str "abc")].
Proof.
  apply (C7_unterminated_string_accepted (str "Note: 'abc")
           (mk (str "Note: 'abc") 6
               [mkToken KEYWORD (str "Note"); mkToken SYMBOL (str ":");
                mkToken WHITESPACE (str " ")])
           single_quote).
  - eapply reaches_next; [simpl; lia|reflexivity|].
    eapply reaches_next; [simpl; lia|reflexivity|].
    eapply reaches_next; [simpl; lia|reflexivity|].
    apply reaches_here.
  - reflexivity.
  - left; reflexivity.
  - simpl. intuition discriminate.
Defined.

(** C10.  Every token of a successful tokenization is of one of the five
    kinds KEYWORD, IDENTIFIER, STRING, SYMBOL, WHITESPACE (so never
    COMMENT, NUMBER or ERROR); a digit at the start of a token is an
    unrecognized character and makes the tokenization fail, as for the
    text "default: 1". *)
Theorem C10_only_five_token_kinds :
  (forall text toks,
      lex_text text = Ok toks ->
      Forall (fun tok => produced (type tok)
                         /\ type tok <> COMMENT /\ type tok <> NUMBER
                         /\ type tok <> ERROR) toks)
  /\ (forall text l d,
         reaches (new text) l ->
         nth_error text (position l) = Some d ->
         isDigit (Some d) = true ->
         lex_text text = Throw (str "Unexpected character: " ++ [d]))
  /\ lex_text (str "default: 1") = Throw (str "Unexpected character: 1").
Proof.
  split; [|split].
  - intros text toks Hlex.
    assert (Hall := tokenize_loop_produced (length text) (new text)
                      ltac:(simpl; lia) ltac:(constructor)).
    unfold lex_text, lex, tokenize, bind, remaining in Hlex.
    change (length (input (new text)) - position (new text))
      with (length text - 0) in Hlex.
    rewrite Nat.sub_0_r in Hlex.
    destruct (tokenize_loop (length text) (new text)) as [[toks' l']| |];
      simpl in Hlex; try discriminate.
    inversion Hlex; subst toks'.
    revert Hall. apply Forall_impl. intros tok Hp. split; [exact Hp|].
    unfold produced in Hp. repeat split; intros E; rewrite E in Hp;
      intuition discriminate.
  - intros text l d Hreach Hd Hdigit.
    apply (lex_text_unrecognized text l d Hreach Hd).
    apply digit_unrecognized. exact Hdigit.
  - reflexivity.
Qed.

Lemma C10_witness :
  lex_text (str "id int") = Ok [mkToken IDENTIFIER (str "id");
                                mkToken WHITESPACE (str " ");
                                mkToken KEYWORD (str "int")]
  /\ Forall (fun tok => produced (type tok)
                        /\ type tok <> COMMENT /\ type tok <> NUMBER
                        /\ type tok <> ERROR)
       [mkToken IDENTIFIER (str "id"); mkToken WHITESPACE (str " ");
        mkToken KEYWORD (str "int")].
Proof.
  split; [reflexivity|].
  apply (proj1 C10_only_five_token_kinds (str "id int")). reflexivity.
Defined.

End LexerClaims.

Section ParserClaims.
  Import Parser ParserSpec ParserFacts.

(** C1, the code at the input of the claim.  For the column declaration
    [id string [not null, unique]] inside a table body the Column node has
    an empty [constraints] sequence: [parseColumn] looks for the bracket
    directly after the type keyword and finds the whitespace token, and
    the loop of [parseTable] then reads the list into the table's own,
    discarded, list.  Written without that whitespace, the list reaches
    the column with its whitespace tokens as entries. *)
Theorem C1_column_constraints_at_claimed_input :
  parse_text (str "Table t { id string [not null, unique] }")
  = Ok (mkAST [TableNode.mk (str "t")
                 [ColumnNode.mk (str "id") (str "string") [] None] None])
  /\ parse_text (str "Table t { id string[not null, unique] }")
     = Ok (mkAST [TableNode.mk (str "t")
                    [ColumnNode.mk (str "id") (str "string")
                       [str "not"; str " "; str "null"; str " ";
                        str "unique"] None] None]).
Proof. split; vm_compute; reflexivity. Qed.

(** The same on a declaration in the style of the sample schema of
    index.ts: both columns come out without constraints, whatever is
    written between the brackets. *)
Example sample_columns_without_constraints :
  parse_text (str "Table client { clientId string [not null] name string  Note: 'Stores details' }")
  = Ok (mkAST [TableNode.mk (str "client")
                 [ColumnNode.mk (str "clientId") (str "string") [] None;
                  ColumnNode.mk (str "name") (str "string") [] None]
                 (Some (str "Stores details"))]).
Proof. vm_compute. reflexivity. Qed.

(** C2, the code at an input of the grammar sketch.  A column with an
    inline note, [id int note: 'x'], makes the parse fail: the lexer has
    no keyword [note], so the word is an IDENTIFIER token and is parsed as
    the name of a further column. *)
Theorem C2_inline_note_rejected :
  lex_text (str "Table t { id int note: 'x' }")
  = Ok [kw "Table"; mkToken WHITESPACE (str " ");
        mkToken IDENTIFIER (str "t"); mkToken WHITESPACE (str " "); lbrace;
        mkToken WHITESPACE (str " "); mkToken IDENTIFIER (str "id");
        mkToken WHITESPACE (str " "); kw "int"; mkToken WHITESPACE (str " ");
        mkToken IDENTIFIER (str "note"); colon; mkToken WHITESPACE (str " ");
        mkToken STRING (str "x"); mkToken WHITESPACE (str " "); rbrace]
  /\ parse_text (str "Table t { id int note: 'x' }")
     = Throw (str "Expected KEYWORD 'undefined', but got SYMBOL ':'").
Proof. split; vm_compute; reflexivity. Qed.

(** C4 (as amended).  [expect(type, value)] skips the leading whitespace
    tokens and advances one token.  It returns that token, with the cursor
    just after it, if and only if the token exists, its kind is [type]
    and, when a non-empty [value] is given, its text equals [value].
    Otherwise it throws "Expected <type> '<value>', but got <kind>
    '<text>'", where an absent [value] reads "undefined" and, when the
    tokens are exhausted, kind and text both read "undefined". *)
Theorem C4_expect_contract (p : t) (ws r : list Token) (type_ : TokenType)
  (value_ : option jsstring) :
  rest p = ws ++ r ->
  Forall is_ws ws ->
  starts_significant r ->
  match r with
  | tok :: _ =>
      (expect_accepts type_ value_ tok ->
       expect type_ value_ p = Ok (tok, skip (S (length ws)) p))
      /\ (~ expect_accepts type_ value_ tok ->
          expect type_ value_ p
          = Throw (str "Expected " ++ TokenType_str type_ ++ str " '"
                   ++ to_str value_ ++ str "', but got "
                   ++ TokenType_str (type tok) ++ str " '" ++ value tok
                   ++ str "'"))
  | [] =>
      expect type_ value_ p
      = Throw (str "Expected " ++ TokenType_str type_ ++ str " '"
               ++ to_str value_ ++ str "', but got undefined 'undefined'")
  end.
Proof.
  intros Hr Hws Hsig. destruct r as [|tok r].
  - rewrite app_nil_r in Hr. rewrite (expect_end p ws type_ value_ Hr Hws).
    reflexivity.
  - simpl in Hsig. split; intros Hacc.
    + apply (expect_ok p ws tok r type_ value_ Hr Hws Hsig Hacc).
    + rewrite (expect_reject p ws tok r type_ value_ Hr Hws Hsig Hacc).
      reflexivity.
Qed.

Lemma C4_witness :
  expect KEYWORD (Some (str "Table"))
    (new [mkToken WHITESPACE (str " "); kw "Table"; lbrace])
  = Ok (kw "Table",
        skip 2 (new [mkToken WHITESPACE (str " "); kw "Table"; lbrace])).
Proof.
  apply (proj1 (C4_expect_contract
                  (new [mkToken WHITESPACE (str " "); kw "Table"; lbrace])
                  [mkToken WHITESPACE (str " ")] [kw "Table"; lbrace]
                  KEYWORD (Some (str "Table")) eq_refl
                  ltac:(repeat constructor) ltac:(discriminate))).
  apply expect_accepts_exact.
Defined.

(** C4, the claim as stated, refuted.  On an exhausted token sequence the
    message of [expect] reads "but got undefined 'undefined'" and does not
    contain the words "end of input"; and an empty literal counts as no
    literal: [expect(STRING, '')] accepts a STRING token of any text. *)
Lemma C4_no_end_of_input_in_message :
  (exists msg,
      expect KEYWORD (Some (str "Table")) (new []) = Throw msg
      /\ msg = str "Expected KEYWORD 'Table', but got undefined 'undefined'"
      /\ includes msg (str "end of input") = false)
  /\ result (expect STRING (Some []) (new [mkToken STRING (str "abc")]))
     = Ok (mkToken STRING (str "abc")).
Proof.
  split; [|reflexivity].
  eexists. split; [reflexivity|]. split; reflexivity.
Qed.

(** C5.  Parsing [Table t { id int }] returns one table named "t" without
    note, with the one column "id" of type "int", no constraints and no
    note. *)
Theorem C5_single_column_table :
  parse_text (str "Table t { id int }")
  = Ok (mkAST [TableNode.mk (str "t")
                 [ColumnNode.mk (str "id") (str "int") [] None] None]).
Proof. vm_compute. reflexivity. Qed.

(** C6.  A bracketed list between the name of a table and its opening
    brace, when no token of the list has the text of the closing bracket,
    is consumed and has no effect on what [parseTable] returns.  For a
    body of members (notes, columns, columns with a list, lists),
    [parseTable] returns the Table node with the name, the columns and
    the last note of the declaration, with the cursor after the closing
    brace, and the declaration without the list gives the same node.  For
    any tokens after the opening brace, with and without the list the
    outcome is the same Table node, with the same tokens left after it,
    or the same error.  A Table node has the fields name, columns and note
    only. *)
Theorem C6_header_list_discarded
  (ws0 ws1 : list Token) (name : jsstring) (ws2 hbody ws3 : list Token)
  (ms : list member) (ws4 r body : list Token) :
  Forall is_ws ws0 -> Forall is_ws ws1 -> Forall is_ws ws2 ->
  Forall is_ws ws3 -> Forall not_closing hbody ->
  body_ok ms (ws4 ++ rbrace :: r) -> Forall gap ws4 ->
  parseTable
    (new (table_tokens ws0 ws1 name ws2 (Some hbody) ws3 ms ws4 ++ r))
  = Ok (TableNode.mk name (body_columns ms)
                     (last_note None (body_notes ms)),
        skip (length (table_tokens ws0 ws1 name ws2 (Some hbody) ws3 ms ws4))
          (new (table_tokens ws0 ws1 name ws2 (Some hbody) ws3 ms ws4 ++ r)))
  /\ parseTable (new (table_tokens ws0 ws1 name ws2 None ws3 ms ws4 ++ r))
     = Ok (TableNode.mk name (body_columns ms)
                        (last_note None (body_notes ms)),
           skip (length (table_tokens ws0 ws1 name ws2 None ws3 ms ws4))
             (new (table_tokens ws0 ws1 name ws2 None ws3 ms ws4 ++ r)))
  /\ match
       parseTable (new (ws0 ++ kw "Table" :: ws1 ++ mkToken IDENTIFIER name
                        :: ws2 ++ lbracket :: hbody ++ rbracket :: ws3
                        ++ lbrace :: body)),
       parseTable (new (ws0 ++ kw "Table" :: ws1 ++ mkToken IDENTIFIER name
                        :: ws2 ++ ws3 ++ lbrace :: body))
     with
     | Ok (table1, p1), Ok (table2, p2) =>
         table1 = table2 /\ rest p1 = rest p2
     | Throw msg1, Throw msg2 => msg1 = msg2
     | _, _ => False
     end.
Proof.
  intros H0 H1 H2 H3 Hh Hok H4.
  split; [|split].
  - apply (parseTable_spec _ ws0 ws1 name ws2 (Some hbody) ws3 ms ws4 r
             (rest_new _) H0 H1 H2 H3 Hh Hok H4).
  - apply (parseTable_spec _ ws0 ws1 name ws2 None ws3 ms ws4 r
             (rest_new _) H0 H1 H2 H3 I Hok H4).
  - pose proof (parseTable_header_discarded ws0 ws1 name ws2 hbody ws3 body
                  H0 H1 H2 H3 Hh) as Hagree.
    match type of Hagree with
    | agree eq (parseTable ?pw) (parseTable ?pv) =>
        pose proof (parseTable_good pw) as Hgood;
        destruct (parseTable pw) as [[table1 p1]| |],
                 (parseTable pv) as [[table2 p2]| |]
    end; simpl in Hagree, Hgood; try contradiction; auto.
    destruct Hagree as [Ht [Hr _]]. split; assumption.
Qed.

Lemma C6_witness :
  lex_text (str "Table t [a, b] { id int }")
  = Ok (table_tokens [] [space] (str "t") [space]
          (Some [mkToken IDENTIFIER (str "a"); mkToken SYMBOL (str ",");
                 space; mkToken IDENTIFIER (str "b")])
          [space] [MColumn [space] (str "id") [space] (str "int")] [space]
        ++ [])
  /\ result
       (parseTable
          (new (table_tokens [] [space] (str "t") [space]
                  (Some [mkToken IDENTIFIER (str "a");
                         mkToken SYMBOL (str ","); space;
                         mkToken IDENTIFIER (str "b")])
                  [space] [MColumn [space] (str "id") [space] (str "int")]
                  [space] ++ [])))
     = Ok (TableNode.mk (str "t")
             [ColumnNode.mk (str "id") (str "int") [] None] None)
  /\ result
       (parseTable
          (new (table_tokens [] [space] (str "t") [space] None
                  [space] [MColumn [space] (str "id") [space] (str "int")]
                  [space] ++ [])))
     = Ok (TableNode.mk (str "t")
             [ColumnNode.mk (str "id") (str "int") [] None] None).
Proof.
  split; [reflexivity|].
  destruct (C6_header_list_discarded [] [space] (str "t") [space]
              [mkToken IDENTIFIER (str "a"); mkToken SYMBOL (str ",");
               space; mkToken IDENTIFIER (str "b")]
              [space] [MColumn [space] (str "id") [space] (str "int")]
              [space] [] [])
    as (Hwith & Hwithout & _);
    first [ rewrite Hwith, Hwithout; split; reflexivity
          | solve [repeat first [split | constructor | discriminate
                                | reflexivity]] ].
Defined.

(** C6, the claim as stated, refuted: a string literal in the header list
    whose text is the closing bracket ends the list early.  On the text
    [Table t [']'] { id int }] the loop of [parseConstraints] stops at the
    STRING token, [expect] then rejects it and [parseTable] throws; the
    same declaration without the list is parsed. *)
Lemma C6_string_bracket_ends_header_list :
  lex_text (str "Table t [']'] { id int }")
  = Ok [kw "Table"; space; mkToken IDENTIFIER (str "t"); space;
        lbracket; mkToken STRING (str "]"); rbracket; space;
        lbrace; space; mkToken IDENTIFIER (str "id"); space; kw "int";
        space; rbrace]
  /\ result
       (parseTable
          (new [kw "Table"; space; mkToken IDENTIFIER (str "t"); space;
                lbracket; mkToken STRING (str "]"); rbracket; space;
                lbrace; space; mkToken IDENTIFIER (str "id"); space;
                kw "int"; space; rbrace]))
     = Throw (str "Expected SYMBOL ']', but got STRING ']'")
  /\ result
       (parseTable
          (new [kw "Table"; space; mkToken IDENTIFIER (str "t"); space;
                space; lbrace; space; mkToken IDENTIFIER (str "id"); space;
                kw "int"; space; rbrace]))
     = Ok (TableNode.mk (str "t")
             [ColumnNode.mk (str "id") (str "int") [] None] None)
  /\ ~ (forall (ws0 ws1 : list Token) (name : jsstring)
               (ws2 hbody ws3 : list Token) (ms : list member)
               (ws4 r : list Token),
          Forall is_ws ws0 -> Forall is_ws ws1 -> Forall is_ws ws2 ->
          Forall is_ws ws3 ->
          body_ok ms (ws4 ++ rbrace :: r) -> Forall gap ws4 ->
          exists table p',
            parseTable
              (new (table_tokens ws0 ws1 name ws2 (Some hbody) ws3 ms ws4
                    ++ r))
            = Ok (table, p')).
Proof.
  split; [reflexivity|]. split; [reflexivity|]. split; [reflexivity|].
  intros H.
  destruct (H [] [space] (str "t") [space] [mkToken STRING (str "]")]
              [space] [MColumn [space] (str "id") [space] (str "int")]
              [space] [])
    as (table & p' & E);
    first [ discriminate E
          | solve [repeat first [split | constructor | discriminate
                                | reflexivity]] ].
Qed.

(** C8.  For a table whose body is a sequence of members (notes, columns,
    columns with a list, lists) with two or more [Note] members,
    [parseTable] succeeds and the note of the returned Table node is the
    text of the last [Note] member. *)
Theorem C8_last_note_wins
  (ws0 ws1 : list Token) (name : jsstring) (ws2 : list Token)
  (header : option (list Token)) (ws3 : list Token) (ms : list member)
  (ws4 r : list Token) (earlier : list jsstring) (text : jsstring) :
  Forall is_ws ws0 -> Forall is_ws ws1 -> Forall is_ws ws2 ->
  Forall is_ws ws3 -> header_ok header ->
  body_ok ms (ws4 ++ rbrace :: r) -> Forall gap ws4 ->
  body_notes ms = earlier ++ [text] ->
  1 <= length earlier ->
  parseTable (new (table_tokens ws0 ws1 name ws2 header ws3 ms ws4 ++ r))
  = Ok (TableNode.mk name (body_columns ms) (Some text),
        skip (length (table_tokens ws0 ws1 name ws2 header ws3 ms ws4))
          (new (table_tokens ws0 ws1 name ws2 header ws3 ms ws4 ++ r))).
Proof.
  intros H0 H1 H2 H3 Hh Hok H4 Hnotes _.
  rewrite (parseTable_spec _ ws0 ws1 name ws2 header ws3 ms ws4 r
             (rest_new _) H0 H1 H2 H3 Hh Hok H4).
  rewrite Hnotes, last_note_snoc. reflexivity.
Qed.

Lemma C8_witness :
  lex_text (str "Table t { Note: 'a' id int Note: 'b' }")
  = Ok (table_tokens [] [mkToken WHITESPACE (str " ")] (str "t")
          [mkToken WHITESPACE (str " ")] None []
          [MNote [mkToken WHITESPACE (str " ")] []
                 [mkToken WHITESPACE (str " ")] (str "a");
           MColumn [mkToken WHITESPACE (str " ")] (str "id")
                   [mkToken WHITESPACE (str " ")] (str "int");
           MNote [mkToken WHITESPACE (str " ")] []
                 [mkToken WHITESPACE (str " ")] (str "b")]
          [mkToken WHITESPACE (str " ")] ++ [])
  /\ result
       (parseTable
          (new (table_tokens [] [mkToken WHITESPACE (str " ")] (str "t")
                  [mkToken WHITESPACE (str " ")] None []
                  [MNote [mkToken WHITESPACE (str " ")] []
                         [mkToken WHITESPACE (str " ")] (str "a");
                   MColumn [mkToken WHITESPACE (str " ")] (str "id")
                           [mkToken WHITESPACE (str " ")] (str "int");
                   MNote [mkToken WHITESPACE (str " ")] []
                         [mkToken WHITESPACE (str " ")] (str "b")]
                  [mkToken WHITESPACE (str " ")] ++ [])))
     = Ok (TableNode.mk (str "t")
             [ColumnNode.mk (str "id") (str "int") [] None]
             (Some (str "b"))).
Proof.
  split; [reflexivity|].
  rewrite (C8_last_note_wins [] [mkToken WHITESPACE (str " ")] (str "t")
             [mkToken WHITESPACE (str " ")] None []
             [MNote [mkToken WHITESPACE (str " ")] []
                    [mkToken WHITESPACE (str " ")] (str "a");
              MColumn [mkToken WHITESPACE (str " ")] (str "id")
                      [mkToken WHITESPACE (str " ")] (str "int");
              MNote [mkToken WHITESPACE (str " ")] []
                    [mkToken WHITESPACE (str " ")] (str "b")]
             [mkToken WHITESPACE (str " ")] [] [str "a"] (str "b"));
    try reflexivity; simpl; auto;
    repeat first [split | constructor | discriminate | reflexivity].
Defined.

End ParserClaims.

(* ================================================================== *)
(** * Further properties of the lexer *)

Section LexerProperties.
  Import Lexer LexerSpec LexerFacts.

Lemma nth_error_skipn_hd {A} (xs : list A) p n :
  nth_error xs (p + n) = hd_error (skipn n (skipn p xs)).
Proof. rewrite skipn_skipn, hd_error_skipn. f_equal. lia. Qed.

Lemma next_token_text c rest tok n :
  next_token (c :: rest) = Some (tok, n) ->
  is_quote c = false ->
  value tok = firstn n (c :: rest) /\ n <= length (c :: rest).
Proof.
  unfold next_token. intros H Hq. rewrite Hq in H.
  destruct (is_space c).
  { injection H as <- <-. split.
    - symmetry. exact (take_while_prefix is_space (c :: rest)).
    - exact (take_while_length is_space (c :: rest)). }
  destruct (isLetter (Some c)).
  { injection H as <- <-. split.
    - unfold word_token.
      destruct (existsb _ keywords);
        symmetry; exact (take_while_prefix is_ident (c :: rest)).
    - exact (take_while_length is_ident (c :: rest)). }
  destruct (is_symbol c); [|discriminate].
  injection H as <- <-. split; [reflexivity | simpl; lia].
Qed.

(** X1.  [lex] has two outcomes only: a token sequence, or the error
    "Unexpected character: c" for a character [c] of the text that is
    not whitespace, a letter, a quote or a structural character.  In
    particular a text of recognized characters only is always
    tokenized. *)
Theorem lex_outcome (text : jsstring) :
  (exists toks, lex_text text = Ok toks)
  \/ (exists c,
         In c text /\ unrecognized c
         /\ lex_text text = Throw (str "Unexpected character: " ++ [c])).
Proof.
  unfold lex_text, lex, tokenize, bind, remaining.
  destruct (tokenize_loop_outcome
              (length (input (new text)) - position (new text)) (new text)
              (le_n _))
    as [(toks & l' & ->)|(c & Hin & Hun & ->)].
  - left. exists toks. reflexivity.
  - right. exists c. auto.
Qed.

(** X2.  Every token that [lex] returns is well formed for its kind: a
    WHITESPACE token is a non-empty run of whitespace characters; a
    KEYWORD or IDENTIFIER token is a letter followed by letters, digits
    and full stops, and it is a KEYWORD exactly when its text is in the
    keyword list; a SYMBOL token is one of the eight structural
    characters. *)
Theorem lex_tokens_well_formed (text : jsstring) (toks : list Token) :
  lex_text text = Ok toks -> Forall well_formed toks.
Proof. apply lex_text_well_formed. Qed.

Lemma lex_tokens_well_formed_witness :
  Forall well_formed
    [mkToken KEYWORD (str "Table"); mkToken WHITESPACE (str " ");
     mkToken IDENTIFIER (str "a.b1"); mkToken SYMBOL (str "{")].
Proof.
  apply (lex_tokens_well_formed (str "Table a.b1{")). reflexivity.
Defined.

(** X3.  Longest match: [lex] never returns two WHITESPACE tokens, or two
    word tokens (KEYWORD, IDENTIFIER), next to each other. *)
Theorem lex_longest_match (text : jsstring) (toks : list Token) :
  lex_text text = Ok toks -> no_glued toks.
Proof.
  intros Hlex.
  destruct (lex_text_invariant
              (fun l =>
                 no_glued (tokens l)
                 /\ forall pre a u,
                      tokens l = pre ++ [a] ->
                      nth_error (input l) (position l) = Some u ->
                      (type a = WHITESPACE -> is_space u = false)
                      /\ (is_word_kind (type a) = true ->
                          is_ident u = false))
              text toks) as (l' & [HI _] & -> & _);
    [ | | exact Hlex | exact HI ].
  - intros l l1 Hlt [Hng Hb] Hs.
    destruct (tokenize_step_ok l l1 Hlt Hs)
      as (c & rest & tok & n & Hsk & Hn & ->).
    cbn [tokens input position].
    pose proof (next_token_boundary c rest tok n Hn) as [Hws Hwd].
    assert (Hc : nth_error (input l) (position l) = Some c)
      by (rewrite <- hd_error_skipn, Hsk; reflexivity).
    split.
    + apply no_glued_snoc; auto. intros pre a Hpre Hg.
      destruct (Hb pre a c Hpre Hc) as [Ha1 Ha2].
      destruct Hg as [[Ha Ht]|[Ha Ht]].
      * destruct (Hws Ht) as [E _]. rewrite (Ha1 Ha) in E. discriminate.
      * destruct (Hwd Ht) as [E _]. rewrite (Ha2 Ha) in E. discriminate.
    + intros pre a u Hpre Hu. apply app_inj_tail in Hpre as [_ <-].
      rewrite nth_error_skipn_hd, Hsk in Hu. split; intros Ht.
      * destruct (Hws Ht) as [_ E]. apply E. exact Hu.
      * destruct (Hwd Ht) as [_ E]. apply E. exact Hu.
  - split; [apply no_glued_nil|].
    intros [|x pre] a u H; discriminate.
Qed.

Lemma lex_longest_match_witness :
  no_glued [mkToken IDENTIFIER (str "a"); mkToken WHITESPACE (str "  ");
            mkToken KEYWORD (str "int")].
Proof.
  apply (lex_longest_match (str "a  int")). reflexivity.
Defined.

(** X4.  Nothing is lost outside string literals: for a text without
    quote characters, the texts of the returned tokens, put together,
    are the text. *)
Theorem lex_concat_quote_free (text : jsstring) (toks : list Token) :
  (forall c, In c text -> is_quote c = false) ->
  lex_text text = Ok toks ->
  concat (map value toks) = text.
Proof.
  intros Hq Hlex.
  destruct (lex_text_invariant
              (fun l =>
                 input l = text
                 /\ position l <= length (input l)
                 /\ concat (map value (tokens l))
                    = firstn (position l) (input l))
              text toks) as (l' & (Hi & Hle & Hc) & -> & Hge);
    [ | | exact Hlex | ].
  - intros l l1 Hlt (Hi & Hle & Hc) Hs.
    destruct (tokenize_step_ok l l1 Hlt Hs)
      as (c & rest & tok & n & Hsk & Hn & ->).
    cbn [tokens input position].
    assert (Hcq : is_quote c = false).
    { apply Hq. rewrite <- Hi. apply (nth_error_In _ (position l)).
      rewrite <- hd_error_skipn, Hsk. reflexivity. }
    destruct (next_token_text c rest tok n Hn Hcq) as [Hv Hn'].
    split; [exact Hi|]. split.
    + rewrite <- Hsk, length_skipn in Hn'. lia.
    + rewrite map_app, concat_app, Hc, firstn_plus, Hsk. cbn [map concat].
      rewrite app_nil_r, Hv. reflexivity.
  - repeat split; simpl; lia.
  - rewrite Hc. replace (position l') with (length (input l')) by lia.
    rewrite firstn_all. exact Hi.
Qed.

Lemma lex_concat_quote_free_witness :
  concat (map value
            [mkToken KEYWORD (str "Table"); mkToken WHITESPACE (str " ");
             mkToken IDENTIFIER (str "t"); mkToken SYMBOL (str "{");
             mkToken SYMBOL (str "}")])
  = str "Table t{}".
Proof.
  apply (lex_concat_quote_free (str "Table t{}")); [|reflexivity].
  intros c Hin. simpl in Hin.
  repeat (destruct Hin as [<-|Hin]; [reflexivity|]). contradiction.
Defined.

(** X5.  A string literal ends at the first occurrence of its opening
    quote: there are no escapes, and a quote of the other kind is part
    of the text.  The token holds the characters between the quotes and
    the cursor moves just past the closing quote. *)
Theorem string_literal_ends_at_first_quote
  (l : t) (q : char) (body post : jsstring) :
  nth_error (input l) (position l) = Some q ->
  is_quote q = true ->
  skipn (S (position l)) (input l) = body ++ q :: post ->
  ~ In q body ->
  tokenize_step l
  = Ok (tt, mk (input l) (position l + length body + 2)
               (tokens l ++ [mkToken STRING body])).
Proof.
  intros Hq Hquote Hrest Hno.
  rewrite (tokenize_step_next l q Hq), (skipn_nth_error _ _ Hq), Hrest.
  unfold next_token.
  assert (Ews : is_space q = false /\ isLetter (Some q) = false).
  { unfold is_quote in Hquote. apply orb_true_iff in Hquote.
    destruct Hquote as [E|E]; apply N.eqb_eq in E; subst q;
      split; reflexivity. }
  destruct Ews as [-> ->]. rewrite Hquote.
  rewrite take_while_until.
  - rewrite Nat.add_assoc. reflexivity.
  - apply Forall_forall. intros u Hu. apply negb_true_iff, N.eqb_neq.
    intros ->. contradiction.
  - rewrite N.eqb_refl. reflexivity.
Qed.

Lemma string_literal_ends_at_first_quote_witness :
  tokenize_step (new (str "'it is ' x"))
  = Ok (tt, mk (str "'it is ' x") 8 [mkToken STRING (str "it is ")]).
Proof.
  apply (string_literal_ends_at_first_quote (new (str "'it is ' x"))
           single_quote (str "it is ") (str " x"));
    try reflexivity.
  simpl. intuition discriminate.
Defined.

(** X6.  A second call of [lex] on the same lexer, after a first call
    that returned, scans nothing and returns the same tokens. *)
Theorem lex_again_same_tokens (l l' : t) (toks : list Token) :
  lex l = Ok (toks, l') -> lex l' = Ok (toks, l').
Proof.
  unfold lex, tokenize, bind, remaining. intros H.
  destruct (tokenize_loop_invariant (fun _ => True) (fun _ _ _ _ _ => I)
              _ _ _ _ I H) as (_ & -> & Hge).
  destruct (length (input l') - position l'); cbn [tokenize_loop];
    (replace (position l' <? length (input l')) with false
      by (symmetry; apply Nat.ltb_ge; lia));
    reflexivity.
Qed.

Lemma lex_again_same_tokens_witness :
  lex (mk (str "a b") 3
          [mkToken IDENTIFIER (str "a"); mkToken WHITESPACE (str " ");
           mkToken IDENTIFIER (str "b")])
  = Ok ([mkToken IDENTIFIER (str "a"); mkToken WHITESPACE (str " ");
         mkToken IDENTIFIER (str "b")],
        mk (str "a b") 3
           [mkToken IDENTIFIER (str "a"); mkToken WHITESPACE (str " ");
            mkToken IDENTIFIER (str "b")]).
Proof.
  apply (lex_again_same_tokens (new (str "a b"))). reflexivity.
Defined.

End LexerProperties.


(* ================================================================== *)
(** * Further properties of the parser *)

Section ParserProperties.
  Import Parser ParserSpec ParserFacts.

(** X7.  The parser terminates: on every token sequence [parse] returns
    a tree or throws, and so does the pipeline on every text. *)
Theorem parser_terminates :
  (forall toks,
      (exists tree, parse_tokens toks = Ok tree)
      \/ (exists msg, parse_tokens toks = Throw msg))
  /\ (forall text,
         (exists tree, parse_text text = Ok tree)
         \/ (exists msg, parse_text text = Throw msg)).
Proof.
  split.
  - intros toks. pose proof (parse_tokens_terminates toks) as H.
    destruct (parse_tokens toks) as [tree|msg|]; eauto. contradiction.
  - intros text. pose proof (parse_text_terminates text) as H.
    destruct (parse_text text) as [tree|msg|]; eauto. contradiction.
Qed.

(** X8.  [parseConstraints] on a bracketed list stores the text of every
    token between the brackets, whitespace tokens included, except a
    comma that directly follows a stored token; it appends them to the
    array that it is given and stops just after the closing bracket. *)
Theorem constraint_list_collected
  (p : t) (ws body r : list Token) (constraints : list jsstring) :
  rest p = ws ++ lbracket :: body ++ rbracket :: r ->
  Forall is_ws ws ->
  Forall not_closing body ->
  parseConstraints constraints p
  = Ok (constraints ++ constraint_entries body,
        skip (length ws + length body + 2) p).
Proof. apply parseConstraints_spec. Qed.

Lemma constraint_list_collected_witness :
  parseConstraints [str "pk"]
    (new [lbracket; kw "not"; mkToken WHITESPACE (str " "); kw "null";
          mkToken SYMBOL (str ","); mkToken WHITESPACE (str " ");
          kw "unique"; rbracket])
  = Ok ([str "pk"; str "not"; str " "; str "null"; str " "; str "unique"],
        skip 8 (new [lbracket; kw "not"; mkToken WHITESPACE (str " ");
                     kw "null"; mkToken SYMBOL (str ",");
                     mkToken WHITESPACE (str " "); kw "unique"; rbracket])).
Proof.
  apply (constraint_list_collected
           (new [lbracket; kw "not"; mkToken WHITESPACE (str " "); kw "null";
                 mkToken SYMBOL (str ","); mkToken WHITESPACE (str " ");
                 kw "unique"; rbracket])
           [] [kw "not"; mkToken WHITESPACE (str " "); kw "null";
               mkToken SYMBOL (str ","); mkToken WHITESPACE (str " ");
               kw "unique"] [] [str "pk"]);
    [reflexivity | constructor | repeat constructor; discriminate].
Defined.



(** X10.  A schema of well-formed table declarations, followed by
    whitespace only, parses to one Table node for each declaration, in
    source order: the name of the declaration, the columns of its members
    in order, and the text of its last [Note] member. *)
Theorem parse_schema_tables (ds : list declaration) (trailing : list Token) :
  Forall declaration_ok ds ->
  Forall is_ws trailing ->
  parse_tokens (schema_tokens ds trailing)
  = Ok (mkAST (map declaration_node ds)).
Proof. apply parse_schema. Qed.

Lemma parse_schema_tables_witness :
  lex_text (str "Table a { id int } Table b { id int } ")
  = Ok (schema_tokens [sample_table [] "a"; sample_table [space] "b"] [space])
  /\ parse_tokens
       (schema_tokens [sample_table [] "a"; sample_table [space] "b"] [space])
     = Ok (mkAST [TableNode.mk (str "a")
                    [ColumnNode.mk (str "id") (str "int") [] None] None;
                  TableNode.mk (str "b")
                    [ColumnNode.mk (str "id") (str "int") [] None] None]).
Proof.
  split; [reflexivity|].
  apply (parse_schema_tables [sample_table [] "a"; sample_table [space] "b"]
           [space]);
    repeat first [split | constructor | discriminate | reflexivity | intro].
Defined.

(** X11.  After any number of well-formed table declarations, a token
    that is neither whitespace nor the keyword [Table] makes [parse] throw
    "Unexpected token <kind> '<text>'"; the tables parsed before it are
    not returned. *)
Theorem parse_rejects_stray_token
  (ds : list declaration) (ws : list Token) (tok : Token) (r : list Token) :
  Forall declaration_ok ds ->
  Forall is_ws ws ->
  type tok <> WHITESPACE ->
  ~ (type tok = KEYWORD /\ value tok = str "Table") ->
  parse_tokens (flat_map declaration_tokens ds ++ ws ++ tok :: r)
  = Throw (str "Unexpected token " ++ TokenType_str (type tok)
           ++ str " '" ++ value tok ++ str "'").
Proof.
  intros Hok Hws Hty Hnot.
  destruct (parse_tokens_declarations ds (ws ++ tok :: r) Hok)
    as (fuel & p' & Hr & ->); [destruct ws; discriminate|].
  cbn [parse_loop]. step_m. rewrite Hr.
  replace (defined (hd_error (ws ++ tok :: r))) with true
    by (destruct ws; reflexivity).
  rewrite (skipWhitespace_spec p' ws _ Hr Hws Hty).
  step_m. rewrite (rest_skip_app p' ws _ Hr). cbn [hd_error].
  destruct (type_is (Some tok) KEYWORD && value_is (Some tok) "Table") eqn:E.
  { exfalso. apply Hnot. apply andb_true_iff in E. destruct E as [E1 E2].
    split; [apply TokenType_eqb_eq, E1 | apply str_eqb_eq, E2]. }
  reflexivity.
Qed.

Lemma parse_rejects_stray_token_witness :
  parse_tokens
    (flat_map declaration_tokens [sample_table [] "a"]
     ++ [space] ++ mkToken IDENTIFIER (str "table") :: [space])
  = Throw (str "Unexpected token IDENTIFIER 'table'").
Proof.
  apply (parse_rejects_stray_token [sample_table [] "a"] [space]
           (mkToken IDENTIFIER (str "table")) [space]);
    try (intros [H _]; discriminate H);
    repeat first [split | constructor | discriminate | reflexivity | intro].
Defined.

(** X12.  An error of [parseTable] ends the whole parse: when
    [parseTable] throws at a [Table] keyword that follows any number of
    well-formed declarations, [parse] throws the same error, and the
    tables parsed before are not returned. *)
Theorem parse_fails_with_table
  (ds : list declaration) (ws r : list Token) (msg : jsstring) :
  Forall declaration_ok ds ->
  Forall is_ws ws ->
  (forall p, rest p = kw "Table" :: r -> parseTable p = Throw msg) ->
  parse_tokens (flat_map declaration_tokens ds ++ ws ++ kw "Table" :: r)
  = Throw msg.
Proof.
  intros Hok Hws Hthrow.
  destruct (parse_tokens_declarations ds (ws ++ kw "Table" :: r) Hok)
    as (fuel & p' & Hr & ->); [destruct ws; discriminate|].
  cbn [parse_loop]. step_m. rewrite Hr.
  replace (defined (hd_error (ws ++ kw "Table" :: r))) with true
    by (destruct ws; reflexivity).
  rewrite (skipWhitespace_spec p' ws _ Hr Hws); [|discriminate].
  step_m. rewrite (rest_skip_app p' ws _ Hr). cbn [hd_error].
  change (type_is (Some (kw "Table")) KEYWORD
          && value_is (Some (kw "Table")) "Table")
    with (str_eqb (str "Table") (str "Table")).
  rewrite str_eqb_refl.
  rewrite (Hthrow _ (rest_skip_app p' ws _ Hr)). reflexivity.
Qed.

Lemma parse_fails_with_table_witness :
  parse_tokens (flat_map declaration_tokens [sample_table [] "a"]
                ++ [space] ++ kw "Table" :: [space])
  = Throw (str "Expected IDENTIFIER 'undefined', but got undefined 'undefined'").
Proof.
  apply (parse_fails_with_table [sample_table [] "a"] [space] [space]);
    [ repeat first [split | constructor | discriminate | reflexivity | intro]
    | repeat constructor | ].
  intros p Hr. unfold parseTable. step_m.
  rewrite (skipWhitespace_spec p [] _ Hr); [|constructor|discriminate].
  cbn [length]. rewrite skip_0. step_m.
  rewrite (expect_ok p [] (kw "Table") [space] KEYWORD (Some (str "Table")));
    [ | exact Hr | constructor | discriminate | apply expect_accepts_exact ].
  step_m.
  rewrite (expect_end _ [space] IDENTIFIER None);
    [ reflexivity | | repeat constructor ].
  change (S (length (@nil Token))) with (length [kw "Table"]).
  apply rest_skip_app. exact Hr.
Defined.

(** X13.  A table whose closing brace is missing is rejected.  When the
    tokens end right after the last member, [parseTable] throws
    "Expected SYMBOL '}', but got undefined 'undefined'"; when whitespace
    follows the last member, the loop of the body throws
    "Unexpected token undefined 'undefined'" instead. *)
Theorem unclosed_table_rejected (p : t) (d : declaration) (ws : list Token) :
  rest p = open_tokens d ++ ws ->
  open_ok d ws ->
  Forall gap ws ->
  parseTable p
  = Throw (match ws with
           | [] => str "Expected SYMBOL '}', but got undefined 'undefined'"
           | _ :: _ => str "Unexpected token undefined 'undefined'"
           end).
Proof.
  intros Hr Hok Hws.
  destruct (parseTable_open p d ws Hr Hok) as (fuel & cs & p' & Hf & Hrp & ->).
  unfold table_close. destruct ws as [|w ws].
  - unfold bind at 1.
    replace (parseTable_loop fuel (body_columns (members d))
               (last_note None (body_notes (members d))) cs p')
      with (@Ok (locals * t)
              ((body_columns (members d),
                last_note None (body_notes (members d)), cs), p'))
      by (destruct fuel; cbn [parseTable_loop]; step_m; rewrite Hrp;
          reflexivity).
    cbv beta iota. step_m.
    rewrite (expect_end p' [] SYMBOL (Some (str "}")) Hrp); [|constructor].
    reflexivity.
  - destruct fuel as [|fuel]; [cbn in Hf; lia|].
    inversion Hws as [|? ? [Hw Hv] Hws']; subst.
    cbn [parseTable_loop]. step_m. rewrite Hrp. cbn [hd_error defined value_is].
    apply str_eqb_neq in Hv. rewrite Hv. cbn [negb andb].
    rewrite (skipWhitespace_spec p' (w :: ws) []);
      [ | rewrite app_nil_r; exact Hrp | apply gap_is_ws, Hws | exact I ].
    step_m. rewrite rest_skip, Hrp, skipn_all. reflexivity.
Qed.

Lemma unclosed_table_rejected_witness :
  lex_text (str "Table t { id int ")
  = Ok (open_tokens (sample_table [] "t") ++ [space])
  /\ parseTable (new (open_tokens (sample_table [] "t") ++ [space]))
     = Throw (str "Unexpected token undefined 'undefined'").
Proof.
  split; [reflexivity|].
  apply (unclosed_table_rejected
           (new (open_tokens (sample_table [] "t") ++ [space]))
           (sample_table [] "t") [space]);
    repeat first [split | constructor | discriminate | reflexivity | intro].
Defined.

(** X14.  The type of a column must be one of the keywords of the lexer:
    when the token after the name of a column is neither whitespace nor a
    KEYWORD token, [parseTable] throws
    "Expected KEYWORD 'undefined', but got <kind> '<text>'". *)
Theorem column_type_must_be_keyword
  (p : t) (d : declaration) (ws1 : list Token) (name : jsstring)
  (ws2 : list Token) (tok : Token) (r : list Token) :
  rest p = open_tokens d
           ++ ws1 ++ mkToken IDENTIFIER name :: ws2 ++ tok :: r ->
  open_ok d (ws1 ++ mkToken IDENTIFIER name :: ws2 ++ tok :: r) ->
  Forall gap ws1 -> name <> str "}" -> Forall is_ws ws2 ->
  type tok <> WHITESPACE -> type tok <> KEYWORD ->
  parseTable p
  = Throw (str "Expected KEYWORD 'undefined', but got "
           ++ TokenType_str (type tok) ++ str " '" ++ value tok ++ str "'").
Proof.
  intros Hr Hok H1 Hname H2 Hws Hkw.
  destruct (parseTable_open p d _ Hr Hok) as (fuel & cs & p' & Hf & Hrp & ->).
  unfold table_close.
  destruct fuel as [|fuel];
    [rewrite length_app in Hf; cbn in Hf; lia|].
  unfold bind at 1.
  destruct (parseTable_loop_enter fuel (body_columns (members d))
              (last_note None (body_notes (members d))) cs p' ws1
              (mkToken IDENTIFIER name) (ws2 ++ tok :: r) Hrp H1)
    as [-> Hr1]; [intros _; exact Hname | discriminate |].
  cbn [type_is type TokenType_eqb]. unfold bind at 1.
  rewrite (parseColumn_type_error _ [] name ws2 tok r Hr1); auto.
Qed.

Lemma column_type_must_be_keyword_witness :
  lex_text (str "Table t { id int name varchar }")
  = Ok (open_tokens (sample_table [] "t")
        ++ [space] ++ mkToken IDENTIFIER (str "name") :: [space]
        ++ mkToken IDENTIFIER (str "varchar") :: [space; rbrace])
  /\ parseTable
       (new (open_tokens (sample_table [] "t")
             ++ [space] ++ mkToken IDENTIFIER (str "name") :: [space]
             ++ mkToken IDENTIFIER (str "varchar") :: [space; rbrace]))
     = Throw (str "Expected KEYWORD 'undefined', but got IDENTIFIER 'varchar'").
Proof.
  split; [reflexivity|].
  apply (column_type_must_be_keyword
           (new (open_tokens (sample_table [] "t")
                 ++ [space] ++ mkToken IDENTIFIER (str "name") :: [space]
                 ++ mkToken IDENTIFIER (str "varchar") :: [space; rbrace]))
           (sample_table [] "t") [space] (str "name") [space]
           (mkToken IDENTIFIER (str "varchar")) [space; rbrace]);
    repeat first [split | constructor | discriminate | reflexivity | intro].
Defined.

(** X15.  In the body of a table, a token that starts no member (not an
    IDENTIFIER, not the keyword [Note], not an opening bracket) and has
    not the text of the closing brace makes [parseTable] throw
    "Unexpected token <kind> '<text>'". *)
Theorem table_rejects_stray_token
  (p : t) (d : declaration) (ws1 : list Token) (tok : Token)
  (r : list Token) :
  rest p = open_tokens d ++ ws1 ++ tok :: r ->
  open_ok d (ws1 ++ tok :: r) ->
  Forall gap ws1 ->
  type tok <> WHITESPACE -> type tok <> IDENTIFIER ->
  ~ (type tok = KEYWORD /\ value tok = str "Note") ->
  ~ (type tok = SYMBOL /\ value tok = str "[") ->
  value tok <> str "}" ->
  parseTable p
  = Throw (str "Unexpected token " ++ TokenType_str (type tok)
           ++ str " '" ++ value tok ++ str "'").
Proof.
  intros Hr Hok H1 Hws Hid Hnote Hlist Hclose.
  destruct (parseTable_open p d _ Hr Hok) as (fuel & cs & p' & Hf & Hrp & ->).
  unfold table_close.
  destruct fuel as [|fuel];
    [rewrite length_app in Hf; cbn in Hf; lia|].
  unfold bind at 1.
  destruct (parseTable_loop_enter fuel (body_columns (members d))
              (last_note None (body_notes (members d))) cs p' ws1
              tok r Hrp H1)
    as [-> _]; [intros _; exact Hclose | exact Hws |].
  assert (E1 : type_is (Some tok) IDENTIFIER = false).
  { cbn [type_is]. destruct (TokenType_eqb (type tok) IDENTIFIER) eqn:E; auto.
    apply TokenType_eqb_eq in E. contradiction. }
  assert (E2 : type_is (Some tok) KEYWORD && value_is (Some tok) "Note"
               = false).
  { destruct (type_is (Some tok) KEYWORD && value_is (Some tok) "Note") eqn:E;
      auto.
    exfalso. apply Hnote. apply andb_true_iff in E. destruct E as [Ea Eb].
    split; [apply TokenType_eqb_eq, Ea | apply str_eqb_eq, Eb]. }
  assert (E3 : type_is (Some tok) SYMBOL && value_is (Some tok) "["
               = false).
  { destruct (type_is (Some tok) SYMBOL && value_is (Some tok) "[") eqn:E;
      auto.
    exfalso. apply Hlist. apply andb_true_iff in E. destruct E as [Ea Eb].
    split; [apply TokenType_eqb_eq, Ea | apply str_eqb_eq, Eb]. }
  assert (E4 : value_is (Some tok) "}" = false)
    by (apply str_eqb_neq, Hclose).
  rewrite E1, E2, E3, E4. reflexivity.
Qed.

Lemma table_rejects_stray_token_witness :
  lex_text (str "Table t { id int, }")
  = Ok (open_tokens (sample_table [] "t")
        ++ [] ++ mkToken SYMBOL (str ",") :: [space; rbrace])
  /\ parseTable
       (new (open_tokens (sample_table [] "t")
             ++ [] ++ mkToken SYMBOL (str ",") :: [space; rbrace]))
     = Throw (str "Unexpected token SYMBOL ','").
Proof.
  split; [reflexivity|].
  apply (table_rejects_stray_token
           (new (open_tokens (sample_table [] "t")
                 ++ [] ++ mkToken SYMBOL (str ",") :: [space; rbrace]))
           (sample_table [] "t") [] (mkToken SYMBOL (str ","))
           [space; rbrace]);
    try (intros [_ H]; discriminate H);
    repeat first [split | constructor | discriminate | reflexivity | intro].
Defined.

(** X16.  The pipeline never returns a column with a note: the lexer has
    no keyword [note], so no token that it returns takes the branch of
    [parseColumn] that reads an inline note. *)
Theorem pipeline_columns_without_note (text : jsstring) (tree : AST) :
  parse_text text = Ok tree ->
  tables_without_column_notes (tables tree).
Proof.
  unfold parse_text.
  destruct (lex_text text) as [toks| |] eqn:Hlex; try discriminate.
  unfold parse_tokens, parse. step_m.
  destruct (parse_loop (length (rest (new toks))) (new toks))
    as [[tree' p']| |] eqn:Hloop; try discriminate.
  cbn [result]. intros [= <-].
  apply (parse_loop_without_note (length (rest (new toks))) (new toks)
           tree' p');
    [ | constructor | exact Hloop ].
  cbn [tokens new]. unfold no_note_keyword.
  apply (Forall_impl _ well_formed_no_note).
  apply (LexerFacts.lex_text_well_formed text toks Hlex).
Qed.

Lemma pipeline_columns_without_note_witness :
  parse_text (str "Table t { id int[pk] }")
  = Ok (mkAST [TableNode.mk (str "t")
                 [ColumnNode.mk (str "id") (str "int") [str "pk"] None] None])
  /\ tables_without_column_notes
       (tables
          (mkAST [TableNode.mk (str "t")
                    [ColumnNode.mk (str "id") (str "int") [str "pk"] None]
                    None])).
Proof.
  split; [reflexivity|].
  apply (pipeline_columns_without_note (str "Table t { id int[pk] }")
           (mkAST [TableNode.mk (str "t")
                     [ColumnNode.mk (str "id") (str "int") [str "pk"] None]
                     None])).
  reflexivity.
Defined.

(** X17.  A text of whitespace only, or an empty text, parses to a tree
    without tables. *)
Theorem parse_blank_text (text : jsstring) :
  Forall (fun c => LexerSpec.is_space c = true) text ->
  parse_text text = Ok (mkAST []).
Proof.
  intros Hall. unfold parse_text. destruct text as [|c text].
  - reflexivity.
  - rewrite (LexerFacts.lex_text_blank c text Hall).
    apply parse_blank. repeat constructor.
Qed.

Lemma parse_blank_text_witness :
  parse_text [32; 9; 10; 13; 160]%N = Ok (mkAST []).
Proof.
  apply (parse_blank_text [32; 9; 10; 13; 160]%N).
  repeat constructor.
Defined.

(** X18.  When [parse] returns, the cursor is at or past the end of the
    tokens and the tree returned is the tree held by the parser, so a
    second call of [parse] on the same parser returns the same tree and
    leaves the parser as it is. *)
Theorem parse_again_same_tree (p p' : t) (tree : AST) :
  parse p = Ok (tree, p') ->
  length (tokens p') <= position p' /\ parse p' = Ok (tree, p').
Proof.
  unfold parse at 1. unfold bind, remaining. intros H.
  destruct (parse_loop_final _ p tree p' H) as [-> Hend].
  split; [exact Hend|].
  unfold parse, bind, remaining.
  replace (length (tokens p') - position p') with 0 by lia.
  cbn [parse_loop]. unfold bind, more.
  replace (position p' <? length (tokens p')) with false
    by (symmetry; apply Nat.ltb_ge; exact Hend).
  reflexivity.
Qed.

Lemma parse_again_same_tree_witness :
  length (tokens (mk [kw "Table"; space; mkToken IDENTIFIER (str "t");
                      lbrace; rbrace] 5
                    (mkAST [TableNode.mk (str "t") [] None]))) <= 5
  /\ parse (mk [kw "Table"; space; mkToken IDENTIFIER (str "t");
                lbrace; rbrace] 5
              (mkAST [TableNode.mk (str "t") [] None]))
     = Ok (mkAST [TableNode.mk (str "t") [] None],
           mk [kw "Table"; space; mkToken IDENTIFIER (str "t");
               lbrace; rbrace] 5
             (mkAST [TableNode.mk (str "t") [] None])).
Proof.
  apply (parse_again_same_tree
           (new [kw "Table"; space; mkToken IDENTIFIER (str "t");
                 lbrace; rbrace])).
  reflexivity.
Defined.

(** X19.  Every error that the parser throws is one of its own: the
    message starts with "Expected " (thrown by [expect]) or with
    "Unexpected token " (thrown by [parseTable] and [parse]).  In
    particular the unchecked read of [this.advance().value] in
    [parseConstraints] never fails. *)
Theorem parse_errors_are_parser_errors (toks : list Token) (msg : jsstring) :
  parse_tokens toks = Throw msg -> parser_error msg.
Proof.
  unfold parse_tokens, parse, bind, remaining. intros H.
  pose proof (parse_loop_throws (length (tokens (new toks))
                                 - position (new toks)) (new toks)) as Ht.
  destruct (parse_loop (length (tokens (new toks)) - position (new toks))
              (new toks)) as [[tree p']|msg'|]; try discriminate.
  cbn [result] in H. injection H as <-. exact Ht.
Qed.

Lemma parse_errors_are_parser_errors_witness :
  parser_error (str "Expected SYMBOL ']', but got undefined 'undefined'").
Proof.
  apply (parse_errors_are_parser_errors
           [kw "Table"; space; mkToken IDENTIFIER (str "t"); lbracket;
            mkToken IDENTIFIER (str "a"); mkToken SYMBOL (str ",")]).
  reflexivity.
Defined.

End ParserProperties.
